(** * ButterComp2: the stereo compressor engine of [buttercomp2.cpp]

    A shallow embedding of the C++ engine ([src/cpp/buttercomp2.cpp]) and the
    properties its specification states about it.

    The engine computes on [double]s.  Every function of the source is
    embedded once, over an arithmetic interface [Arith], and the interface
    has two instances:

    - [Arith_double]: IEEE 754 binary64, on Rocq's primitive floats, with
      the [(float)] store rounded to binary32.  This is the arithmetic the
      compiled code runs, NaN and infinities included, and every
      definition evaluates in it.
    - [Arith_Q]: exact rational arithmetic, the real-number reading of the
      same code, in which the algebraic properties (bounds, invariants)
      are proved.

    Pointers that may be null are [option]s, the [int]s are [Z], the
    two-element arrays of the state are pairs indexed by a channel, and
    the calls to [rand()] read an oracle sequence with a counter. *)

From Stdlib Require Import ZArith QArith Qabs Lqa Lia List Bool Floats.
Import ListNotations.

Set Warnings "-inexact-float".

(** ** The arithmetic of the source *)

Declare Scope num_scope.
Delimit Scope num_scope with num.

(** The operations and literals [buttercomp2.cpp] uses on [double]. *)
Class Arith (num : Type) : Type := {
  k0 : num;        (* 0.0 *)
  k0_001 : num;    (* 0.001 *)
  k0_01 : num;     (* 0.01 *)
  k0_1 : num;      (* 0.1 *)
  k0_5 : num;      (* 0.5 *)
  k0_999 : num;    (* 0.999 *)
  k1 : num;        (* 1.0 *)
  k1_1 : num;      (* 1.1 *)
  k2 : num;        (* 2.0 *)
  k14 : num;       (* 14.0 *)
  k1em10 : num;    (* 1.0e-10 *)
  add : num -> num -> num;
  sub : num -> num -> num;
  mul : num -> num -> num;
  div : num -> num -> num;
  neg : num -> num;
  fabs : num -> num;
  ltb : num -> num -> bool;    (* a < b *)
  of_int : Z -> num;           (* double(i) of an int *)
  to_float : num -> num        (* the value (float)x holds *)
}.

Notation "x + y" := (add x y) : num_scope.
Notation "x - y" := (sub x y) : num_scope.
Notation "x * y" := (mul x y) : num_scope.
Notation "x / y" := (div x y) : num_scope.
Notation "- x" := (neg x) : num_scope.
Notation "x <? y" := (ltb x y) : num_scope.
Notation "x >? y" := (ltb y x) : num_scope.

(** Exact arithmetic. *)
Definition Qltb (a b : Q) : bool := negb (Qle_bool b a).

#[export] Instance Arith_Q : Arith Q := {
  k0 := 0;
  k0_001 := 1 # 1000;
  k0_01 := 1 # 100;
  k0_1 := 1 # 10;
  k0_5 := 1 # 2;
  k0_999 := 999 # 1000;
  k1 := 1;
  k1_1 := 11 # 10;
  k2 := 2;
  k14 := 14;
  k1em10 := 1 # 10000000000;
  add := Qplus;
  sub := Qminus;
  mul := Qmult;
  div := Qdiv;
  neg := Qopp;
  fabs := Qabs;
  ltb := Qltb;
  of_int := inject_Z;
  to_float := fun x => x
}.

(** Binary64.  [double_of_int] is exact on the range of [int]. *)
Definition double_of_int (z : Z) : float :=
  if (z <? 0)%Z then PrimFloat.opp (PrimFloat.of_uint63 (Uint63.of_Z (- z)))
  else PrimFloat.of_uint63 (Uint63.of_Z z).

(** The [(float)] conversion: round to nearest even in binary32 (24 bits of
    precision, exponents below 128); zeros, infinities and NaN are kept. *)
Definition float_of_double (x : float) : float :=
  match Prim2SF x with
  | S754_finite s m e => SF2Prim (binary_round 24 128 s m e)
  | _ => x
  end.

#[export] Instance Arith_double : Arith float := {
  k0 := 0.0%float;
  k0_001 := 0.001%float;
  k0_01 := 0.01%float;
  k0_1 := 0.1%float;
  k0_5 := 0.5%float;
  k0_999 := 0.999%float;
  k1 := 1.0%float;
  k1_1 := 1.1%float;
  k2 := 2.0%float;
  k14 := 14.0%float;
  k1em10 := 1.0e-10%float;
  add := PrimFloat.add;
  sub := PrimFloat.sub;
  mul := PrimFloat.mul;
  div := PrimFloat.div;
  neg := PrimFloat.opp;
  fabs := PrimFloat.abs;
  ltb := PrimFloat.ltb;
  of_int := double_of_int;
  to_float := float_of_double
}.

(** ** The state *)

(** The index [ch] of the per-channel arrays. *)
Inductive chan : Type := ch0 | ch1.

(** A [double x[2]]. *)
Definition arr2 (T : Type) : Type := (T * T)%type.

Definition aget {T : Type} (a : arr2 T) (ch : chan) : T :=
  match ch with ch0 => fst a | ch1 => snd a end.

Definition aset {T : Type} (a : arr2 T) (ch : chan) (v : T) : arr2 T :=
  match ch with ch0 => (v, snd a) | ch1 => (fst a, v) end.

(** [struct ButterComp2State]. *)
Record ButterComp2State (num : Type) : Type := mkState {
  sample_rate : num;
  compress : num;
  output : num;
  dry_wet : num;
  control_A_pos : arr2 num;
  control_A_neg : arr2 num;
  control_B_pos : arr2 num;
  control_B_neg : arr2 num;
  target_pos : arr2 num;
  target_neg : arr2 num;
  avg_A : arr2 num;
  avg_B : arr2 num;
  dyn_A : arr2 num;
  dyn_B : arr2 num;
  fpflip : Z
}.

Arguments mkState {num}.
Arguments sample_rate {num}.
Arguments compress {num}.
Arguments output {num}.
Arguments dry_wet {num}.
Arguments control_A_pos {num}.
Arguments control_A_neg {num}.
Arguments control_B_pos {num}.
Arguments control_B_neg {num}.
Arguments target_pos {num}.
Arguments target_neg {num}.
Arguments avg_A {num}.
Arguments avg_B {num}.
Arguments dyn_A {num}.
Arguments dyn_B {num}.
Arguments fpflip {num}.

(** ** The engine *)

Section Engine.

Context {num : Type} {AR : Arith num}.

(** [RAND_MAX] of [<cstdlib>], and the value the [k]-th call of [rand()]
    returns. *)
Variable RAND_MAX : Z.
Variable rand : nat -> Z.

Local Open Scope num_scope.

Local Abbreviation State := (ButterComp2State num).

(** Assignments to one member of the state. *)
Definition with_compress (s : State) (v : num) : State :=
  mkState (sample_rate s) v (output s) (dry_wet s)
    (control_A_pos s) (control_A_neg s) (control_B_pos s) (control_B_neg s)
    (target_pos s) (target_neg s) (avg_A s) (avg_B s) (dyn_A s) (dyn_B s)
    (fpflip s).

Definition with_output (s : State) (v : num) : State :=
  mkState (sample_rate s) (compress s) v (dry_wet s)
    (control_A_pos s) (control_A_neg s) (control_B_pos s) (control_B_neg s)
    (target_pos s) (target_neg s) (avg_A s) (avg_B s) (dyn_A s) (dyn_B s)
    (fpflip s).

Definition with_dry_wet (s : State) (v : num) : State :=
  mkState (sample_rate s) (compress s) (output s) v
    (control_A_pos s) (control_A_neg s) (control_B_pos s) (control_B_neg s)
    (target_pos s) (target_neg s) (avg_A s) (avg_B s) (dyn_A s) (dyn_B s)
    (fpflip s).

Definition with_control_A_pos (s : State) (ch : chan) (v : num) : State :=
  mkState (sample_rate s) (compress s) (output s) (dry_wet s)
    (aset (control_A_pos s) ch v) (control_A_neg s) (control_B_pos s)
    (control_B_neg s) (target_pos s) (target_neg s) (avg_A s) (avg_B s)
    (dyn_A s) (dyn_B s) (fpflip s).

Definition with_control_A_neg (s : State) (ch : chan) (v : num) : State :=
  mkState (sample_rate s) (compress s) (output s) (dry_wet s)
    (control_A_pos s) (aset (control_A_neg s) ch v) (control_B_pos s)
    (control_B_neg s) (target_pos s) (target_neg s) (avg_A s) (avg_B s)
    (dyn_A s) (dyn_B s) (fpflip s).

Definition with_target_pos (s : State) (ch : chan) (v : num) : State :=
  mkState (sample_rate s) (compress s) (output s) (dry_wet s)
    (control_A_pos s) (control_A_neg s) (control_B_pos s) (control_B_neg s)
    (aset (target_pos s) ch v) (target_neg s) (avg_A s) (avg_B s)
    (dyn_A s) (dyn_B s) (fpflip s).

Definition with_target_neg (s : State) (ch : chan) (v : num) : State :=
  mkState (sample_rate s) (compress s) (output s) (dry_wet s)
    (control_A_pos s) (control_A_neg s) (control_B_pos s) (control_B_neg s)
    (target_pos s) (aset (target_neg s) ch v) (avg_A s) (avg_B s)
    (dyn_A s) (dyn_B s) (fpflip s).

Definition with_avg_A (s : State) (ch : chan) (v : num) : State :=
  mkState (sample_rate s) (compress s) (output s) (dry_wet s)
    (control_A_pos s) (control_A_neg s) (control_B_pos s) (control_B_neg s)
    (target_pos s) (target_neg s) (aset (avg_A s) ch v) (avg_B s)
    (dyn_A s) (dyn_B s) (fpflip s).

Definition with_fpflip (s : State) (v : Z) : State :=
  mkState (sample_rate s) (compress s) (output s) (dry_wet s)
    (control_A_pos s) (control_A_neg s) (control_B_pos s) (control_B_neg s)
    (target_pos s) (target_neg s) (avg_A s) (avg_B s) (dyn_A s) (dyn_B s) v.

(** [std::min] and [std::max] of [<algorithm>]: the first argument unless
    the comparison says otherwise. *)
Definition std_min (a b : num) : num := if b <? a then b else a.
Definition std_max (a b : num) : num := if a <? b then b else a.

(** The operator [!] on an [int]. *)
Definition lnot (i : Z) : Z := if (i =? 0)%Z then 1%Z else 0%Z.

(** [buttercomp2_create]: [calloc_ok] says whether [calloc] returned a
    block; the block is zero-filled. *)
Definition buttercomp2_create (calloc_ok : bool) (sample_rate : num)
  : option State :=
  if negb calloc_ok then None
  else
    Some (mkState sample_rate k0 k0_5 k1
            (k0, k0) (k0, k0) (k0, k0) (k0, k0) (k0, k0)
            (k0, k0) (k0, k0) (k0, k0) (k0, k0) (k0, k0) 1%Z).

(** [buttercomp2_set_compress], [buttercomp2_set_output] and
    [buttercomp2_set_dry_wet]. *)
Definition buttercomp2_set_compress (state : option State) (compress : num)
  : option State :=
  match state with
  | Some s => Some (with_compress s (std_max k0 (std_min k1 compress)))
  | None => None
  end.

Definition buttercomp2_set_output (state : option State) (output : num)
  : option State :=
  match state with
  | Some s => Some (with_output s (std_max k0 (std_min k1 output)))
  | None => None
  end.

Definition buttercomp2_set_dry_wet (state : option State) (dry_wet : num)
  : option State :=
  match state with
  | Some s => Some (with_dry_wet s (std_max k0 (std_min k1 dry_wet)))
  | None => None
  end.

(** The body of the loop of [buttercomp2_reset], for one [ch]. *)
Definition reset_channel (s : State) (ch : chan) : State :=
  mkState (sample_rate s) (compress s) (output s) (dry_wet s)
    (aset (control_A_pos s) ch k0) (aset (control_A_neg s) ch k0)
    (aset (control_B_pos s) ch k0) (aset (control_B_neg s) ch k0)
    (aset (target_pos s) ch k0) (aset (target_neg s) ch k0)
    (aset (avg_A s) ch k0) (aset (avg_B s) ch k0)
    (aset (dyn_A s) ch k0) (aset (dyn_B s) ch k0)
    (fpflip s).

(** [buttercomp2_reset]. *)
Definition buttercomp2_reset (state : option State) : option State :=
  match state with
  | None => None
  | Some s => Some (fold_left reset_channel [ch0; ch1] s)
  end.

(** The values [buttercomp2_process_stereo] derives from the parameters
    before its loop. *)
Record Locals : Type := mkLocals {
  compress_amount : num;
  output_gain : num;
  wet : num;
  dry : num;
  release_speed : num
}.

Definition locals_of (s : State) : Locals :=
  let compress_amount := compress s * k14 in
  let output_gain := output s * k2 in
  let wet := dry_wet s in
  let dry := k1 - wet in
  let one_over_sample_rate := k1 / sample_rate s in
  let release_speed := k0_001 * one_over_sample_rate in
  mkLocals compress_amount output_gain wet dry release_speed.

(** Lines 125-146: input conditioning, the butterfly targets, and the
    first gain reduction of the sample, on the side of its sign. *)
Definition first_stage (c : Locals) (s : State) (ch : chan)
  (input_sample : num) : State * num :=
  let input_sample := input_sample * (k1 + compress_amount c * k0_1) in
  let pos_target := fabs input_sample in
  let neg_target := - fabs input_sample in
  let s := with_target_pos s ch
             (aget (target_pos s) ch * k0_999 + pos_target * k0_001) in
  let s := with_target_neg s ch
             (aget (target_neg s) ch * k0_999 + neg_target * k0_001) in
  let control_A := aget (target_pos s) ch * compress_amount c * k0_1 in
  let control_B := aget (target_neg s) ch * compress_amount c * k0_1 in
  if input_sample >? k0 then
    let s := with_control_A_pos s ch
               (aget (control_A_pos s) ch
                + (control_A - aget (control_A_pos s) ch) * release_speed c) in
    (s, input_sample / (k1 + aget (control_A_pos s) ch))
  else
    let s := with_control_A_neg s ch
               (aget (control_A_neg s) ch
                + (control_B - aget (control_A_neg s) ch) * release_speed c) in
    (s, input_sample / (k1 + fabs (aget (control_A_neg s) ch))).

(** Lines 148-164: the envelope [avg_A] and the division of a sample that
    stands above it.  [release_mod] and [dynamic_release] are computed by
    the source and used nowhere. *)
Definition second_stage (c : Locals) (s : State) (ch : chan)
  (input_sample : num) : State * num :=
  let abs_sample := fabs input_sample in
  let s :=
    if abs_sample >? aget (avg_A s) ch then with_avg_A s ch abs_sample
    else with_avg_A s ch (aget (avg_A s) ch * k0_999 + abs_sample * k0_001) in
  let release_mod := k1 + aget (avg_A s) ch * compress_amount c * k0_01 in
  let dynamic_release := release_speed c * release_mod in
  let comp_ratio := k1 + compress_amount c * k0_1 in
  if abs_sample >? aget (avg_A s) ch * k1_1 then (s, input_sample / comp_ratio)
  else (s, input_sample).

(** Lines 167-171: output gain and the clip to [-1, 1]. *)
Definition limit_stage (c : Locals) (input_sample : num) : num :=
  let input_sample := input_sample * output_gain c in
  let input_sample := if input_sample >? k1 then k1 else input_sample in
  let input_sample := if input_sample <? - k1 then - k1 else input_sample in
  input_sample.

(** Lines 174-182: the mix with the dry sample, the dither on every other
    sample, and the value stored back as a [float].  [k] counts the calls
    of [rand()] so far. *)
Definition mix_stage (c : Locals) (s : State) (dry_sample input_sample : num)
  (k : nat) : State * num * nat :=
  let output_sample := dry_sample * dry c + input_sample * wet c in
  let s := with_fpflip s (lnot (fpflip s)) in
  if (fpflip s =? 0)%Z then (s, to_float output_sample, k)
  else
    let output_sample :=
      output_sample
      + (of_int (rand k) / of_int RAND_MAX - k0_5) * k1em10 in
    (s, to_float output_sample, S k).

(** The body of the loop over [ch], lines 119-182, for the sample
    [*channels[ch]]. *)
Definition process_channel (c : Locals) (s : State) (ch : chan)
  (sample : num) (k : nat) : State * num * nat :=
  let input_sample := sample in
  let dry_sample := input_sample in
  let '(s, input_sample) := first_stage c s ch input_sample in
  let '(s, input_sample) := second_stage c s ch input_sample in
  let input_sample := limit_stage c input_sample in
  mix_stage c s dry_sample input_sample k.

(** [buf[i] = v]. *)
Fixpoint store (buf : list num) (i : nat) (v : num) : list num :=
  match buf, i with
  | [], _ => []
  | _ :: t, O => v :: t
  | h :: t, S i' => h :: store t i' v
  end.

(** The loop over [i], with [count] iterations left.  A read past the end
    of a buffer has no defined behaviour: the result is [None]. *)
Fixpoint sample_loop (c : Locals) (count i : nat) (s : State)
  (left_channel right_channel : list num) (k : nat)
  : option (State * list num * list num * nat) :=
  match count with
  | O => Some (s, left_channel, right_channel, k)
  | S count' =>
    match nth_error left_channel i with
    | None => None
    | Some l =>
      let '(s, l', k) := process_channel c s ch0 l k in
      let left_channel := store left_channel i l' in
      match nth_error right_channel i with
      | None => None
      | Some r =>
        let '(s, r', k) := process_channel c s ch1 r k in
        let right_channel := store right_channel i r' in
        sample_loop c count' (S i) s left_channel right_channel k
      end
    end
  end.

(** The same loop as a recursion over the samples it visits: what it does
    to the state and which values it stores ([sample_loop_frames]). *)
Fixpoint process_frames (c : Locals) (s : State) (ls rs : list num) (k : nat)
  : State * list num * list num * nat :=
  match ls, rs with
  | l :: ls', r :: rs' =>
    let '(s, l', k) := process_channel c s ch0 l k in
    let '(s, r', k) := process_channel c s ch1 r k in
    let '(s, lo, ro, k) := process_frames c s ls' rs' k in
    (s, l' :: lo, r' :: ro, k)
  | _, _ => (s, [], [], k)
  end.

(** What a call leaves behind: the state, the two buffers, and the number
    of calls of [rand()]. *)
Definition Memory : Type :=
  (option State * option (list num) * option (list num) * nat)%type.

(** [buttercomp2_process_stereo].  The two buffers are distinct objects. *)
Definition buttercomp2_process_stereo (state : option State)
  (left_channel right_channel : option (list num)) (num_samples : Z)
  (k : nat) : option Memory :=
  match state, left_channel, right_channel with
  | Some s, Some l, Some r =>
    match sample_loop (locals_of s) (Z.to_nat num_samples) 0 s l r k with
    | Some (s', l', r', k') => Some (Some s', Some l', Some r', k')
    | None => None
    end
  | _, _, _ => Some (state, left_channel, right_channel, k)
  end.

(** The second stage as the specification words it (step 6): a follower
    with instant attack and one-pole release, then the division of a
    sample that stands 10 percent above the envelope. *)
Definition spec_envelope (envelope abs_value : num) : num :=
  if abs_value >? envelope then abs_value
  else envelope * k0_999 + abs_value * k0_001.

Definition spec_transient (compressAmount envelope abs_value sample : num)
  : num :=
  if abs_value >? envelope * k1_1 then sample / (k1 + compressAmount * k0_1)
  else sample.

(** The states an instance goes through, sample by sample: the one
    [buttercomp2_create] returns, those the setters and [buttercomp2_reset]
    lead to, and the state after each sample that
    [buttercomp2_process_stereo] processes, on either channel, when the
    samples satisfy [P] ([process_stereo_reachable]: the state a call
    returns is one of them). *)
Inductive reachable (P : num -> Prop) : State -> Prop :=
| reach_create (rate : num) (s : State) :
    buttercomp2_create true rate = Some s -> reachable P s
| reach_set_compress (s s' : State) (v : num) :
    reachable P s ->
    buttercomp2_set_compress (Some s) v = Some s' -> reachable P s'
| reach_set_output (s s' : State) (v : num) :
    reachable P s ->
    buttercomp2_set_output (Some s) v = Some s' -> reachable P s'
| reach_set_dry_wet (s s' : State) (v : num) :
    reachable P s ->
    buttercomp2_set_dry_wet (Some s) v = Some s' -> reachable P s'
| reach_reset (s s' : State) :
    reachable P s -> buttercomp2_reset (Some s) = Some s' -> reachable P s'
| reach_sample (s : State) (ch : chan) (x : num) (k : nat) :
    reachable P s -> P x ->
    reachable P (fst (fst (process_channel (locals_of s) s ch x k))).

End Engine.

(** The two buffers of a result. *)
Definition buffers_of {num : Type} (m : option (@Memory num))
  : option (list num * list num) :=
  match m with
  | Some (_, Some l, Some r, _) => Some (l, r)
  | _ => None
  end.

(** The state of a result. *)
Definition state_of {num : Type} (m : option (@Memory num))
  : option (ButterComp2State num) :=
  match m with
  | Some (s, _, _, _) => s
  | None => None
  end.

(** * Properties that hold in every arithmetic *)

Section Structure.

Context {num : Type} {AR : Arith num}.
Variable RAND_MAX : Z.
Variable rand : nat -> Z.

Local Open Scope num_scope.

Local Abbreviation State := (ButterComp2State num).

Lemma aget_aset_same (T : Type) (a : arr2 T) (ch : chan) (v : T) :
  aget (aset a ch v) ch = v.
Proof. destruct ch; reflexivity. Qed.

Lemma aget_aset_other (T : Type) (a : arr2 T) (ch ch' : chan) (v : T) :
  ch <> ch' -> aget (aset a ch v) ch' = aget a ch'.
Proof. destruct ch, ch'; try reflexivity; intros H; now elim H. Qed.

Lemma aset_aset (T : Type) (a : arr2 T) (ch : chan) (v w : T) :
  aset (aset a ch v) ch w = aset a ch w.
Proof. destruct ch; reflexivity. Qed.

(** ** The parameters are read, never written, by the processing *)

Definition same_params (s s' : State) : Prop :=
  sample_rate s' = sample_rate s /\ compress s' = compress s /\
  output s' = output s /\ dry_wet s' = dry_wet s.

Lemma same_params_refl s : same_params s s.
Proof. repeat split. Qed.

Lemma same_params_trans s1 s2 s3 :
  same_params s1 s2 -> same_params s2 s3 -> same_params s1 s3.
Proof.
  unfold same_params. intros (a & b & c & d) (a' & b' & c' & d').
  repeat split; congruence.
Qed.

Lemma same_params_locals s s' : same_params s s' -> locals_of s' = locals_of s.
Proof.
  intros (a & b & c & d). unfold locals_of. now rewrite a, b, c, d.
Qed.

Lemma first_stage_params c s ch x : same_params s (fst (first_stage c s ch x)).
Proof.
  unfold first_stage. destruct (ltb _ _); repeat split.
Qed.

Lemma second_stage_params c s ch x :
  same_params s (fst (second_stage c s ch x)).
Proof.
  unfold second_stage.
  destruct (ltb (aget (avg_A s) ch) _); destruct (ltb _ _); repeat split.
Qed.

Lemma mix_stage_params c s d x k :
  same_params s (fst (fst (mix_stage RAND_MAX rand c s d x k))).
Proof.
  unfold mix_stage. cbn. destruct (Z.eqb _ _); repeat split.
Qed.

Lemma process_channel_params c s ch x k :
  same_params s (fst (fst (process_channel RAND_MAX rand c s ch x k))).
Proof.
  unfold process_channel.
  pose proof (first_stage_params c s ch x) as H1.
  destruct (first_stage c s ch x) as [s1 y].
  pose proof (second_stage_params c s1 ch y) as H2.
  destruct (second_stage c s1 ch y) as [s2 z].
  eapply same_params_trans; [exact H1|].
  eapply same_params_trans; [exact H2|].
  apply mix_stage_params.
Qed.

Lemma process_frames_params c ls : forall s rs k,
  same_params s (fst (fst (fst (process_frames RAND_MAX rand c s ls rs k)))).
Proof.
  induction ls as [|l ls IH]; intros s rs k; cbn.
  - apply same_params_refl.
  - destruct rs as [|r rs]; [apply same_params_refl|].
    pose proof (process_channel_params c s ch0 l k) as H1.
    destruct (process_channel RAND_MAX rand c s ch0 l k) as [[s1 l'] k1].
    pose proof (process_channel_params c s1 ch1 r k1) as H2.
    destruct (process_channel RAND_MAX rand c s1 ch1 r k1) as [[s2 r'] k2].
    pose proof (IH s2 rs k2) as H3.
    destruct (process_frames RAND_MAX rand c s2 ls rs k2) as [[[s3 lo] ro] k3].
    cbn in *.
    eapply same_params_trans; [exact H1|].
    eapply same_params_trans; [exact H2|exact H3].
Qed.

(** ** The loop over [i] and the recursion over the samples *)

Lemma nth_error_middle (pre : list num) x post n :
  length pre = n -> nth_error (pre ++ x :: post) n = Some x.
Proof. intros <-. induction pre; cbn; auto. Qed.

Lemma store_middle (pre : list num) x post v n :
  length pre = n -> store (pre ++ x :: post) n v = pre ++ v :: post.
Proof. intros <-. induction pre; cbn; [reflexivity | now f_equal]. Qed.

Lemma sample_loop_frames c lm : forall rm lp rp lt rt s k,
  length lp = length rp -> length lm = length rm ->
  sample_loop RAND_MAX rand c (length lm) (length lp) s
    (lp ++ lm ++ lt) (rp ++ rm ++ rt) k
  = let '(s', lo, ro, k') := process_frames RAND_MAX rand c s lm rm k in
    Some (s', lp ++ lo ++ lt, rp ++ ro ++ rt, k').
Proof.
  induction lm as [|l lm IH]; intros rm lp rp lt rt s k Hp Hm.
  - destruct rm; [reflexivity | discriminate].
  - destruct rm as [|r rm]; [discriminate|].
    cbn [length sample_loop process_frames app].
    rewrite (nth_error_middle lp) by reflexivity.
    destruct (process_channel RAND_MAX rand c s ch0 l k) as [[s1 l'] k1].
    rewrite (nth_error_middle rp) by (symmetry; exact Hp).
    destruct (process_channel RAND_MAX rand c s1 ch1 r k1) as [[s2 r'] k2].
    rewrite (store_middle lp) by reflexivity.
    rewrite (store_middle rp) by (symmetry; exact Hp).
    specialize (IH rm (lp ++ [l']) (rp ++ [r']) lt rt s2 k2).
    rewrite !length_app in IH. cbn [length] in IH.
    rewrite <- !app_assoc in IH. cbn [app] in IH.
    replace (S (length lp)) with (length lp + 1)%nat by lia.
    rewrite IH by (cbn in Hm; lia).
    destruct (process_frames RAND_MAX rand c s2 lm rm k2) as [[[s3 lo] ro] k3].
    now rewrite <- !app_assoc.
Qed.

(** A call on buffers of [num_samples] samples each. *)
Lemma process_stereo_frames s ls rs k :
  length ls = length rs ->
  buttercomp2_process_stereo RAND_MAX rand (Some s) (Some ls) (Some rs)
    (Z.of_nat (length ls)) k
  = let '(s', lo, ro, k') :=
      process_frames RAND_MAX rand (locals_of s) s ls rs k in
    Some (Some s', Some lo, Some ro, k').
Proof.
  intros Hlen. unfold buttercomp2_process_stereo. rewrite Nat2Z.id.
  pose proof (sample_loop_frames (locals_of s) ls rs [] [] [] [] s k
                eq_refl Hlen) as H.
  cbn [app length] in H. rewrite !app_nil_r in H. rewrite H.
  destruct (process_frames _ _ _ _ _ _ _) as [[[s' lo] ro] k'].
  now rewrite !app_nil_r.
Qed.

Lemma process_frames_app c l1 : forall r1 l2 r2 s k,
  length l1 = length r1 ->
  process_frames RAND_MAX rand c s (l1 ++ l2) (r1 ++ r2) k
  = let '(s1, lo1, ro1, k1) := process_frames RAND_MAX rand c s l1 r1 k in
    let '(s2, lo2, ro2, k2) := process_frames RAND_MAX rand c s1 l2 r2 k1 in
    (s2, lo1 ++ lo2, ro1 ++ ro2, k2).
Proof.
  induction l1 as [|l l1 IH]; intros r1 l2 r2 s k Hlen.
  - destruct r1; [|discriminate]. cbn.
    now destruct (process_frames _ _ _ _ _ _ _) as [[[s2 lo2] ro2] k2].
  - destruct r1 as [|r r1]; [discriminate|]. cbn.
    destruct (process_channel RAND_MAX rand c s ch0 l k) as [[sa l'] ka].
    destruct (process_channel RAND_MAX rand c sa ch1 r ka) as [[sb r'] kb].
    rewrite IH by (cbn in Hlen; lia).
    destruct (process_frames RAND_MAX rand c sb l1 r1 kb) as [[[s1 lo1] ro1] k1].
    now destruct (process_frames RAND_MAX rand c s1 l2 r2 k1)
      as [[[s2 lo2] ro2] k2].
Qed.

Lemma process_frames_length c ls : forall rs s k,
  length ls = length rs ->
  length (snd (fst (fst (process_frames RAND_MAX rand c s ls rs k))))
    = length ls /\
  length (snd (fst (process_frames RAND_MAX rand c s ls rs k))) = length rs.
Proof.
  induction ls as [|l ls IH]; intros rs s k Hlen.
  - destruct rs; [cbn; auto | discriminate].
  - destruct rs as [|r rs]; [discriminate|]. cbn.
    destruct (process_channel RAND_MAX rand c s ch0 l k) as [[sa l'] ka].
    destruct (process_channel RAND_MAX rand c sa ch1 r ka) as [[sb r'] kb].
    specialize (IH rs sb kb ltac:(cbn in Hlen; lia)).
    destruct (process_frames RAND_MAX rand c sb ls rs kb) as [[[s1 lo1] ro1] k1].
    cbn in *. lia.
Qed.

(** ** Invariants of the state and relations between input and output *)

Lemma process_frames_invariant (c : Locals) (I : State -> Prop)
  (P : num -> Prop)
  (Hstep : forall s ch x k, I s -> P x ->
     I (fst (fst (process_channel RAND_MAX rand c s ch x k)))) :
  forall ls rs s k, I s -> Forall P ls -> Forall P rs ->
    I (fst (fst (fst (process_frames RAND_MAX rand c s ls rs k)))).
Proof.
  induction ls as [|l ls IH]; intros rs s k Hs Hl Hr; cbn; [exact Hs|].
  destruct rs as [|r rs]; [exact Hs|].
  inversion Hl as [|? ? Pl Hl']; subst. inversion Hr as [|? ? Pr Hr']; subst.
  pose proof (Hstep s ch0 l k Hs Pl) as H1.
  destruct (process_channel RAND_MAX rand c s ch0 l k) as [[s1 l'] k1].
  pose proof (Hstep s1 ch1 r k1 H1 Pr) as H2.
  destruct (process_channel RAND_MAX rand c s1 ch1 r k1) as [[s2 r'] k2].
  pose proof (IH rs s2 k2 H2 Hl' Hr') as H3.
  now destruct (process_frames RAND_MAX rand c s2 ls rs k2)
    as [[[s3 lo] ro] k3].
Qed.

Lemma process_frames_outputs (c : Locals) (R : num -> num -> Prop)
  (Hstep : forall s ch x k,
     R x (snd (fst (process_channel RAND_MAX rand c s ch x k)))) :
  forall ls rs s k, length ls = length rs ->
    Forall2 R ls (snd (fst (fst (process_frames RAND_MAX rand c s ls rs k))))
    /\ Forall2 R rs (snd (fst (process_frames RAND_MAX rand c s ls rs k))).
Proof.
  induction ls as [|l ls IH]; intros rs s k Hlen.
  - destruct rs; [cbn; auto | discriminate].
  - destruct rs as [|r rs]; [discriminate|]. cbn.
    pose proof (Hstep s ch0 l k) as H1.
    destruct (process_channel RAND_MAX rand c s ch0 l k) as [[s1 l'] k1].
    pose proof (Hstep s1 ch1 r k1) as H2.
    destruct (process_channel RAND_MAX rand c s1 ch1 r k1) as [[s2 r'] k2].
    specialize (IH rs s2 k2 ltac:(cbn in Hlen; lia)).
    destruct (process_frames RAND_MAX rand c s2 ls rs k2)
      as [[[s3 lo] ro] k3].
    cbn in *. destruct IH. split; constructor; assumption.
Qed.

(** The state a call returns is one the instance goes through. *)
Lemma process_stereo_reachable (P : num -> Prop) (s s' : State)
  (ls rs : list num) (k : nat) (lo ro : option (list num)) (k' : nat) :
  reachable RAND_MAX rand P s ->
  length ls = length rs -> Forall P ls -> Forall P rs ->
  buttercomp2_process_stereo RAND_MAX rand (Some s) (Some ls) (Some rs)
    (Z.of_nat (length ls)) k = Some (Some s', lo, ro, k') ->
  reachable RAND_MAX rand P s'.
Proof.
  intros Hs Hlen Hl Hr E.
  rewrite process_stereo_frames in E by exact Hlen.
  pose proof (process_frames_invariant (locals_of s)
                (fun t => same_params s t /\ reachable RAND_MAX rand P t) P)
    as Hinv.
  specialize (Hinv ltac:(
    intros t ch x j [Hp Ht] Px; split;
    [ eapply same_params_trans; [exact Hp | apply process_channel_params]
    | rewrite <- (same_params_locals _ _ Hp); now apply reach_sample ])).
  specialize (Hinv ls rs s k (conj (same_params_refl s) Hs) Hl Hr).
  destruct (process_frames RAND_MAX rand (locals_of s) s ls rs k)
    as [[[s3 lo3] ro3] k3].
  injection E as <- _ _ _. exact (proj2 Hinv).
Qed.

(** A property of the state that creation establishes and every operation
    keeps holds in every state an instance goes through. *)
Lemma reachable_invariant (P : num -> Prop) (I : State -> Prop)
  (Hcreate : forall rate s, buttercomp2_create true rate = Some s -> I s)
  (Hcompress : forall s v, I s ->
     I (with_compress s (std_max k0 (std_min k1 v))))
  (Houtput : forall s v, I s -> I (with_output s (std_max k0 (std_min k1 v))))
  (Hdry_wet : forall s v, I s ->
     I (with_dry_wet s (std_max k0 (std_min k1 v))))
  (Hreset : forall s, I s -> I (fold_left reset_channel [ch0; ch1] s))
  (Hstep : forall s ch x k, I s -> P x ->
     I (fst (fst (process_channel RAND_MAX rand (locals_of s) s ch x k)))) :
  forall s, reachable RAND_MAX rand P s -> I s.
Proof.
  intros s Hr. induction Hr as
    [rate s Hc | s s' v _ IH E | s s' v _ IH E | s s' v _ IH E
    | s s' _ IH E | s ch x k _ IH Px].
  - eapply Hcreate; eassumption.
  - cbn in E. injection E as <-. now apply Hcompress.
  - cbn in E. injection E as <-. now apply Houtput.
  - cbn in E. injection E as <-. now apply Hdry_wet.
  - cbn [buttercomp2_reset] in E. injection E as <-. now apply Hreset.
  - now apply Hstep.
Qed.

(** ** Creation *)

(** C2 (as amended).  [buttercomp2_create] returns no instance exactly when
    [calloc] returns no block, whatever the sample rate; with a block it
    returns the instance that stores the sample rate as given, with
    compress 0, output 0.5, dry_wet 1, every running value 0 and the dither
    phase 1. *)
Theorem create_fails_iff_calloc_fails (calloc_ok : bool) (rate : num) :
  (buttercomp2_create calloc_ok rate = None <-> calloc_ok = false) /\
  buttercomp2_create true rate
  = Some (mkState rate k0 k0_5 k1 (k0, k0) (k0, k0) (k0, k0) (k0, k0)
            (k0, k0) (k0, k0) (k0, k0) (k0, k0) (k0, k0) (k0, k0) 1%Z).
Proof.
  split; [|reflexivity].
  destruct calloc_ok; cbn; split; intros H; congruence.
Qed.

(** ** The second stage *)

Lemma second_stage_unfold (c : Locals) (s : State) (ch : chan) (y : num) :
  second_stage c s ch y
  = (with_avg_A s ch (spec_envelope (aget (avg_A s) ch) (fabs y)),
     spec_transient (compress_amount c)
       (spec_envelope (aget (avg_A s) ch) (fabs y)) (fabs y) y).
Proof.
  unfold second_stage, spec_envelope, spec_transient.
  destruct (ltb (aget (avg_A s) ch) (fabs y));
    cbn [avg_A with_avg_A]; rewrite aget_aset_same;
    destruct (ltb _ (fabs y)); reflexivity.
Qed.

(** The step of a sample from a state in which the test of the second
    stage fails. *)
Lemma process_channel_undivided (c : Locals) (s : State) (ch : chan)
  (x : num) (k : nat) :
  let s1 := fst (first_stage c s ch x) in
  let y := snd (first_stage c s ch x) in
  let s2 := fst (second_stage c s1 ch y) in
  (fabs y >? aget (avg_A s2) ch * k1_1) = false ->
  second_stage c s1 ch y = (s2, y) /\
  process_channel RAND_MAX rand c s ch x k
  = mix_stage RAND_MAX rand c s2 x (limit_stage c y) k.
Proof.
  cbv zeta. unfold process_channel.
  destruct (first_stage c s ch x) as [s1 y]. cbn [fst snd].
  rewrite second_stage_unfold. cbn [fst avg_A with_avg_A].
  rewrite aget_aset_same. intros Htest.
  unfold spec_transient. rewrite Htest. split; reflexivity.
Qed.

(** C3.  In the step of one sample, the second stage sets the envelope
    [avg_A[ch]] to the follower of the specification (the absolute value
    of the sample when it exceeds the envelope, the 0.999/0.001 filter
    otherwise), and divides the sample by [1 + compressAmount*0.1] exactly
    when its absolute value exceeds 1.1 times that envelope; the step is
    the first stage, this, the limiter and the mix. *)
Theorem second_stage_follows_spec (c : Locals) (s : State) (ch : chan)
  (x : num) (k : nat) :
  let envelope' y := spec_envelope (aget (avg_A s) ch) (fabs y) in
  (forall y,
     second_stage c s ch y
     = (with_avg_A s ch (envelope' y),
        spec_transient (compress_amount c) (envelope' y) (fabs y) y)) /\
  process_channel RAND_MAX rand c s ch x k
  = (let '(s1, y) := first_stage c s ch x in
     let envelope := spec_envelope (aget (avg_A s1) ch) (fabs y) in
     mix_stage RAND_MAX rand c (with_avg_A s1 ch envelope) x
       (limit_stage c
          (spec_transient (compress_amount c) envelope (fabs y) y)) k).
Proof.
  cbv zeta. split; [intros y; apply second_stage_unfold|].
  unfold process_channel.
  destruct (first_stage c s ch x) as [s1 y]. now rewrite second_stage_unfold.
Qed.

(** ** Reset *)

(** C8.  [buttercomp2_reset] sets the ten per-channel arrays (targets,
    controls, envelopes, and the unused ones) to 0 on both channels and keeps
    the sample rate, the three parameters and the dither phase; resetting
    twice is resetting once. *)
Theorem reset_zeroes_running_state (s : State) (state : option State) :
  buttercomp2_reset (Some s)
  = Some (mkState (sample_rate s) (compress s) (output s) (dry_wet s)
            (k0, k0) (k0, k0) (k0, k0) (k0, k0) (k0, k0)
            (k0, k0) (k0, k0) (k0, k0) (k0, k0) (k0, k0) (fpflip s)) /\
  buttercomp2_reset (buttercomp2_reset state) = buttercomp2_reset state.
Proof.
  split; [reflexivity|]. destruct state as [s0|]; reflexivity.
Qed.

(** ** Calls that do nothing *)

(** C9.  A call of [buttercomp2_process_stereo] with [num_samples] 0 (or
    negative), or with a null state, left buffer or right buffer, returns
    with the state, both buffers and the random sequence as they were. *)
Theorem process_noop (state : option State) (l r : option (list num))
  (n : Z) (k : nat) :
  buttercomp2_process_stereo RAND_MAX rand state l r 0 k
  = Some (state, l, r, k) /\
  buttercomp2_process_stereo RAND_MAX rand state l r (Z.min n 0) k
  = Some (state, l, r, k) /\
  buttercomp2_process_stereo RAND_MAX rand None l r n k
  = Some (None, l, r, k) /\
  buttercomp2_process_stereo RAND_MAX rand state None r n k
  = Some (state, None, r, k) /\
  buttercomp2_process_stereo RAND_MAX rand state l None n k
  = Some (state, l, None, k).
Proof.
  assert (Hmin : Z.to_nat (Z.min n 0) = 0%nat) by lia.
  unfold buttercomp2_process_stereo. rewrite Hmin.
  destruct state, l, r; repeat split.
Qed.

(** ** Calls on consecutive segments *)

(** C5.  From any state, with any parameters, a call on the first [n1]
    samples followed by a call on the next [n2] samples stores the same
    values, leaves the same state and consumes the same random numbers as
    one call on all [n1 + n2] samples. *)
Theorem process_split (s : State) (l1 r1 l2 r2 : list num) (k : nat)
  (H1 : length l1 = length r1) (H2 : length l2 = length r2) :
  exists s1 lo1 ro1 k1 s2 lo2 ro2 k2,
    buttercomp2_process_stereo RAND_MAX rand (Some s) (Some l1) (Some r1)
      (Z.of_nat (length l1)) k
    = Some (Some s1, Some lo1, Some ro1, k1) /\
    buttercomp2_process_stereo RAND_MAX rand (Some s1) (Some l2) (Some r2)
      (Z.of_nat (length l2)) k1
    = Some (Some s2, Some lo2, Some ro2, k2) /\
    buttercomp2_process_stereo RAND_MAX rand (Some s)
      (Some (l1 ++ l2)) (Some (r1 ++ r2))
      (Z.of_nat (length l1) + Z.of_nat (length l2)) k
    = Some (Some s2, Some (lo1 ++ lo2), Some (ro1 ++ ro2), k2).
Proof.
  pose proof (process_frames_params (locals_of s) l1 s r1 k) as Hp.
  pose proof (process_frames_app (locals_of s) l1 r1 l2 r2 s k H1) as Happ.
  destruct (process_frames RAND_MAX rand (locals_of s) s l1 r1 k)
    as [[[s1 lo1] ro1] k1] eqn:E1.
  cbn in Hp. apply same_params_locals in Hp.
  destruct (process_frames RAND_MAX rand (locals_of s) s1 l2 r2 k1)
    as [[[s2 lo2] ro2] k2] eqn:E2.
  exists s1, lo1, ro1, k1, s2, lo2, ro2, k2.
  split; [|split].
  - rewrite process_stereo_frames by exact H1. now rewrite E1.
  - rewrite process_stereo_frames by exact H2. now rewrite Hp, E2.
  - rewrite <- Nat2Z.inj_add, <- length_app.
    rewrite process_stereo_frames by (rewrite !length_app; lia).
    now rewrite Happ.
Qed.

End Structure.

(** * The engine in binary64 *)

Section Binary64.

Local Open Scope float_scope.

(** glibc's [RAND_MAX], and a [rand()] that returns 0 at every call. *)
Definition RAND_MAX_glibc : Z := 2147483647.
Definition rand_zero (k : nat) : Z := 0.

Lemma ltb_true_leb (x y : float) : (x <? y) = true -> (x <=? y) = true.
Proof.
  rewrite ltb_spec, leb_spec. unfold SFltb, SFleb.
  destruct (SFcompare _ _) as [[]|]; congruence.
Qed.

(** [std::max(0.0, std::min(1.0, v))] on every [double], NaN and the
    infinities included. *)
Lemma clamp_in_unit_interval (v : float) :
  (0 <=? std_max k0 (std_min k1 v)) = true /\
  (std_max k0 (std_min k1 v) <=? 1) = true.
Proof.
  unfold std_max, std_min. cbn [ltb k0 k1 Arith_double].
  destruct (v <? 1) eqn:E1.
  - destruct (0 <? v) eqn:E2.
    + split; apply ltb_true_leb; assumption.
    + split; reflexivity.
  - change (0 <? 1) with true. split; reflexivity.
Qed.

(** Where the values outside [[0, 1]] go. *)
Example clamp_special_values :
  std_max k0 (std_min k1 nan) = 1 /\
  std_max k0 (std_min k1 infinity) = 1 /\
  std_max k0 (std_min k1 neg_infinity) = 0 /\
  std_max k0 (std_min k1 2.5) = 1 /\
  std_max k0 (std_min k1 (-3)) = 0 /\
  std_max k0 (std_min k1 (-0)) = 0 /\
  std_max k0 (std_min k1 0.25) = 0.25.
Proof. repeat split. Qed.

(** The range alone.  Each of [buttercomp2_set_compress],
    [buttercomp2_set_output] and [buttercomp2_set_dry_wet], given an
    instance and any [double] (out of range, infinite or NaN), returns
    normally with the parameter stored in [[0, 1]]; given a null instance
    it returns normally too. *)
Theorem setters_store_unit_interval (s : ButterComp2State float) (v : float) :
  (exists s', buttercomp2_set_compress (Some s) v = Some s' /\
              (0 <=? compress s') = true /\ (compress s' <=? 1) = true) /\
  (exists s', buttercomp2_set_output (Some s) v = Some s' /\
              (0 <=? output s') = true /\ (output s' <=? 1) = true) /\
  (exists s', buttercomp2_set_dry_wet (Some s) v = Some s' /\
              (0 <=? dry_wet s') = true /\ (dry_wet s' <=? 1) = true) /\
  buttercomp2_set_compress None v = None /\
  buttercomp2_set_output None v = None /\
  buttercomp2_set_dry_wet None v = None.
Proof.
  pose proof (clamp_in_unit_interval v) as [H0 H1].
  repeat split; try (eexists; split; [reflexivity|]; cbn; split; assumption).
Qed.

End Binary64.

(** * Rounding in binary64

    What the specification of the primitive floats ([SpecFloat]) gives for
    the products and the sum of the second stage: a result rounded to
    nearest is below the exact value by at most the fraction [2^-53] of it
    and half the smallest positive number.  Values of non-negative numbers
    are integers, in units of [2^-1200]. *)

Module Rounding.

Local Open Scope Z_scope.

(** ** Powers of two and digits *)

Lemma pow2_succ (j : Z) : 1 <= j -> 2 ^ j = 2 * 2 ^ (j - 1).
Proof.
  intros Hj. replace j with (Z.succ (j - 1)) at 1 by lia.
  apply Z.pow_succ_r. lia.
Qed.

Lemma pow2_pos (j : Z) : 0 <= j -> 0 < 2 ^ j.
Proof. intros. apply Z.pow_pos_nonneg; lia. Qed.

Lemma digits2_pos_size (p : positive) : digits2_pos p = Pos.size p.
Proof. induction p; cbn; congruence. Qed.

Lemma digits2_bounds (p : positive) :
  2 ^ (Zpos (digits2_pos p) - 1) <= Zpos p < 2 ^ Zpos (digits2_pos p).
Proof.
  rewrite digits2_pos_size.
  pose proof (Pos.size_gt p) as Hgt. pose proof (Pos.size_le p) as Hle.
  apply Pos2Z.pos_lt_pos in Hgt. apply Pos2Z.pos_le_pos in Hle.
  rewrite Pos2Z.inj_pow in Hgt, Hle.
  pose proof (pow2_succ (Zpos (Pos.size p)) ltac:(lia)) as E.
  split; [lia | exact Hgt].
Qed.

Lemma Zdigits2_unique (m k : Z) :
  0 < k -> 2 ^ (k - 1) <= m < 2 ^ k -> Zdigits2 m = k.
Proof.
  intros Hk [Hlo Hhi].
  assert (0 < m) by (pose proof (Z.pow_pos_nonneg 2 (k - 1)); lia).
  destruct m as [|p|p]; try lia. cbn [Zdigits2].
  pose proof (digits2_bounds p) as [Dlo Dhi].
  set (d := Zpos (digits2_pos p)) in *.
  assert (0 < d) by (unfold d; lia).
  destruct (Z.lt_trichotomy d k) as [L|[E|G]]; [|exact E|].
  - assert (2 ^ d <= 2 ^ (k - 1)) by (apply Z.pow_le_mono_r; lia). lia.
  - assert (2 ^ k <= 2 ^ (d - 1)) by (apply Z.pow_le_mono_r; lia). lia.
Qed.

Lemma Zdigits2_le (m k : Z) : 0 <= k -> 0 <= m < 2 ^ k -> Zdigits2 m <= k.
Proof.
  intros Hk [Hlo Hhi]. destruct m as [|p|p]; [cbn; lia| |lia]. cbn [Zdigits2].
  pose proof (digits2_bounds p) as [Dlo Dhi].
  set (d := Zpos (digits2_pos p)) in *.
  destruct (Z.le_gt_cases d k) as [L|G]; [exact L|].
  assert (2 ^ k <= 2 ^ (d - 1)) by (apply Z.pow_le_mono_r; lia). lia.
Qed.

(** ** Shifts

    [iter_pos] as an iteration over [nat]. *)
Lemma iter_pos_nat {A : Type} (f : A -> A) (p : positive) (x : A) :
  iter_pos f p x = Nat.iter (Pos.to_nat p) f x.
Proof.
  revert x. induction p as [p IH|p IH|]; intros x; cbn [iter_pos].
  - rewrite !IH, Pos2Nat.inj_xI.
    replace (S (2 * Pos.to_nat p))%nat
      with (Pos.to_nat p + (Pos.to_nat p + 1))%nat by lia.
    now rewrite !Nat.iter_add.
  - rewrite !IH, Pos2Nat.inj_xO.
    replace (2 * Pos.to_nat p)%nat with (Pos.to_nat p + Pos.to_nat p)%nat by lia.
    now rewrite Nat.iter_add.
  - reflexivity.
Qed.

(** One shift. *)
Lemma shr_1_spec (m : Z) (r s : bool) :
  0 <= m ->
  shr_1 (Build_shr_record m r s)
  = Build_shr_record (m / 2) (Z.odd m) (r || s).
Proof.
  intros Hm. destruct m as [|p|p]; [reflexivity| |lia].
  destruct p as [p|p|]; cbn [shr_1].
  - f_equal. rewrite Pos2Z.inj_xI. symmetry.
    replace (2 * Zpos p + 1) with (1 + Zpos p * 2) by lia.
    rewrite Z.div_add by lia. reflexivity.
  - f_equal. rewrite Pos2Z.inj_xO. symmetry.
    replace (2 * Zpos p) with (Zpos p * 2) by lia. apply Z.div_mul. lia.
  - reflexivity.
Qed.

(** The shift record after [j >= 1] shifts of [P]. *)
Definition shifted (P : Z) (j : Z) (mrs : shr_record) : Prop :=
  0 <= shr_m mrs /\
  exists low,
    P = shr_m mrs * 2 ^ j + (if shr_r mrs then 2 ^ (j - 1) else 0) + low /\
    0 <= low < 2 ^ (j - 1) /\ (shr_s mrs = false <-> low = 0).

Lemma shifted_step (P j : Z) (mrs : shr_record) :
  1 <= j -> shifted P j mrs -> shifted P (j + 1) (shr_1 mrs).
Proof.
  intros Hj [Hm (low & HP & Hlow & Hs)].
  destruct mrs as [m r s]. cbn [shr_m shr_r shr_s] in *.
  rewrite shr_1_spec by exact Hm. unfold shifted. cbn [shr_m shr_r shr_s].
  assert (E1 : 2 ^ (j + 1) = 2 * 2 ^ j).
  { rewrite (pow2_succ (j + 1)) by lia. do 2 f_equal. lia. }
  pose proof (pow2_succ j Hj) as E2.
  replace (j + 1 - 1) with j by lia.
  pose proof (Z.div_mod m 2 ltac:(lia)) as Hdm.
  pose proof (Z.mod_pos_bound m 2 ltac:(lia)) as Hmb.
  assert (Hodd : (if Z.odd m then 1 else 0) = m mod 2).
  { rewrite Zmod_odd. reflexivity. }
  split; [apply Z.div_pos; lia|].
  exists ((if r then 2 ^ (j - 1) else 0) + low).
  pose proof (pow2_pos (j - 1) ltac:(lia)) as Hpp.
  split; [|split].
  - rewrite E1. rewrite HP. rewrite Hdm at 1.
    rewrite <- Hodd. destruct (Z.odd m); destruct r; ring.
  - destruct r; lia.
  - split.
    + intros Hrs. apply orb_false_iff in Hrs as [-> ->].
      rewrite (proj1 Hs eq_refl). lia.
    + intros Hz. assert (low = 0) by (destruct r; lia).
      assert (r = false) by (destruct r; [lia|reflexivity]).
      apply orb_false_iff. split; [assumption|]. now apply Hs.
Qed.

Lemma shifted_first (P : Z) :
  0 <= P -> shifted P 1 (shr_1 (Build_shr_record P false false)).
Proof.
  intros HP. rewrite shr_1_spec by exact HP. cbn [orb].
  unfold shifted. cbn [shr_m shr_r shr_s].
  pose proof (Z.div_mod P 2 ltac:(lia)) as Hdm.
  assert (Hodd : (if Z.odd P then 1 else 0) = P mod 2) by now rewrite Zmod_odd.
  change (2 ^ (1 - 1)) with 1. change (2 ^ 1) with 2.
  split; [apply Z.div_pos; lia|].
  exists 0. split; [|split].
  - destruct (Z.odd P); lia.
  - lia.
  - split; reflexivity.
Qed.

Lemma shifted_iter (P : Z) (n : nat) :
  0 <= P ->
  shifted P (Z.of_nat (S n))
    (Nat.iter (S n) shr_1 (Build_shr_record P false false)).
Proof.
  intros HP. induction n as [|n IH].
  - apply shifted_first, HP.
  - replace (Z.of_nat (S (S n))) with (Z.of_nat (S n) + 1) by lia.
    cbn [Nat.iter]. apply shifted_step; [lia|]. exact IH.
Qed.

(** The mantissa after the shifts: the quotient. *)
Lemma shifted_quotient (P j : Z) (mrs : shr_record) :
  1 <= j -> shifted P j mrs -> shr_m mrs = P / 2 ^ j.
Proof.
  intros Hj [Hm (low & HP & Hlow & Hs)].
  pose proof (pow2_succ j Hj) as E2.
  pose proof (pow2_pos (j - 1) ltac:(lia)) as Hpp.
  apply Z.div_unique with
    (r := (if shr_r mrs then 2 ^ (j - 1) else 0) + low).
  - left. destruct (shr_r mrs); lia.
  - lia.
Qed.

(** Round to nearest even after the shifts: at least the quotient, at most
    one more, and within half a unit below. *)
Lemma round_nearest_even_shifted (P j : Z) (mrs : shr_record) :
  1 <= j -> shifted P j mrs ->
  let m' := round_nearest_even (shr_m mrs) (loc_of_shr_record mrs) in
  P / 2 ^ j <= m' <= P / 2 ^ j + 1 /\
  2 * P - 2 ^ j <= 2 * (m' * 2 ^ j).
Proof.
  intros Hj Hsh. pose proof (shifted_quotient P j mrs Hj Hsh) as Hq.
  destruct Hsh as [Hm (low & HP & Hlow & Hs)].
  pose proof (pow2_succ j Hj) as E2.
  pose proof (pow2_pos (j - 1) ltac:(lia)) as Hpp.
  destruct mrs as [m r s]. cbn [shr_m shr_r shr_s] in *. cbv zeta.
  rewrite <- Hq.
  destruct r, s; cbn [loc_of_shr_record round_nearest_even].
  - split; nia.
  - pose proof (proj1 Hs eq_refl). destruct (Z.even m); split; nia.
  - split; nia.
  - pose proof (proj1 Hs eq_refl). split; nia.
Qed.

(** Shifting out zeros only leaves the mantissa, with no round or sticky
    bit. *)
Lemma shifted_exact (m j : Z) (mrs : shr_record) :
  1 <= j -> 0 <= m -> shifted (m * 2 ^ j) j mrs ->
  mrs = Build_shr_record m false false.
Proof.
  intros Hj Hm Hsh. pose proof (shifted_quotient _ j mrs Hj Hsh) as Hq.
  rewrite Z.div_mul in Hq by (pose proof (pow2_pos j ltac:(lia)); lia).
  destruct Hsh as [_ (low & HP & Hlow & Hs)].
  pose proof (pow2_pos (j - 1) ltac:(lia)) as Hpp.
  destruct mrs as [m0 r s]. cbn [shr_m shr_r shr_s] in *. subst m0.
  assert (r = false) by (destruct r; [lia|reflexivity]). subst r.
  assert (low = 0) by lia.
  f_equal. now apply Hs.
Qed.

(** ** The rounding of a positive value *)

Lemma fexp64_eq (x : Z) : fexp 53 1024 x = Z.max (x - 53) (-1074).
Proof. reflexivity. Qed.

(** What [binary_round_aux] returns, as a mantissa (0 for a zero) and an
    exponent. *)
Definition returns (r : spec_float) (m e : Z) : Prop :=
  (m = 0 /\ r = S754_zero false) \/
  (exists p, m = Zpos p /\ r = S754_finite false p e).

Lemma shr_fexp_exact_noshift (m e : Z) :
  fexp 53 1024 (Zdigits2 m + e) - e <= 0 ->
  shr_fexp 53 1024 m e loc_Exact = (Build_shr_record m false false, e).
Proof.
  intros H. unfold shr_fexp, shr. cbn [shr_record_of_loc].
  destruct (fexp 53 1024 (Zdigits2 m + e) - e); try reflexivity. lia.
Qed.

Lemma finish_round (m e : Z) :
  0 <= m ->
  let r := match m with
           | Z0 => S754_zero false
           | Zpos p => if e <=? 971 then S754_finite false p e
                       else S754_infinity false
           | Zneg _ => S754_nan
           end in
  r = S754_infinity false \/ returns r m e.
Proof.
  intros Hm. cbv zeta. destruct m as [|p|p]; [|destruct (e <=? 971)|lia].
  - right. left. split; reflexivity.
  - right. right. exists p. split; reflexivity.
  - left. reflexivity.
Qed.

(** Rounding a positive value [P * 2^ex] to binary64: an infinity, or a
    value [m * 2^e] that is below by at most half a unit [h] of its last
    place, where the unit is that of the subnormals or at most
    [2^-52] of the value. *)
Lemma shr_fexp_exact_shift (m e : Z) (p : positive) :
  fexp 53 1024 (Zdigits2 m + e) - e = Zpos p ->
  shr_fexp 53 1024 m e loc_Exact
  = (Nat.iter (Pos.to_nat p) shr_1 (Build_shr_record m false false),
     fexp 53 1024 (Zdigits2 m + e)).
Proof.
  intros H. unfold shr_fexp, shr. cbn [shr_record_of_loc]. rewrite H.
  rewrite iter_pos_nat. f_equal. lia.
Qed.

Lemma round_aux_lower (P : positive) (ex : Z) :
  let r := binary_round_aux 53 1024 false (Zpos P) ex loc_Exact in
  r = S754_infinity false \/
  exists m e h,
    returns r m e /\ ex <= e /\ -1074 <= e /\ 0 <= h /\
    2 * Zpos P - h <= 2 * (m * 2 ^ (e - ex)) /\
    (h = 0 \/ h * 2 ^ 52 <= Zpos P \/ (ex <= -1074 /\ h = 2 ^ (-1074 - ex))).
Proof.
  cbv zeta.
  remember (binary_round_aux 53 1024 false (Zpos P) ex loc_Exact) as r eqn:Hr.
  unfold binary_round_aux in Hr. change (1024 - 53) with 971 in Hr.
  pose proof (digits2_bounds P) as [Dlo Dhi].
  set (d := Zpos (digits2_pos P)) in *.
  assert (Hd : 1 <= d) by (unfold d; lia).
  assert (He1 : fexp 53 1024 (Zdigits2 (Zpos P) + ex) = Z.max (d + ex - 53) (-1074))
    by reflexivity.
  remember (fexp 53 1024 (Zdigits2 (Zpos P) + ex)) as e1 eqn:Ee1.
  destruct (Z.le_gt_cases (e1 - ex) 0) as [Hn|Hn].
  - (* no shift *)
    rewrite shr_fexp_exact_noshift in Hr by (rewrite <- Ee1; exact Hn).
    cbn [shr_m loc_of_shr_record round_nearest_even] in Hr.
    rewrite shr_fexp_exact_noshift in Hr by (rewrite <- Ee1; exact Hn).
    cbn [shr_m] in Hr.
    destruct (ex <=? 971); [right|left; exact Hr].
    exists (Zpos P), ex, 0. replace (ex - ex) with 0 by lia.
    split; [right; exists P; split; [reflexivity|exact Hr]|].
    split; [lia|]. split; [lia|]. split; [lia|]. split; [lia|].
    left. reflexivity.
  - (* a shift by j = e1 - ex *)
    destruct (e1 - ex) as [|pj|pj] eqn:Ej; try lia.
    rewrite (shr_fexp_exact_shift (Zpos P) ex pj) in Hr
      by (rewrite <- Ee1; exact Ej).
    rewrite <- Ee1 in Hr.
    destruct (Pos.to_nat pj) as [|nj] eqn:Enj; [lia|].
    pose proof (shifted_iter (Zpos P) nj ltac:(lia)) as Hsh.
    rewrite <- Enj, positive_nat_Z in Hsh. rewrite <- Enj in Hr.
    set (mrs := Nat.iter (Pos.to_nat pj) shr_1 _) in *.
    pose proof (round_nearest_even_shifted (Zpos P) (Zpos pj) mrs
                  ltac:(lia) Hsh) as Hrn.
    cbv zeta in Hrn.
    set (m' := round_nearest_even (shr_m mrs) (loc_of_shr_record mrs)) in *.
    destruct Hrn as [[Hq1 Hq2] Hlow].
    assert (He1min : -1074 <= e1) by lia.
    assert (Hjpos : 0 < 2 ^ Zpos pj) by (apply pow2_pos; lia).
    (* the quotient is below 2^53 *)
    assert (Hqhi : Zpos P / 2 ^ Zpos pj < 2 ^ 53).
    { apply Z.div_lt_upper_bound; [lia|].
      rewrite <- Z.pow_add_r by lia.
      assert (2 ^ d <= 2 ^ (Zpos pj + 53)) by (apply Z.pow_le_mono_r; lia).
      lia. }
    assert (Hq0 : 0 <= Zpos P / 2 ^ Zpos pj) by (apply Z.div_pos; lia).
    (* and at least 2^52 above the subnormals *)
    assert (Hqlo : -1074 < e1 -> 2 ^ 52 <= Zpos P / 2 ^ Zpos pj).
    { intros Hnorm. apply Z.div_le_lower_bound; [lia|].
      rewrite <- Z.pow_add_r by lia.
      replace (Zpos pj + 52) with (d - 1) by lia. exact Dlo. }
    assert (Hh : 2 ^ Zpos pj * 2 ^ 52 <= Zpos P \/
                 (ex <= -1074 /\ 2 ^ Zpos pj = 2 ^ (-1074 - ex))).
    { destruct (Z.eq_dec e1 (-1074)) as [E|E].
      - right. split; [lia|]. f_equal. lia.
      - left. rewrite <- Z.pow_add_r by lia.
        replace (Zpos pj + 52) with (d - 1) by lia. exact Dlo. }
    destruct (Z.eq_dec m' (2 ^ 53)) as [Ecarry|Ecarry].
    + (* the mantissa rounds up to 2^53: one more shift, exact *)
      assert (Hdig : Zdigits2 m' = 54).
      { apply Zdigits2_unique; [lia|]. rewrite Ecarry.
        change (2 ^ (54 - 1)) with (2 ^ 53). split; [lia|].
        apply Z.pow_lt_mono_r; lia. }
      assert (Hsh2 : shr_fexp 53 1024 m' e1 loc_Exact
                     = (Build_shr_record (2 ^ 52) false false, e1 + 1)).
      { rewrite (shr_fexp_exact_shift m' e1 1)
          by (rewrite Hdig, fexp64_eq; lia).
        rewrite Hdig, fexp64_eq. rewrite Ecarry.
        apply f_equal2; [reflexivity|lia]. }
      rewrite Hsh2 in Hr. cbn [shr_m] in Hr.
      change (2 ^ 52) with 4503599627370496 in Hr.
      destruct (e1 + 1 <=? 971); [right|left; exact Hr].
      exists 4503599627370496, (e1 + 1), (2 ^ Zpos pj).
      split; [right; eexists; split; [reflexivity|exact Hr]|].
      split; [lia|]. split; [lia|]. split; [lia|]. split.
      * replace (e1 + 1 - ex) with (Zpos pj + 1) by lia.
        rewrite Z.pow_add_r by lia. rewrite Ecarry in Hlow.
        change (2 ^ 53) with 9007199254740992 in Hlow.
        change (2 ^ 1) with 2. lia.
      * right. exact Hh.
    + (* no carry: the exponent is the canonical one *)
      assert (Hm'hi : m' < 2 ^ 53) by lia.
      assert (Hns : fexp 53 1024 (Zdigits2 m' + e1) - e1 <= 0).
      { rewrite fexp64_eq.
        destruct (Z.eq_dec e1 (-1074)) as [E|E].
        - assert (Zdigits2 m' <= 53) by (apply Zdigits2_le; lia). lia.
        - assert (Zdigits2 m' = 53).
          { apply Zdigits2_unique; [lia|].
            change (2 ^ (53 - 1)) with (2 ^ 52). specialize (Hqlo ltac:(lia)).
            lia. }
          lia. }
      rewrite shr_fexp_exact_noshift in Hr by exact Hns. cbn [shr_m] in Hr.
      destruct (finish_round m' e1 ltac:(lia)) as [Hinf|Hret];
        cbv zeta in *; rewrite <- Hr in *; [left; exact Hinf|right].
      exists m', e1, (2 ^ Zpos pj).
      split; [exact Hret|]. split; [lia|]. split; [lia|]. split; [lia|].
      split.
      * replace (e1 - ex) with (Zpos pj) by lia. lia.
      * right. exact Hh.
Qed.

(** ** Values *)

(** Values of non-negative binary64 numbers, in units of [2^-1200]. *)
Definition val (m e : Z) : Z := m * 2 ^ (e + 1200).

(** The smallest positive binary64 number, [2^-1074]. *)
Definition ulp_min : Z := 2 ^ 126.

Definition nonneg_val (x : spec_float) (v : Z) : Prop :=
  ((exists s, x = S754_zero s) /\ v = 0) \/
  (exists m e, x = S754_finite false m e /\ -1074 <= e /\ v = val (Zpos m) e).

Lemma val_multiple (m e : Z) : -1074 <= e -> val m e = (m * 2 ^ (e + 1074)) * ulp_min.
Proof.
  intros He. unfold val, ulp_min.
  replace (e + 1200) with (e + 1074 + 126) by lia.
  rewrite Z.pow_add_r by lia. ring.
Qed.

Lemma nonneg_val_multiple (x : spec_float) (v : Z) :
  nonneg_val x v -> exists n, 0 <= n /\ v = n * ulp_min.
Proof.
  intros [[_ ->]|(m & e & _ & He & ->)].
  - exists 0. split; [lia|reflexivity].
  - exists (Zpos m * 2 ^ (e + 1074)). split.
    + pose proof (pow2_pos (e + 1074) ltac:(lia)). lia.
    + now apply val_multiple.
Qed.

Lemma nonneg_val_pos (m : positive) (e : Z) :
  -1200 <= e -> 0 < val (Zpos m) e.
Proof.
  intros He. unfold val. pose proof (pow2_pos (e + 1200) ltac:(lia)). lia.
Qed.

(** Rounding [P * 2^ex]: the result is below by at most the fraction
    [2^-53] of the value and half the smallest positive number. *)
Lemma round_aux_uniform (P : positive) (ex : Z) :
  -1200 <= ex ->
  let r := binary_round_aux 53 1024 false (Zpos P) ex loc_Exact in
  r = S754_infinity false \/
  exists v, nonneg_val r v /\
    (2 ^ 53 - 1) * val (Zpos P) ex - 2 ^ 52 * ulp_min <= 2 ^ 53 * v.
Proof.
  intros Hex. cbv zeta.
  destruct (round_aux_lower P ex) as [Hinf|(m & e & h & Hret & Hle & Hemin
                                             & Hh0 & Hlow & Hh)];
    [left; exact Hinf|right].
  exists (val m e).
  assert (Hval : val m e = m * 2 ^ (e - ex) * 2 ^ (ex + 1200)).
  { unfold val. replace (e + 1200) with (e - ex + (ex + 1200)) by lia.
    rewrite Z.pow_add_r by lia. ring. }
  pose proof (pow2_pos (ex + 1200) ltac:(lia)) as Hs.
  split.
  - destruct Hret as [[-> ->]|(p & -> & ->)].
    + left. split; [eexists; reflexivity|]. unfold val. lia.
    + right. exists p, e. repeat split; try reflexivity. exact Hemin.
  - rewrite Hval. unfold val at 1. set (S := 2 ^ (ex + 1200)) in *.
    set (X := m * 2 ^ (e - ex)) in *.
    change (2 ^ 53) with 9007199254740992.
    change (2 ^ 52) with 4503599627370496 in *.
    destruct Hh as [->|[Hrel|[Hsub ->]]].
    + assert (Zpos P <= X) by lia.
      assert (Zpos P * S <= X * S) by (apply Z.mul_le_mono_nonneg_r; lia).
      pose proof (pow2_pos 126 ltac:(lia)). unfold ulp_min. nia.
    + assert (H1 : (2 * Zpos P - h) * S <= 2 * X * S)
        by (apply Z.mul_le_mono_nonneg_r; lia).
      assert (H2 : h * 4503599627370496 * S <= Zpos P * S)
        by (apply Z.mul_le_mono_nonneg_r; lia).
      pose proof (pow2_pos 126 ltac:(lia)). unfold ulp_min. nia.
    + assert (H1 : (2 * Zpos P - 2 ^ (-1074 - ex)) * S <= 2 * X * S)
        by (apply Z.mul_le_mono_nonneg_r; lia).
      assert (E : 2 ^ (-1074 - ex) * S = ulp_min).
      { unfold S, ulp_min. rewrite <- Z.pow_add_r by lia. f_equal. lia. }
      assert (0 < Zpos P * S) by lia.
      nia.
Qed.

(** ** Products, sums and comparisons *)

Lemma val_scale (m e s : Z) :
  0 <= s -> -1200 <= e - s -> val m (e - s) * 2 ^ s = val m e.
Proof.
  intros Hs He. unfold val. replace (e + 1200) with (e - s + 1200 + s) by lia.
  rewrite (Z.pow_add_r 2 (e - s + 1200) s) by lia. ring.
Qed.

(** A product with a positive constant [M * 2^-s]. *)
Lemma mul_const_uniform (x : spec_float) (vx : Z) (M : positive) (s : Z) :
  0 <= s <= 126 -> nonneg_val x vx ->
  let r := SFmul 53 1024 x (S754_finite false M (- s)) in
  r = S754_infinity false \/
  exists v, nonneg_val r v /\
    (2 ^ 53 - 1) * (Zpos M * vx) - 2 ^ 52 * 2 ^ s * ulp_min
    <= 2 ^ 53 * 2 ^ s * v.
Proof.
  intros Hs Hx. cbv zeta.
  pose proof (pow2_pos s ltac:(lia)) as Hps.
  assert (HU : 0 < ulp_min) by (unfold ulp_min; apply pow2_pos; lia).
  destruct Hx as [[[s0 ->] ->]|(m & e & -> & He & ->)].
  - right. exists 0. split.
    + left. split; [eexists; reflexivity|reflexivity].
    + change (2 ^ 53) with 9007199254740992.
      change (2 ^ 52) with 4503599627370496. nia.
  - cbn [SFmul xorb].
    destruct (round_aux_uniform (m * M)%positive (e + - s) ltac:(lia))
      as [Hinf|(v & Hv & Hle)]; [left; exact Hinf|right].
    exists v. split; [exact Hv|].
    replace (e + - s) with (e - s) in Hle by lia.
    pose proof (val_scale (Zpos (m * M)) e s ltac:(lia) ltac:(lia)) as Hsc.
    assert (Hprod : val (Zpos (m * M)) e = Zpos M * val (Zpos m) e).
    { unfold val. rewrite Pos2Z.inj_mul. ring. }
    rewrite Hprod in Hsc.
    change (2 ^ 53) with 9007199254740992 in *.
    change (2 ^ 52) with 4503599627370496 in *.
    set (V := val (Zpos (m * M)) (e - s)) in *.
    assert (H1 : (9007199254740991 * V - 4503599627370496 * ulp_min) * 2 ^ s
                 <= 9007199254740992 * v * 2 ^ s)
      by (apply Z.mul_le_mono_nonneg_r; lia).
    change (9007199254740992 - 1) with 9007199254740991.
    rewrite <- Hsc. nia.
Qed.

Lemma Pos_iter_xO (m d : positive) :
  Zpos (Pos.iter xO m d) = Zpos m * 2 ^ Zpos d.
Proof.
  induction d as [|d IH] using Pos.peano_ind.
  - cbn [Pos.iter]. change (2 ^ 1) with 2. lia.
  - rewrite Pos.iter_succ, Pos2Z.inj_xO, IH, Pos2Z.inj_succ.
    rewrite Z.pow_succ_r by lia. ring.
Qed.

Lemma shl_align_spec (m : positive) (e e' : Z) :
  let '(m', e'') := shl_align m e e' in
  (e'' = e \/ e'' = e') /\ e'' <= e /\ (e' <= e -> e'' = e') /\
  Zpos m' = Zpos m * 2 ^ (e - e'').
Proof.
  unfold shl_align. destruct (e' - e) as [|d|d] eqn:E.
  - replace (e - e) with 0 by lia. change (2 ^ 0) with 1. repeat split; lia.
  - replace (e - e) with 0 by lia. change (2 ^ 0) with 1. repeat split; lia.
  - rewrite Pos_iter_xO. replace (e - e') with (Zpos d) by lia.
    repeat split; lia.
Qed.

(** A sum of two non-negative numbers. *)
Lemma add_uniform (x y : spec_float) (vx vy : Z) :
  nonneg_val x vx -> nonneg_val y vy ->
  let r := SFadd 53 1024 x y in
  r = S754_infinity false \/
  exists v, nonneg_val r v /\
    (2 ^ 53 - 1) * (vx + vy) - 2 ^ 52 * ulp_min <= 2 ^ 53 * v.
Proof.
  intros Hx Hy. cbv zeta.
  assert (HU : 0 < ulp_min) by (unfold ulp_min; apply pow2_pos; lia).
  change (2 ^ 53) with 9007199254740992.
  change (2 ^ 52) with 4503599627370496.
  destruct Hx as [[[sx ->] ->]|(mx & ex & -> & Hex & ->)];
    destruct Hy as [[[sy ->] ->]|(my & ey & -> & Hey & ->)].
  - right. exists 0. split; [|lia].
    left. split; [|reflexivity]. cbn. destruct sx, sy; eexists; reflexivity.
  - right. exists (val (Zpos my) ey). cbn [SFadd]. split.
    + right. exists my, ey. repeat split. exact Hey.
    + pose proof (nonneg_val_pos my ey ltac:(lia)). lia.
  - right. exists (val (Zpos mx) ex). cbn [SFadd]. split.
    + right. exists mx, ex. repeat split. exact Hex.
    + pose proof (nonneg_val_pos mx ex ltac:(lia)). lia.
  - cbn [SFadd cond_Zopp].
    set (ez := Z.min ex ey).
    pose proof (shl_align_spec mx ex ez) as Hax.
    pose proof (shl_align_spec my ey ez) as Hay.
    destruct (shl_align mx ex ez) as [mx' ex'].
    destruct (shl_align my ey ez) as [my' ey'].
    destruct Hax as (_ & _ & Hex' & Hmx'). destruct Hay as (_ & _ & Hey' & Hmy').
    specialize (Hex' ltac:(unfold ez; lia)).
    specialize (Hey' ltac:(unfold ez; lia)). subst ex' ey'.
    cbn [fst]. cbn [Z.add binary_normalize].
    unfold binary_round.
    set (ms := (mx' + my')%positive).
    pose proof (shl_align_spec ms ez
                  (fexp 53 1024 (Zpos (digits2_pos ms) + ez))) as Haz.
    destruct (shl_align ms ez _) as [mz ez'].
    destruct Haz as (Hez' & Hle & _ & Hmz).
    assert (Hez'min : -1074 <= ez').
    { destruct Hez' as [->| ->]; [unfold ez; lia|]. rewrite fexp64_eq. lia. }
    destruct (round_aux_uniform mz ez' ltac:(lia))
      as [Hinf|(v & Hv & Hlow)]; [left; exact Hinf|right].
    exists v. split; [exact Hv|].
    assert (Hsum : val (Zpos mz) ez' = val (Zpos mx) ex + val (Zpos my) ey).
    { unfold val. rewrite Hmz. unfold ms. rewrite Pos2Z.inj_add, Hmx', Hmy'.
      assert (Hx0 : 0 <= ex - ez) by (unfold ez; lia).
      assert (Hy0 : 0 <= ey - ez) by (unfold ez; lia).
      replace (ex + 1200) with (ex - ez + (ez - ez' + (ez' + 1200))) by lia.
      replace (ey + 1200) with (ey - ez + (ez - ez' + (ez' + 1200))) by lia.
      rewrite (Z.pow_add_r 2 (ex - ez)) by lia.
      rewrite (Z.pow_add_r 2 (ey - ez)) by lia.
      rewrite (Z.pow_add_r 2 (ez - ez')) by lia. ring. }
    rewrite <- Hsum. exact Hlow.
Qed.

(** Valid finite numbers: the mantissa has at most 53 bits, and exactly 53
    above the subnormals. *)
Lemma valid_finite (s : bool) (m : positive) (e : Z) :
  valid_binary (S754_finite s m e) = true ->
  -1074 <= e /\ Zpos m < 2 ^ 53 /\ (-1074 < e -> 2 ^ 52 <= Zpos m).
Proof.
  intros H. change (bounded 53 1024 m e = true) in H.
  unfold bounded, canonical_mantissa in H.
  apply andb_true_iff in H as [H _]. apply Z.eqb_eq in H.
  rewrite fexp64_eq in H.
  pose proof (digits2_bounds m) as [Dlo Dhi].
  set (d := Zpos (digits2_pos m)) in *.
  assert (Hd : 1 <= d) by (unfold d; lia).
  split; [lia|]. split.
  - assert (2 ^ d <= 2 ^ 53) by (apply Z.pow_le_mono_r; lia). lia.
  - intros He. assert (d = 53) by lia. subst d.
    replace (2 ^ 52) with (2 ^ (Zpos (digits2_pos m) - 1)); [exact Dlo|].
    f_equal. lia.
Qed.

Lemma val_lt_exp (s1 s2 : bool) (m1 m2 : positive) (e1 e2 : Z) :
  valid_binary (S754_finite s1 m1 e1) = true ->
  valid_binary (S754_finite s2 m2 e2) = true ->
  e1 < e2 -> val (Zpos m1) e1 < val (Zpos m2) e2.
Proof.
  intros V1 V2 Hlt.
  apply valid_finite in V1 as (He1 & Hm1 & _).
  apply valid_finite in V2 as (He2 & _ & Hm2). specialize (Hm2 ltac:(lia)).
  unfold val.
  replace (e2 + 1200) with (e2 - e1 - 1 + 1 + (e1 + 1200)) by lia.
  rewrite (Z.pow_add_r 2 (e2 - e1 - 1 + 1)) by lia.
  rewrite (Z.pow_add_r 2 (e2 - e1 - 1)) by lia. change (2 ^ 1) with 2.
  pose proof (pow2_pos (e1 + 1200) ltac:(lia)) as HX.
  pose proof (pow2_pos (e2 - e1 - 1) ltac:(lia)) as HY.
  set (X := 2 ^ (e1 + 1200)) in *. set (Y := 2 ^ (e2 - e1 - 1)) in *.
  change (2 ^ 53) with 9007199254740992 in *.
  change (2 ^ 52) with 4503599627370496 in *.
  assert (H1 : Zpos m1 * X < 9007199254740992 * X)
    by (apply Z.mul_lt_mono_pos_r; lia).
  assert (H2 : 4503599627370496 * 1 <= Zpos m2 * Y)
    by (apply Z.mul_le_mono_nonneg; lia).
  assert (H3 : 4503599627370496 * (2 * X) <= Zpos m2 * Y * (2 * X))
    by (apply Z.mul_le_mono_nonneg_r; lia).
  replace (Zpos m2 * (Y * 2 * X)) with (Zpos m2 * Y * (2 * X)) by ring.
  lia.
Qed.

(** The comparison of two valid positive finite numbers is that of their
    values. *)
Lemma SFltb_val (m1 m2 : positive) (e1 e2 : Z) :
  valid_binary (S754_finite false m1 e1) = true ->
  valid_binary (S754_finite false m2 e2) = true ->
  SFltb (S754_finite false m1 e1) (S754_finite false m2 e2) = true
  <-> val (Zpos m1) e1 < val (Zpos m2) e2.
Proof.
  intros V1 V2. unfold SFltb. cbn [SFcompare].
  destruct (Z.compare_spec e1 e2) as [E|L|G].
  - subst e2. change (Pos.compare_cont Eq m1 m2) with (Pos.compare m1 m2).
    apply valid_finite in V1 as (He1 & _).
    pose proof (pow2_pos (e1 + 1200) ltac:(lia)) as Hp. unfold val.
    destruct (Pos.compare_spec m1 m2) as [E|L|G].
    + subst. split; [discriminate|lia].
    + split; [intros _; nia|reflexivity].
    + split; [discriminate|nia].
  - split; [intros _|reflexivity]. exact (val_lt_exp _ _ _ _ _ _ V1 V2 L).
  - pose proof (val_lt_exp _ _ _ _ _ _ V2 V1 G). split; [discriminate|lia].
Qed.

(** ** The constants 0.999, 0.001 and 1.1 *)

Definition C999 : spec_float := S754_finite false 8998192055486251 (-53).
Definition C001 : spec_float := S754_finite false 4611686018427388 (-62).
Definition C11 : spec_float := S754_finite false 4953959590107546 (-52).

Lemma caseA_num (ka nt : Z) :
  1 <= ka -> 0 <= nt ->
  (2 ^ 53 - 1) * (4953959590107546 * (ka * ulp_min))
  - 2 ^ 52 * 2 ^ 52 * ulp_min <= 2 ^ 53 * 2 ^ 52 * (nt * ulp_min) ->
  ka <= nt.
Proof.
  unfold ulp_min.
  change (2 ^ 53) with 9007199254740992.
  change (2 ^ 52) with 4503599627370496.
  change (2 ^ 126) with 85070591730234615865843651857942052864.
  lia.
Qed.

Lemma caseB_num (ka ke n1 n2 n' nt : Z) :
  1 <= ka <= ke -> 0 <= n1 -> 0 <= n2 -> 0 <= n' -> 0 <= nt ->
  (2 ^ 53 - 1) * (8998192055486251 * (ke * ulp_min))
  - 2 ^ 52 * 2 ^ 53 * ulp_min <= 2 ^ 53 * 2 ^ 53 * (n1 * ulp_min) ->
  (2 ^ 53 - 1) * (n1 * ulp_min + n2 * ulp_min) - 2 ^ 52 * ulp_min
  <= 2 ^ 53 * (n' * ulp_min) ->
  (2 ^ 53 - 1) * (4953959590107546 * (n' * ulp_min))
  - 2 ^ 52 * 2 ^ 52 * ulp_min <= 2 ^ 53 * 2 ^ 52 * (nt * ulp_min) ->
  ka <= nt.
Proof.
  unfold ulp_min.
  change (2 ^ 53) with 9007199254740992.
  change (2 ^ 52) with 4503599627370496.
  change (2 ^ 126) with 85070591730234615865843651857942052864.
  intros Hk H1 H2 H' Ht B1 B2 B3.
  destruct (Z.le_gt_cases ka 20) as [Hs|Hl].
  - assert (ka <= n1) by lia. assert (ka <= n') by lia. lia.
  - lia.
Qed.

(** Non-negative numbers, the infinity included. *)
Definition nn_or_inf (x : spec_float) : Prop :=
  x = S754_infinity false \/ exists v, nonneg_val x v.

Lemma SFltb_inf_l (x : spec_float) : SFltb (S754_infinity false) x = false.
Proof. destruct x as [s|s| |s m e]; try destruct s; reflexivity. Qed.

Lemma SFltb_nn_zero (x : spec_float) (s : bool) :
  nn_or_inf x -> SFltb x (S754_zero s) = false.
Proof.
  intros [->|(v & [[[s0 ->] _]|(m & e & -> & _)])]; reflexivity.
Qed.

Lemma mul_const_nn (x : spec_float) (M : positive) (s : Z) :
  0 <= s <= 126 -> nn_or_inf x ->
  nn_or_inf (SFmul 53 1024 x (S754_finite false M (- s))).
Proof.
  intros Hs [->|(v & Hv)].
  - left. reflexivity.
  - destruct (mul_const_uniform x v M s Hs Hv) as [H|(v' & H & _)];
      [left; exact H | right; exists v'; exact H].
Qed.

Lemma add_inf_l (y : spec_float) :
  nn_or_inf y -> SFadd 53 1024 (S754_infinity false) y = S754_infinity false.
Proof.
  intros [->|(v & [[[s0 ->] _]|(m & e & -> & _)])]; reflexivity.
Qed.

Lemma add_inf_r (x : spec_float) :
  nn_or_inf x -> SFadd 53 1024 x (S754_infinity false) = S754_infinity false.
Proof.
  intros [->|(v & [[[s0 ->] _]|(m & e & -> & _)])]; reflexivity.
Qed.

Lemma add_nn (x y : spec_float) :
  nn_or_inf x -> nn_or_inf y -> nn_or_inf (SFadd 53 1024 x y).
Proof.
  intros Hx Hy. destruct Hx as [->|(vx & Hvx)].
  - left. now apply add_inf_l.
  - destruct Hy as [->|(vy & Hvy)].
    + left. apply add_inf_r. right. exists vx. exact Hvx.
    + destruct (add_uniform x y vx vy Hvx Hvy) as [H|(v' & H & _)];
        [left; exact H | right; exists v'; exact H].
Qed.

Lemma mul_C999 (x : spec_float) (vx : Z) :
  nonneg_val x vx ->
  SFmul 53 1024 x C999 = S754_infinity false \/
  exists v, nonneg_val (SFmul 53 1024 x C999) v /\
    (2 ^ 53 - 1) * (8998192055486251 * vx) - 2 ^ 52 * 2 ^ 53 * ulp_min
    <= 2 ^ 53 * 2 ^ 53 * v.
Proof. exact (mul_const_uniform x vx 8998192055486251 53 ltac:(lia)). Qed.

Lemma mul_C11 (x : spec_float) (vx : Z) :
  nonneg_val x vx ->
  SFmul 53 1024 x C11 = S754_infinity false \/
  exists v, nonneg_val (SFmul 53 1024 x C11) v /\
    (2 ^ 53 - 1) * (4953959590107546 * vx) - 2 ^ 52 * 2 ^ 52 * ulp_min
    <= 2 ^ 53 * 2 ^ 52 * v.
Proof. exact (mul_const_uniform x vx 4953959590107546 52 ltac:(lia)). Qed.

Lemma mul_C999_nn (x : spec_float) :
  nn_or_inf x -> nn_or_inf (SFmul 53 1024 x C999).
Proof. exact (mul_const_nn x 8998192055486251 53 ltac:(lia)). Qed.

Lemma mul_C001_nn (x : spec_float) :
  nn_or_inf x -> nn_or_inf (SFmul 53 1024 x C001).
Proof. exact (mul_const_nn x 4611686018427388 62 ltac:(lia)). Qed.

Lemma mul_C11_nn (x : spec_float) :
  nn_or_inf x -> nn_or_inf (SFmul 53 1024 x C11).
Proof. exact (mul_const_nn x 4953959590107546 52 ltac:(lia)). Qed.

Lemma nonneg_val_not_inf (v : Z) : ~ nonneg_val (S754_infinity false) v.
Proof. intros [[[s0 Hs0] _]|(m0 & e0 & Hs0 & _)]; discriminate. Qed.

Lemma nonneg_val_unique (x : spec_float) (v w : Z) :
  nonneg_val x v -> nonneg_val x w -> v = w.
Proof.
  intros [[[s0 Hs0] ->]|(m0 & e0 & Hs0 & _ & ->)]
         [[[s1 Hs1] ->]|(m1 & e1 & Hs1 & _ & ->)]; subst x;
    try discriminate; try reflexivity.
  injection Hs1 as <- <-. reflexivity.
Qed.

(** A number that is at least a positive finite one is not below it. *)
Lemma final_ge (T : spec_float) (ma : positive) (ea vt : Z) :
  valid_binary T = true ->
  valid_binary (S754_finite false ma ea) = true ->
  nonneg_val T vt -> val (Zpos ma) ea <= vt ->
  SFltb T (S754_finite false ma ea) = false.
Proof.
  intros VT VA HT Hle.
  pose proof (valid_finite _ _ _ VA) as (Hea & _).
  pose proof (nonneg_val_pos ma ea ltac:(lia)) as Hpos.
  destruct HT as [[[s0 ->] ->]|(mt & et & -> & Het & ->)]; [lia|].
  destruct (SFltb (S754_finite false mt et) (S754_finite false ma ea)) eqn:E;
    [|reflexivity].
  apply (SFltb_val mt ma et ea VT VA) in E. lia.
Qed.

(** The two forms a non-negative avg_A and an absolute value can take. *)
Lemma leb_zero_nn (E : spec_float) :
  valid_binary E = true -> SFleb (S754_zero false) E = true -> nn_or_inf E.
Proof.
  intros VE H. destruct E as [s|s| |s m e]; try destruct s; try discriminate.
  - right. exists 0. left. split; [eexists; reflexivity|reflexivity].
  - right. exists 0. left. split; [eexists; reflexivity|reflexivity].
  - left. reflexivity.
  - right. exists (val (Zpos m) e). right. exists m, e.
    pose proof (valid_finite _ _ _ VE) as (He & _).
    repeat split. exact He.
Qed.

Lemma abs_nn (Y : spec_float) :
  valid_binary (SFabs Y) = true -> SFabs Y = S754_nan \/ nn_or_inf (SFabs Y).
Proof.
  intros VA. destruct Y as [s|s| |s m e]; cbn [SFabs] in *.
  - right. right. exists 0. left. split; [eexists; reflexivity|reflexivity].
  - right. left. reflexivity.
  - left. reflexivity.
  - right. right. exists (val (Zpos m) e). right. exists m, e.
    pose proof (valid_finite _ _ _ VA) as (He & _).
    repeat split. exact He.
Qed.

(** The snap: a sample multiplied by 1.1 is not below the sample. *)
Lemma snap_not_below (A : spec_float) :
  A = S754_nan \/ nn_or_inf A ->
  valid_binary A = true -> valid_binary (SFmul 53 1024 A C11) = true ->
  SFltb (SFmul 53 1024 A C11) A = false.
Proof.
  intros HA VA VT. destruct HA as [->|[->|(va & Hva)]]; try reflexivity.
  pose proof Hva as Hva'.
  destruct Hva' as [[[s0 ->] _]|(ma & ea & -> & Hea & ->)].
  - apply SFltb_nn_zero. apply mul_C11_nn. right. exists va. exact Hva.
  - destruct (mul_C11 _ _ Hva) as [Hinf|(vt & Hvt & B)].
    + rewrite Hinf. reflexivity.
    + apply (final_ge _ ma ea vt VT VA Hvt).
      destruct (nonneg_val_multiple _ _ Hva) as (ka & Hka & Eka).
      destruct (nonneg_val_multiple _ _ Hvt) as (nt & Hnt & Ent).
      pose proof (nonneg_val_pos ma ea ltac:(lia)) as Hpos.
      assert (HU : 0 < ulp_min) by (unfold ulp_min; apply pow2_pos; lia).
      assert (1 <= ka) by nia.
      rewrite Eka, Ent in B. pose proof (caseA_num ka nt ltac:(lia) Hnt B).
      rewrite Eka, Ent. nia.
Qed.

(** The decay: with the sample not above the envelope, the decayed
    envelope multiplied by 1.1 is not below the sample. *)
Lemma decay_not_below (A E : spec_float) :
  A = S754_nan \/ nn_or_inf A -> nn_or_inf E ->
  valid_binary A = true -> valid_binary E = true ->
  SFltb E A = false ->
  let E' := SFadd 53 1024 (SFmul 53 1024 E C999) (SFmul 53 1024 A C001) in
  valid_binary (SFmul 53 1024 E' C11) = true ->
  SFltb (SFmul 53 1024 E' C11) A = false.
Proof.
  intros HA HE VA VE Hb E' VT.
  destruct HA as [->|HA].
  - (* the sample is NaN *)
    unfold E'. cbn [SFmul]. destruct (SFmul 53 1024 E C999); reflexivity.
  - assert (HU1 : nn_or_inf (SFmul 53 1024 E C999)) by now apply mul_C999_nn.
    assert (HU2 : nn_or_inf (SFmul 53 1024 A C001)) by now apply mul_C001_nn.
    assert (HE' : nn_or_inf E') by (apply add_nn; assumption).
    assert (HT : nn_or_inf (SFmul 53 1024 E' C11)) by now apply mul_C11_nn.
    destruct HA as [->|(va & Hva)].
    + (* the sample is infinite: so is the envelope *)
      destruct HE as [->|(ve & [[[s0 ->] _]|(me & ee & -> & _)])];
        try discriminate. reflexivity.
    + pose proof Hva as Hva'.
      destruct Hva' as [[[s0 ->] _]|(ma & ea & -> & Hea & ->)].
      * (* the sample is zero *)
        apply SFltb_nn_zero. exact HT.
      * (* the sample is positive and finite *)
        destruct HT as [HT|(vt & Hvt)]; [rewrite HT; reflexivity|].
        apply (final_ge _ ma ea vt VT VA Hvt).
        (* the envelope is finite, and at least the sample *)
        destruct HE as [->|(ve & Hve)].
        { exfalso. unfold E' in Hvt.
          change (SFmul 53 1024 (S754_infinity false) C999)
            with (S754_infinity false) in Hvt.
          rewrite add_inf_l in Hvt by exact HU2.
          exact (nonneg_val_not_inf _ Hvt). }
        assert (Hle : val (Zpos ma) ea <= ve).
        { destruct Hve as [[[s0 ->] _]|(me & ee & -> & Hee & ->)];
            [discriminate|].
          destruct (Z.le_gt_cases (val (Zpos ma) ea) (val (Zpos me) ee))
            as [L|G]; [exact L|].
          apply (SFltb_val me ma ee ea VE VA) in G. congruence. }
        (* the three roundings, none of which gives an infinity *)
        destruct (mul_C999 E ve Hve) as [Hinf|(v1 & Hv1 & B1)].
        { exfalso. unfold E' in Hvt. rewrite Hinf in Hvt.
          rewrite add_inf_l in Hvt by exact HU2.
          exact (nonneg_val_not_inf _ Hvt). }
        destruct HU2 as [HU2|(v2 & Hv2)].
        { exfalso. unfold E' in Hvt. rewrite HU2 in Hvt.
          rewrite add_inf_r in Hvt by exact HU1.
          exact (nonneg_val_not_inf _ Hvt). }
        destruct (add_uniform _ _ v1 v2 Hv1 Hv2) as [Hinf|(v' & Hv' & B2)].
        { exfalso. unfold E' in Hvt. rewrite Hinf in Hvt.
          exact (nonneg_val_not_inf _ Hvt). }
        destruct (mul_C11 _ v' Hv') as [Hinf|(vt' & Hvt' & B3)].
        { exfalso. unfold E' in Hvt. rewrite Hinf in Hvt.
          exact (nonneg_val_not_inf _ Hvt). }
        assert (Evt : vt' = vt) by exact (nonneg_val_unique _ _ _ Hvt' Hvt).
        subst vt'.
        destruct (nonneg_val_multiple _ _ Hva) as (ka & Hka & Eka).
        destruct (nonneg_val_multiple _ _ Hve) as (ke & Hke & Eke).
        destruct (nonneg_val_multiple _ _ Hv1) as (n1 & Hn1 & En1).
        destruct (nonneg_val_multiple _ _ Hv2) as (n2 & Hn2 & En2).
        destruct (nonneg_val_multiple _ _ Hv') as (n' & Hn' & En').
        destruct (nonneg_val_multiple _ _ Hvt) as (nt & Hnt & Ent).
        pose proof (nonneg_val_pos ma ea ltac:(lia)) as Hpos.
        assert (HU : 0 < ulp_min) by (unfold ulp_min; apply pow2_pos; lia).
        assert (1 <= ka) by nia.
        assert (ka <= ke) by nia.
        rewrite Eke, En1 in B1. rewrite En1, En2, En' in B2.
        rewrite En', Ent in B3.
        pose proof (caseB_num ka ke n1 n2 n' nt ltac:(lia) Hn1 Hn2 Hn' Hnt
                      B1 B2 B3).
        rewrite Eka, Ent. nia.
Qed.

(** Any number is non-negative, NaN, or below every non-negative one. *)
Lemma sign_cases (E : spec_float) :
  valid_binary E = true ->
  nn_or_inf E \/ E = S754_nan \/
  (forall A, nn_or_inf A -> SFltb E A = true).
Proof.
  intros VE. destruct E as [s|s| |s m e].
  - left. right. exists 0. left. split; [eexists; reflexivity|reflexivity].
  - destruct s; [|left; left; reflexivity].
    right. right.
    intros A [->|(v & [[[s0 ->] _]|(m & e & -> & _)])]; reflexivity.
  - right. left. reflexivity.
  - destruct s.
    + right. right.
      intros A [->|(v & [[[s0 ->] _]|(m0 & e0 & -> & _)])]; reflexivity.
    + left. right. exists (val (Zpos m) e). right. exists m, e.
      pose proof (valid_finite _ _ _ VE) as (He & _).
      repeat split. exact He.
Qed.

(** The decay, whatever the envelope. *)
Lemma decay_not_below_any (A E : spec_float) :
  A = S754_nan \/ nn_or_inf A ->
  valid_binary A = true -> valid_binary E = true ->
  SFltb E A = false ->
  let E' := SFadd 53 1024 (SFmul 53 1024 E C999) (SFmul 53 1024 A C001) in
  valid_binary (SFmul 53 1024 E' C11) = true ->
  SFltb (SFmul 53 1024 E' C11) A = false.
Proof.
  intros HA VA VE Hb E' VT.
  destruct (sign_cases E VE) as [HE|[->|Hneg]].
  - exact (decay_not_below A E HA HE VA VE Hb VT).
  - reflexivity.
  - destruct HA as [->|HA].
    + unfold E'. cbn [SFmul]. destruct (SFmul 53 1024 E C999); reflexivity.
    + rewrite (Hneg A HA) in Hb. discriminate.
Qed.

(** ** Multiplication by one *)

(** The product of a valid mantissa with [2^52], at the exponent lowered by
    52, rounds to the number itself. *)
Lemma round_aux_exact (sx : bool) (m : positive) (e : Z) :
  bounded 53 1024 m e = true ->
  binary_round_aux 53 1024 sx (Zpos (m * 4503599627370496)) (e + -52) loc_Exact
  = S754_finite sx m e.
Proof.
  intros Hb. pose proof Hb as Hb'.
  unfold bounded, canonical_mantissa in Hb'.
  apply andb_true_iff in Hb' as [Hc He]. apply Z.eqb_eq in Hc.
  apply Z.leb_le in He. change (1024 - 53) with 971 in He.
  pose proof (digits2_bounds m) as [Dlo Dhi].
  set (d := Zpos (digits2_pos m)) in *.
  assert (Hd : 1 <= d) by (unfold d; lia).
  rewrite fexp64_eq in Hc.
  set (P := Zpos (m * 4503599627370496)).
  assert (HP : P = Zpos m * 2 ^ 52) by (unfold P; rewrite Pos2Z.inj_mul; reflexivity).
  assert (HdP : Zdigits2 P = d + 52).
  { apply Zdigits2_unique; [lia|]. rewrite HP.
    replace (d + 52 - 1) with (d - 1 + 52) by lia.
    rewrite !Z.pow_add_r by lia.
    change (2 ^ 52) with 4503599627370496. lia. }
  unfold binary_round_aux. change (1024 - 53) with 971.
  assert (Hsh1 : fexp 53 1024 (Zdigits2 P + (e + -52)) - (e + -52) = 52).
  { rewrite HdP, fexp64_eq. lia. }
  rewrite (shr_fexp_exact_shift P (e + -52) 52 Hsh1).
  replace (fexp 53 1024 (Zdigits2 P + (e + -52))) with e
    by (rewrite HdP, fexp64_eq; lia).
  pose proof (shifted_iter P 51 ltac:(unfold P; lia)) as Hsh.
  change (Z.of_nat 52) with 52 in Hsh. rewrite HP in Hsh.
  apply shifted_exact in Hsh; [|lia|lia].
  change (Pos.to_nat 52) with 52%nat. rewrite HP, Hsh.
  cbn [shr_m loc_of_shr_record round_nearest_even].
  rewrite shr_fexp_exact_noshift
    by (cbn [Zdigits2]; fold d; rewrite fexp64_eq; lia).
  cbn [shr_m]. apply Z.leb_le in He. now rewrite He.
Qed.

Definition Cone : spec_float := S754_finite false 4503599627370496 (-52).

(** [x * 1.0] is [x], for every number. *)
Lemma SFmul_one (X : spec_float) :
  valid_binary X = true -> SFmul 53 1024 X Cone = X.
Proof.
  intros VX. destruct X as [s|s| |s m e]; try (destruct s; reflexivity).
  - reflexivity.
  - cbn [SFmul Cone]. rewrite xorb_false_r. apply round_aux_exact. exact VX.
Qed.

(** ** The test of the second stage *)

Local Open Scope float_scope.

(** Whatever the envelope [avg] and the sample [y]: after the update of
    the envelope, the envelope multiplied by 1.1 is not below [|y|]. *)
Theorem envelope_test_false (y avg : float) :
  let a := abs y in
  let e' := if avg <? a then a else avg * 0.999 + a * 0.001 in
  (e' * 1.1 <? a) = false.
Proof.
  cbv zeta.
  pose proof (Prim2SF_valid (abs y)) as VA. rewrite abs_spec in VA.
  pose proof (Prim2SF_valid avg) as VE.
  pose proof (abs_nn _ VA) as HA.
  destruct (avg <? abs y) eqn:Eb; rewrite ltb_spec, abs_spec in Eb.
  - pose proof (Prim2SF_valid (abs y * 1.1)) as VT.
    rewrite mul_spec, abs_spec in VT.
    rewrite ltb_spec, mul_spec, abs_spec.
    change (Prim2SF 1.1) with C11 in *.
    exact (snap_not_below _ HA VA VT).
  - pose proof (Prim2SF_valid ((avg * 0.999 + abs y * 0.001) * 1.1)) as VT.
    rewrite mul_spec, add_spec, !mul_spec, abs_spec in VT.
    rewrite ltb_spec, mul_spec, add_spec, !mul_spec, abs_spec.
    change (Prim2SF 1.1) with C11 in *.
    change (Prim2SF 0.999) with C999 in *.
    change (Prim2SF 0.001) with C001 in *.
    exact (decay_not_below_any _ _ HA VA VE Eb VT).
Qed.

(** ** The mix of a dry signal *)

Lemma mul_one (x : float) : x * 1 = x.
Proof.
  apply Prim2SF_inj. rewrite mul_spec. change (Prim2SF 1) with Cone.
  apply SFmul_one. apply Prim2SF_valid.
Qed.

End Rounding.

(** * The second stage in binary64 *)

Section Binary64Envelope.

Variable RAND_MAX : Z.
Variable rand : nat -> Z.

Local Open Scope float_scope.

(** In binary64 the test of the second stage fails in every state, for
    every sample. *)
Lemma second_stage_test_false (c : @Locals float) (s : ButterComp2State float)
  (ch : chan) (y : float) :
  (fabs y >? aget (avg_A (fst (second_stage c s ch y))) ch * k1_1)%num
  = false.
Proof.
  rewrite second_stage_unfold. cbn [fst avg_A with_avg_A].
  rewrite aget_aset_same.
  exact (Rounding.envelope_test_false y (aget (avg_A s) ch)).
Qed.

(** C4, in binary64.  In the step of one sample, if [avg_A[ch]] is
    non-negative on entry then, after the envelope update, the test
    [abs_sample > avg_A[ch] * 1.1] is false: the second stage returns the
    sample undivided, and the step is the first stage, the envelope
    update, the limiter and the mix.  ([second_stage_test_false]: the
    test is false whatever [avg_A[ch]] is, NaN included.) *)
Theorem second_stage_never_divides (c : @Locals float)
  (s : ButterComp2State float) (ch : chan) (x : float) (k : nat) :
  (0 <=? aget (avg_A s) ch) = true ->
  let s1 := fst (first_stage c s ch x) in
  let y := snd (first_stage c s ch x) in
  let s2 := fst (second_stage c s1 ch y) in
  (fabs y >? aget (avg_A s2) ch * k1_1)%num = false /\
  second_stage c s1 ch y = (s2, y) /\
  process_channel RAND_MAX rand c s ch x k
  = mix_stage RAND_MAX rand c s2 x (limit_stage c y) k.
Proof.
  intros _. cbv zeta.
  pose proof (second_stage_test_false c (fst (first_stage c s ch x)) ch
                (snd (first_stage c s ch x))) as Htest.
  split; [exact Htest|].
  exact (process_channel_undivided RAND_MAX rand c s ch x k Htest).
Qed.

End Binary64Envelope.

(** * The dry signal in binary64 *)

(** The numbers that are zeros or finite. *)
Definition SFfinite (X : spec_float) : Prop :=
  (exists s, X = S754_zero s) \/ (exists s m e, X = S754_finite s m e).

(** Two equal numbers, the two zeros taken as one. *)
Definition same_number (a b : float) : Prop :=
  a = b \/ ((exists s, Prim2SF a = S754_zero s) /\
            (exists s, Prim2SF b = S754_zero s)).

Section Binary64DryBypass.

Variable RAND_MAX : Z.
Variable rand : nat -> Z.

Local Open Scope float_scope.

(** NaN, seen through the specification. *)
Lemma is_nan_spec (x : float) : is_nan x = false -> Prim2SF x <> S754_nan.
Proof.
  unfold is_nan. rewrite eqb_spec. intros H E. rewrite E in H. discriminate.
Qed.

(** A limited sample is NaN or finite. *)
Lemma limit_stage_finite (c : @Locals float) (z : float) :
  is_nan (limit_stage c z) = false -> SFfinite (Prim2SF (limit_stage c z)).
Proof.
  unfold limit_stage. cbn [ltb mul neg k1 Arith_double].
  set (z1 := z * output_gain c).
  destruct (1 <? z1) eqn:E1.
  - intros _. change ((1 <? - (1))) with false. cbv iota.
    right. exists false, 4503599627370496%positive, (-52)%Z. reflexivity.
  - destruct (z1 <? - (1)) eqn:E2.
    + intros _. right. exists true, 4503599627370496%positive, (-52)%Z.
      reflexivity.
    + intros Hn. apply is_nan_spec in Hn.
      rewrite ltb_spec in E1, E2.
      change (Prim2SF (- (1)))
        with (S754_finite true 4503599627370496 (-52)) in E2.
      change (Prim2SF 1)
        with (S754_finite false 4503599627370496 (-52)) in E1.
      destruct (Prim2SF z1) as [s|s| |s m e].
      * left. exists s. reflexivity.
      * destruct s; discriminate.
      * now elim Hn.
      * right. exists s, m, e. reflexivity.
Qed.

(** The mix of a dry sample at weight 1 with a finite wet sample at weight
    0. *)
Lemma mix_dry_only (x w : float) :
  SFfinite (Prim2SF w) -> same_number (x * 1 + w * 0) x.
Proof.
  intros Hw. rewrite Rounding.mul_one.
  assert (Hz : exists s, Prim2SF (w * 0) = S754_zero s).
  { rewrite mul_spec. change (Prim2SF 0) with (S754_zero false).
    destruct Hw as [[s ->]|(s & m & e & ->)]; eexists; reflexivity. }
  destruct Hz as [sz Hz].
  destruct (Prim2SF x) as [s|s| |s m e] eqn:Ex.
  - right. split; [|exists s; exact Ex].
    rewrite add_spec, Ex, Hz. destruct s, sz; eexists; reflexivity.
  - left. apply Prim2SF_inj. rewrite add_spec, Ex, Hz. reflexivity.
  - left. apply Prim2SF_inj. rewrite add_spec, Ex, Hz. reflexivity.
  - left. apply Prim2SF_inj. rewrite add_spec, Ex, Hz. reflexivity.
Qed.

Lemma first_stage_fpflip (c : @Locals float) (s : ButterComp2State float)
  (ch : chan) (x : float) : fpflip (fst (first_stage c s ch x)) = fpflip s.
Proof. unfold first_stage. now destruct (ltb _ _). Qed.

Lemma second_stage_fpflip (c : @Locals float) (s : ButterComp2State float)
  (ch : chan) (x : float) : fpflip (fst (second_stage c s ch x)) = fpflip s.
Proof.
  unfold second_stage.
  destruct (ltb (aget (avg_A s) ch) _); now destruct (ltb _ _).
Qed.

(** C6 (as amended), in binary64.  With dry_wet 0, in the step of one
    sample [x] from any state [s], under any compress and output setting:
    if the limited wet sample is not NaN, the value stored is [(float)x]
    on a step without dither and [(float)(x + d)] on a step with dither,
    [d] being the dither [(double(rand()) / RAND_MAX - 0.5) * 1.0e-10] of
    the step; [x] is taken up to the sign of a zero.  A call takes this
    step for every sample of the two buffers ([process_frames]). *)
Theorem dry_bypass_up_to_dither (s0 s : ButterComp2State float) (ch : chan)
  (x : float) (k : nat) :
  dry_wet s0 = 0 ->
  let c := locals_of s0 in
  let s1 := fst (first_stage c s ch x) in
  let y := snd (first_stage c s ch x) in
  let w := limit_stage c (snd (second_stage c s1 ch y)) in
  is_nan w = false ->
  exists x', same_number x' x /\
    snd (fst (process_channel RAND_MAX rand c s ch x k))
    = if (lnot (fpflip s) =? 0)%Z then to_float x'
      else to_float
             (x' + (of_int (rand k) / of_int RAND_MAX - k0_5) * k1em10)%num.
Proof.
  intros Hdw. cbv zeta. intros Hnan.
  exists (x * 1 + limit_stage (locals_of s0)
                    (snd (second_stage (locals_of s0)
                            (fst (first_stage (locals_of s0) s ch x)) ch
                            (snd (first_stage (locals_of s0) s ch x)))) * 0).
  split.
  - apply mix_dry_only. now apply limit_stage_finite.
  - unfold process_channel.
    pose proof (first_stage_fpflip (locals_of s0) s ch x) as F1.
    destruct (first_stage (locals_of s0) s ch x) as [s1 y].
    cbn [fst snd] in *.
    pose proof (second_stage_fpflip (locals_of s0) s1 ch y) as F2.
    destruct (second_stage (locals_of s0) s1 ch y) as [s2 z].
    cbn [fst snd] in *.
    unfold mix_stage. cbn [fpflip with_fpflip].
    rewrite F2, F1.
    assert (Ed : dry (locals_of s0) = 1)
      by (unfold locals_of; cbn [dry]; rewrite Hdw; reflexivity).
    assert (Ew : wet (locals_of s0) = 0)
      by (unfold locals_of; cbn [wet]; exact Hdw).
    rewrite Ed, Ew. cbn [add mul Arith_double].
    destruct (lnot (fpflip s) =? 0)%Z; reflexivity.
Qed.

End Binary64DryBypass.

(** * The engine in exact arithmetic *)

(** Unfolds the members of a state that was built by assignments. *)
Ltac simpl_state :=
  cbn [sample_rate compress output dry_wet control_A_pos control_A_neg
       control_B_pos control_B_neg target_pos target_neg avg_A avg_B dyn_A
       dyn_B fpflip with_compress with_output with_dry_wet with_control_A_pos
       with_control_A_neg with_target_pos with_target_neg with_avg_A
       with_fpflip fst snd].

Local Open Scope Q_scope.

(** The largest dither: [0.5 * 1.0e-10]. *)
Definition dither_eps : Q := 1 # 20000000000.

(** A stored sample [y] against its input [x] at the mix [t = dry_wet]. *)
Definition mix_bound (t x y : Q) : Prop :=
  Qabs y <= (1 - t) * Qabs x + t + dither_eps.

(** [[-1, 1]], and [[-1, 1]] widened by the dither. *)
Definition within_unit (x : Q) : Prop := Qabs x <= 1.
Definition within_unit_eps (y : Q) : Prop := Qabs y <= 1 + dither_eps.

(** The derived values for a compress in [[0, 1]] and a sample rate of at
    least 0.001 Hz: the drive is at most 14 and the release speed at most
    1. *)
Definition locals_ok (c : @Locals Q) : Prop :=
  0 <= compress_amount c <= 14 /\ 0 <= release_speed c <= 1.

(** The running values of channel [ch] when no input exceeds [B] in
    absolute value: the conditioned sample is at most [2.4 * B], the
    controls at most [1.4 * 2.4 * B]. *)
Definition chan_bounded (B : Q) (s : ButterComp2State Q) (ch : chan) : Prop :=
  0 <= aget (target_pos s) ch <= (12 # 5) * B /\
  - ((12 # 5) * B) <= aget (target_neg s) ch <= 0 /\
  0 <= aget (control_A_pos s) ch <= (84 # 25) * B /\
  - ((84 # 25) * B) <= aget (control_A_neg s) ch <= 0 /\
  0 <= aget (avg_A s) ch <= (12 # 5) * B /\
  aget (control_B_pos s) ch == 0 /\ aget (control_B_neg s) ch == 0 /\
  aget (avg_B s) ch == 0 /\ aget (dyn_A s) ch == 0 /\
  aget (dyn_B s) ch == 0.

Definition state_bounded (B : Q) (s : ButterComp2State Q) : Prop :=
  forall ch, chan_bounded B s ch.

(** ** Comparisons and bounds on rationals *)

Lemma Qltb_true (a b : Q) : Qltb a b = true <-> a < b.
Proof.
  unfold Qltb. rewrite negb_true_iff, <- not_true_iff_false, Qle_bool_iff.
  split; [apply Qnot_le_lt | apply Qlt_not_le].
Qed.

Lemma Qltb_false (a b : Q) : Qltb a b = false <-> b <= a.
Proof. unfold Qltb. now rewrite negb_false_iff, Qle_bool_iff. Qed.

Ltac case_ltb :=
  match goal with
  | |- context [Qltb ?a ?b] =>
    let E := fresh "E" in
    destruct (Qltb a b) eqn:E;
    [apply Qltb_true in E | apply Qltb_false in E]
  end.

Lemma Qabs_bound (x b : Q) : Qabs x <= b <-> - b <= x <= b.
Proof. apply Qabs_Qle_condition. Qed.

Lemma Qabs_cases (x : Q) : (0 <= x /\ Qabs x == x) \/ (x <= 0 /\ Qabs x == - x).
Proof.
  destruct (Qlt_le_dec x 0) as [H|H].
  - right. split; [lra|]. apply Qabs_neg. lra.
  - left. split; [lra|]. now apply Qabs_pos.
Qed.

Lemma convex_step (lo hi c a r : Q) :
  0 <= r <= 1 -> lo <= c <= hi -> lo <= a <= hi ->
  lo <= c + (a - c) * r <= hi.
Proof. intros. split; nra. Qed.

Lemma div_ge_one (x d : Q) : 1 <= d -> Qabs (x / d) <= Qabs x.
Proof.
  intros Hd. unfold Qdiv. rewrite Qabs_Qmult.
  assert (0 <= Qabs x) by apply Qabs_nonneg.
  assert (Hi : 0 < / d <= 1).
  { split. apply Qinv_lt_0_compat; lra.
    apply Qle_shift_inv_r; lra. }
  rewrite (Qabs_pos (/ d)) by lra. nra.
Qed.

Lemma dither_range (RM r : Z) :
  (0 < RM)%Z -> (0 <= r <= RM)%Z ->
  - (1 # 20000000000) <= (inject_Z r / inject_Z RM - (1#2)) * (1 # 10000000000) <= 1 # 20000000000.
Proof.
  intros HRM [H0 H1].
  assert (0 < inject_Z RM) by (change 0 with (inject_Z 0); now rewrite <- Zlt_Qlt).
  assert (0 <= inject_Z r) by (change 0 with (inject_Z 0); now rewrite <- Zle_Qle).
  assert (inject_Z r <= inject_Z RM) by now rewrite <- Zle_Qle.
  assert (0 <= inject_Z r / inject_Z RM) by (apply Qle_shift_div_l; lra).
  assert (inject_Z r / inject_Z RM <= 1) by (apply Qle_shift_div_r; lra).
  lra.
Qed.

Lemma conditioned_bound (B ca x : Q) :
  0 <= ca <= 14 -> Qabs x <= B -> Qabs (x * (1 + ca * (1 # 10))) <= (12 # 5) * B.
Proof.
  intros Hca Hx. apply Qabs_bound in Hx. apply Qabs_bound. split; nra.
Qed.

Lemma control_bound (B ca t : Q) :
  0 <= ca <= 14 -> 0 <= t <= (12 # 5) * B ->
  0 <= t * ca * (1 # 10) <= (84 # 25) * B.
Proof. intros. split; nra. Qed.

Lemma control_bound_neg (B ca t : Q) :
  0 <= ca <= 14 -> - ((12 # 5) * B) <= t <= 0 ->
  - ((84 # 25) * B) <= t * ca * (1 # 10) <= 0.
Proof. intros. split; nra. Qed.

Lemma Forall2_Forall_r (R : Q -> Q -> Prop) (P G : Q -> Prop) :
  (forall x y, P x -> R x y -> G y) ->
  forall xs ys, Forall2 R xs ys -> Forall P xs -> Forall G ys.
Proof.
  intros H xs ys HR. induction HR as [|x y xs ys Hxy _ IH]; intros HP.
  - constructor.
  - inversion HP; subst. constructor; eauto.
Qed.

Lemma Forall_True (xs : list Q) : Forall (fun _ => True) xs.
Proof. induction xs; constructor; auto. Qed.

Section Exact.

Variable RAND_MAX : Z.
Variable rand : nat -> Z.

Local Abbreviation State := (ButterComp2State Q).

(** ** The limiter, the mix and the dither *)

Lemma limit_stage_range (c : Locals) (y : Q) : - (1) <= limit_stage c y <= 1.
Proof.
  unfold limit_stage. cbn [ltb mul k1 neg Arith_Q].
  repeat case_ltb; lra.
Qed.

Lemma mix_stage_output (c : Locals) (s : State) (x w : Q) (k : nat) :
  (0 < RAND_MAX)%Z -> (forall j, 0 <= rand j <= RAND_MAX)%Z ->
  - dither_eps
  <= snd (fst (mix_stage RAND_MAX rand c s x w k)) - (x * dry c + w * wet c)
  <= dither_eps.
Proof.
  intros HRM Hrand. unfold mix_stage, dither_eps.
  cbn [fpflip with_fpflip]. destruct (Z.eqb _ _); cbn.
  - lra.
  - pose proof (dither_range RAND_MAX (rand k) HRM (Hrand k)). lra.
Qed.

Lemma channel_output_near_mix (s0 s : State) (ch : chan) (x : Q) (k : nat) :
  (0 < RAND_MAX)%Z -> (forall j, 0 <= rand j <= RAND_MAX)%Z ->
  exists w, - (1) <= w <= 1 /\
    - dither_eps
    <= snd (fst (process_channel RAND_MAX rand (locals_of s0) s ch x k))
       - (x * (1 - dry_wet s0) + w * dry_wet s0)
    <= dither_eps.
Proof.
  intros HRM Hrand. unfold process_channel.
  destruct (first_stage (locals_of s0) s ch x) as [s1 y].
  destruct (second_stage (locals_of s0) s1 ch y) as [s2 z].
  exists (limit_stage (locals_of s0) z). split; [apply limit_stage_range|].
  exact (mix_stage_output (locals_of s0) s2 x _ k HRM Hrand).
Qed.

Lemma channel_output_bound (s0 s : State) (ch : chan) (x : Q) (k : nat) :
  (0 < RAND_MAX)%Z -> (forall j, 0 <= rand j <= RAND_MAX)%Z ->
  0 <= dry_wet s0 <= 1 ->
  Qabs (snd (fst (process_channel RAND_MAX rand (locals_of s0) s ch x k)))
  <= (1 - dry_wet s0) * Qabs x + dry_wet s0 + dither_eps.
Proof.
  intros HRM Hrand Ht.
  destruct (channel_output_near_mix s0 s ch x k HRM Hrand) as (w & Hw & Hout).
  set (out := snd _) in *. set (t := dry_wet s0) in *.
  destruct (Qabs_cases x) as [[Hx Hax]|[Hx Hax]];
    apply Qabs_bound; rewrite Hax; split; nra.
Qed.

Lemma channel_output_dry (s0 s : State) (ch : chan) (x : Q) (k : nat) :
  (0 < RAND_MAX)%Z -> (forall j, 0 <= rand j <= RAND_MAX)%Z ->
  dry_wet s0 == 0 ->
  Qabs (snd (fst (process_channel RAND_MAX rand (locals_of s0) s ch x k)) - x)
  <= dither_eps.
Proof.
  intros HRM Hrand Ht.
  destruct (channel_output_near_mix s0 s ch x k HRM Hrand) as (w & Hw & Hout).
  set (out := snd _) in *.
  assert (E : x * (1 - dry_wet s0) + w * dry_wet s0 == x) by (rewrite Ht; ring).
  rewrite E in Hout. apply Qabs_bound. lra.
Qed.

(** ** The envelope of the second stage *)

Lemma second_stage_no_division (c : Locals) (s : State) (ch : chan) (y : Q) :
  0 <= aget (avg_A s) ch ->
  let s' := fst (second_stage c s ch y) in
  ltb (aget (avg_A s') ch * k1_1)%num (fabs y) = false /\
  second_stage c s ch y = (s', y) /\
  0 <= aget (avg_A s') ch.
Proof.
  intros He. cbv zeta. unfold second_stage.
  cbn [ltb mul add fabs k0_999 k0_001 k1_1 Arith_Q].
  pose proof (Qabs_nonneg y) as Ha.
  destruct (Qltb (aget (avg_A s) ch) (Qabs y)) eqn:E1;
    [apply Qltb_true in E1 | apply Qltb_false in E1];
    cbn [avg_A with_avg_A fst]; rewrite aget_aset_same.
  - assert (E2 : Qltb (Qabs y * (11 # 10)) (Qabs y) = false)
      by (apply Qltb_false; lra).
    rewrite E2. cbn [fst avg_A with_avg_A]. rewrite aget_aset_same.
    repeat split; assumption.
  - assert (E2 : Qltb ((aget (avg_A s) ch * (999 # 1000)
                        + Qabs y * (1 # 1000)) * (11 # 10)) (Qabs y) = false)
      by (apply Qltb_false; lra).
    rewrite E2. cbn [fst avg_A with_avg_A]. rewrite aget_aset_same.
    repeat split; try assumption. lra.
Qed.

Lemma first_stage_avg_A (c : Locals) (s : State) (ch : chan) (x : Q) :
  avg_A (fst (first_stage c s ch x)) = avg_A s.
Proof. unfold first_stage. now destruct (ltb _ _). Qed.

Lemma second_stage_frame (c : Locals) (s : State) (ch : chan) (y : Q) :
  forall ch',
    let s' := fst (second_stage c s ch y) in
    target_pos s' = target_pos s /\ target_neg s' = target_neg s /\
    control_A_pos s' = control_A_pos s /\ control_A_neg s' = control_A_neg s /\
    control_B_pos s' = control_B_pos s /\ control_B_neg s' = control_B_neg s /\
    avg_B s' = avg_B s /\ dyn_A s' = dyn_A s /\ dyn_B s' = dyn_B s /\
    (ch' <> ch -> aget (avg_A s') ch' = aget (avg_A s) ch').
Proof.
  intros ch'. cbv zeta. unfold second_stage.
  destruct (ltb (aget (avg_A s) ch) _); destruct (ltb _ _); simpl_state;
    repeat split; intros Hne; apply aget_aset_other; congruence.
Qed.

(** ** The running state stays bounded *)

Lemma first_stage_bounded (B : Q) (c : Locals) (s : State) (ch : chan) (x : Q) :
  locals_ok c -> state_bounded B s -> Qabs x <= B ->
  state_bounded B (fst (first_stage c s ch x)) /\
  Qabs (snd (first_stage c s ch x)) <= (12 # 5) * B /\
  (exists d, 1 <= d /\ snd (first_stage c s ch x) = x * (1 + compress_amount c * (1 # 10)) / d).
Proof.
  intros [Hca Hr] Hs Hx. unfold first_stage.
  cbn [ltb mul add sub div neg fabs k0 k1 k0_1 k0_999 k0_001 Arith_Q].
  set (cond := x * (1 + compress_amount c * (1 # 10))).
  pose proof (conditioned_bound B (compress_amount c) x Hca Hx) as Hc.
  fold cond in Hc.
  pose proof (Qabs_nonneg cond) as Hc0.
  destruct (Hs ch) as (Htp & Htn & Hcp & Hcn & Hav & Hz).
  cbn [target_pos target_neg with_target_pos with_target_neg].
  rewrite !aget_aset_same.
  set (tp' := aget (target_pos s) ch * (999 # 1000) + Qabs cond * (1 # 1000)).
  set (tn' := aget (target_neg s) ch * (999 # 1000) + - Qabs cond * (1 # 1000)).
  assert (Htp' : 0 <= tp' <= (12 # 5) * B) by (unfold tp'; lra).
  assert (Htn' : - ((12 # 5) * B) <= tn' <= 0) by (unfold tn'; lra).
  pose proof (control_bound B _ _ Hca Htp') as HA.
  pose proof (control_bound_neg B _ _ Hca Htn') as HB.
  destruct (Qltb 0 cond) eqn:E; simpl_state; rewrite !aget_aset_same.
  - pose proof (convex_step 0 ((84 # 25) * B) _ _ _ Hr Hcp HA) as Hcp'.
    split; [|split].
    + intros ch'. destruct (Hs ch') as (Htp1 & Htn1 & Hcp1 & Hcn1 & Hav1 & Hz1).
      unfold chan_bounded. simpl_state.
      destruct ch, ch'; cbn [aget aset fst snd] in *; repeat split;
        try tauto; try lra.
    + eapply Qle_trans; [apply div_ge_one; lra | exact Hc].
    + eexists; split; [|reflexivity]. lra.
  - pose proof (convex_step (- ((84 # 25) * B)) 0 _ _ _ Hr Hcn HB) as Hcn'.
    pose proof (Qabs_nonneg (aget (control_A_neg s) ch
       + (tn' * compress_amount c * (1 # 10) - aget (control_A_neg s) ch)
         * release_speed c)) as Hd.
    split; [|split].
    + intros ch'. destruct (Hs ch') as (Htp1 & Htn1 & Hcp1 & Hcn1 & Hav1 & Hz1).
      unfold chan_bounded. simpl_state.
      destruct ch, ch'; cbn [aget aset fst snd] in *; repeat split;
        try tauto; try lra.
    + eapply Qle_trans; [apply div_ge_one; lra | exact Hc].
    + eexists; split; [|reflexivity]. lra.
Qed.

Lemma second_stage_bounded (B : Q) (c : Locals) (s : State) (ch : chan) (y : Q) :
  state_bounded B s -> Qabs y <= (12 # 5) * B ->
  state_bounded B (fst (second_stage c s ch y)).
Proof.
  intros Hs Hy.
  pose proof (second_stage_no_division c s ch y) as H.
  destruct (Hs ch) as (_ & _ & _ & _ & Hav & _).
  specialize (H (proj1 Hav)). cbv zeta in H. destruct H as (_ & _ & Hnn).
  assert (Hup : aget (avg_A (fst (second_stage c s ch y))) ch <= (12 # 5) * B).
  { unfold second_stage.
    cbn [ltb mul add fabs k0_999 k0_001 k1_1 Arith_Q].
    pose proof (Qabs_nonneg y).
    destruct (Qltb (aget (avg_A s) ch) (Qabs y)) eqn:E1;
      [apply Qltb_true in E1 | apply Qltb_false in E1];
      destruct (Qltb _ (Qabs y)); simpl_state; rewrite aget_aset_same; lra. }
  pose proof (second_stage_frame c s ch y) as Hsame.
  intros ch'. specialize (Hsame ch'). cbv zeta in Hsame.
  destruct Hsame as (E1 & E2 & E3 & E4 & E5 & E6 & E7 & E8 & E9 & E10).
  unfold chan_bounded. rewrite E1, E2, E3, E4, E5, E6, E7, E8, E9.
  destruct (Hs ch') as (Htp & Htn & Hcp & Hcn & Hav' & Hz).
  repeat split; try tauto.
  - destruct ch, ch'; try exact Hnn; rewrite E10 by discriminate; tauto.
  - destruct ch, ch'; try exact Hup; rewrite E10 by discriminate; tauto.
Qed.

Lemma mix_stage_bounded (B : Q) (c : Locals) (s : State) (d x : Q) (k : nat) :
  state_bounded B s ->
  state_bounded B (fst (fst (mix_stage RAND_MAX rand c s d x k))).
Proof.
  intros Hs. unfold mix_stage. simpl_state.
  destruct (Z.eqb _ _); exact Hs.
Qed.

Lemma process_channel_bounded (B : Q) (c : Locals) (s : State) (ch : chan)
  (x : Q) (k : nat) :
  locals_ok c -> state_bounded B s -> Qabs x <= B ->
  state_bounded B (fst (fst (process_channel RAND_MAX rand c s ch x k))).
Proof.
  intros Hc Hs Hx. unfold process_channel.
  destruct (first_stage_bounded B c s ch x Hc Hs Hx) as (H1 & Hy & _).
  destruct (first_stage c s ch x) as [s1 y]. cbn [fst snd] in *.
  pose proof (second_stage_bounded B c s1 ch y H1 Hy) as H2.
  destruct (second_stage c s1 ch y) as [s2 z]. cbn [fst] in H2.
  now apply mix_stage_bounded.
Qed.

Lemma locals_of_ok (s : State) :
  0 <= compress s <= 1 -> (1 # 1000) <= sample_rate s ->
  locals_ok (locals_of s).
Proof.
  intros Hc Hr. unfold locals_ok, locals_of.
  cbn [compress_amount release_speed mul div k14 k1 k0_001 Arith_Q].
  assert (0 <= 1 / sample_rate s) by (apply Qle_shift_div_l; lra).
  assert (1 / sample_rate s <= 1000) by (apply Qle_shift_div_r; lra).
  repeat split; lra.
Qed.

Lemma clamp_in_unit_interval_Q (v : Q) :
  0 <= std_max k0 (std_min k1 v) <= 1.
Proof.
  unfold std_max, std_min. cbn [ltb k0 k1 Arith_Q].
  repeat case_ltb; lra.
Qed.

(** ** The stored samples *)

(** The dry bypass of a whole call, in exact arithmetic, where no sample
    is NaN.  With dry_wet 0, from every
    state, for every compress and output and every two buffers of equal
    length, the call returns and every stored sample differs from its
    input by at most [eps = 5e-11], the largest dither. *)
Theorem dry_bypass_exact (s : State) (ls rs : list Q) (k : nat) :
  (0 < RAND_MAX)%Z -> (forall j, 0 <= rand j <= RAND_MAX)%Z ->
  length ls = length rs -> dry_wet s == 0 ->
  exists s' lo ro k',
    buttercomp2_process_stereo RAND_MAX rand (Some s) (Some ls) (Some rs)
      (Z.of_nat (length ls)) k = Some (Some s', Some lo, Some ro, k') /\
    Forall2 (fun x y => Qabs (y - x) <= dither_eps) ls lo /\
    Forall2 (fun x y => Qabs (y - x) <= dither_eps) rs ro.
Proof.
  intros HRM Hrand Hlen Ht.
  rewrite process_stereo_frames by exact Hlen.
  pose proof (process_frames_outputs RAND_MAX rand (locals_of s)
                (fun x y => Qabs (y - x) <= dither_eps)) as Hout.
  specialize (Hout ltac:(intros; now apply channel_output_dry)).
  specialize (Hout ls rs s k Hlen).
  destruct (process_frames RAND_MAX rand (locals_of s) s ls rs k)
    as [[[s' lo] ro] k'].
  exists s', lo, ro, k'. split; [reflexivity | exact Hout].
Qed.

(** The same in exact arithmetic, where a non-negative [avg_A[ch]] stays
    non-negative. *)
Lemma second_stage_never_divides_exact (c : Locals) (s : State) (ch : chan)
  (x : Q) (k : nat) :
  0 <= aget (avg_A s) ch ->
  let s1 := fst (first_stage c s ch x) in
  let y := snd (first_stage c s ch x) in
  let s2 := fst (second_stage c s1 ch y) in
  (fabs y >? aget (avg_A s2) ch * k1_1)%num = false /\
  second_stage c s1 ch y = (s2, y) /\
  process_channel RAND_MAX rand c s ch x k
  = mix_stage RAND_MAX rand c s2 x (limit_stage c y) k /\
  0 <= aget (avg_A s2) ch.
Proof.
  intros He. cbv zeta.
  pose proof (second_stage_no_division c (fst (first_stage c s ch x)) ch
                (snd (first_stage c s ch x))) as H.
  rewrite first_stage_avg_A in H. specialize (H He). cbv zeta in H.
  destruct H as (H1 & H2 & H3). repeat split; try assumption.
  unfold process_channel.
  destruct (first_stage c s ch x) as [s1 y]. cbn [fst snd] in *.
  now rewrite H2.
Qed.

Lemma reachable_avg_A_nonneg (P : Q -> Prop) (s : State) :
  reachable RAND_MAX rand P s -> forall ch, 0 <= aget (avg_A s) ch.
Proof.
  apply (reachable_invariant RAND_MAX rand P
           (fun t => forall ch, 0 <= aget (avg_A t) ch)).
  - intros rate t E. cbn in E. injection E as <-. intros []; cbn; lra.
  - intros t v H. exact H.
  - intros t v H. exact H.
  - intros t v H. exact H.
  - intros t H []; cbn; lra.
  - intros t ch x j H _ ch'.
    pose proof (second_stage_never_divides_exact (locals_of t) t ch x j (H ch))
      as N.
    cbv zeta in N. destruct N as (_ & E2 & E3 & N). rewrite E3.
    unfold mix_stage. simpl_state.
    assert (G : 0 <= aget (avg_A (fst (second_stage (locals_of t)
                  (fst (first_stage (locals_of t) t ch x)) ch
                  (snd (first_stage (locals_of t) t ch x))))) ch').
    { pose proof (second_stage_frame (locals_of t)
                    (fst (first_stage (locals_of t) t ch x)) ch
                    (snd (first_stage (locals_of t) t ch x)) ch') as F.
      cbv zeta in F. destruct F as (_ & _ & _ & _ & _ & _ & _ & _ & _ & F).
      rewrite first_stage_avg_A in F.
      destruct ch, ch'; try exact N; rewrite F by discriminate; apply H. }
    destruct (Z.eqb _ _); exact G.
Qed.

End Exact.

(** * Concrete runs *)

Section Runs.

(** A fresh instance at 48000 Hz, in exact arithmetic. *)
Definition fresh_Q : ButterComp2State Q :=
  mkState 48000 0 (1 # 2) 1 (0, 0) (0, 0) (0, 0) (0, 0) (0, 0)
    (0, 0) (0, 0) (0, 0) (0, 0) (0, 0) 1%Z.

Lemma rand_zero_range (j : nat) : (0 <= rand_zero j <= RAND_MAX_glibc)%Z.
Proof. unfold rand_zero, RAND_MAX_glibc. lia. Qed.

Lemma RAND_MAX_glibc_pos : (0 < RAND_MAX_glibc)%Z.
Proof. reflexivity. Qed.

(** The dry bypass in exact arithmetic at an instance: dry_wet 0,
    compress 1, one sample per channel. *)
Lemma dry_bypass_exact_witness :
  let s := with_compress (with_dry_wet fresh_Q 0) 1 in
  exists s' lo ro k',
    buttercomp2_process_stereo RAND_MAX_glibc rand_zero (Some s)
      (Some [3 # 4]) (Some [- (5 # 2)]) 1 0
    = Some (Some s', Some lo, Some ro, k') /\
    Forall2 (fun x y => Qabs (y - x) <= dither_eps) [3 # 4] lo /\
    Forall2 (fun x y => Qabs (y - x) <= dither_eps) [- (5 # 2)] ro.
Proof.
  apply (dry_bypass_exact RAND_MAX_glibc rand_zero
           (with_compress (with_dry_wet fresh_Q 0) 1)
           [3 # 4] [- (5 # 2)] 0%nat).
  - exact RAND_MAX_glibc_pos.
  - exact rand_zero_range.
  - reflexivity.
  - reflexivity.
Defined.

Local Open Scope float_scope.

(** C2, the claim as stated fails: a sample rate of -44100, and one of 0,
    yield an instance, which stores the rate. *)
Lemma create_accepts_nonpositive_rate :
  buttercomp2_create true (-44100)
  = Some (mkState (-44100) 0 0.5 1 (0, 0) (0, 0) (0, 0) (0, 0) (0, 0)
            (0, 0) (0, 0) (0, 0) (0, 0) (0, 0) 1%Z) /\
  (-44100 <=? 0) = true /\
  option_map sample_rate (buttercomp2_create true 0) = Some 0.
Proof. repeat split. Qed.


(** C6, the claim as stated fails in binary64: at the positive sample rate
    2^-1040 the release speed is infinite, the wet sample is NaN, and with
    dry_wet 0 the NaN is what is stored in place of the input 0.5. *)
Lemma dry_bypass_stores_nan :
  (0 <? 0x1p-1040) = true /\
  buffers_of
    (buttercomp2_process_stereo RAND_MAX_glibc rand_zero
       (buttercomp2_set_dry_wet (buttercomp2_create true 0x1p-1040) 0)
       (Some [0.5]) (Some [0.5]) 1 0)
  = Some ([nan], [nan]).
Proof. split; vm_compute; reflexivity. Qed.

(** C10, the claim as stated fails.  At the positive sample rate 1e-6,
    with compress 1, two samples leave [1 + control_A_pos[0]] below 1 (below
    0, even); at the positive sample rate 2^-1040 the release speed is
    infinite, and one sample 0.5 on a new instance leaves NaN in
    [control_A_pos] and [avg_A]. *)
Lemma small_rate_breaks_state :
  (0 <? 1e-6) = true /\
  option_map (fun s => (1 + fst (control_A_pos s) <? 1,
                        1 + fst (control_A_pos s) <? 0))
    (state_of
       (buttercomp2_process_stereo RAND_MAX_glibc rand_zero
          (buttercomp2_set_compress (buttercomp2_create true 1e-6) 1)
          (Some [0.5; 0.9]) (Some [0.5; 0.7]) 2 0))
  = Some (true, true) /\
  (0 <? 0x1p-1040) = true /\
  option_map (fun s => (is_nan (fst (control_A_pos s)),
                        is_nan (fst (avg_A s))))
    (state_of
       (buttercomp2_process_stereo RAND_MAX_glibc rand_zero
          (buttercomp2_create true 0x1p-1040)
          (Some [0.5]) (Some [0.5]) 1 0))
  = Some (true, true).
Proof. repeat split. Qed.

(** A fresh instance at 48000 Hz with compress 0.75, in binary64. *)
Definition fresh_double : ButterComp2State float :=
  mkState 48000 0.75 0.5 1 (0, 0) (0, 0) (0, 0) (0, 0) (0, 0)
    (0, 0) (0, 0) (0, 0) (0, 0) (0, 0) 1%Z.

(** C4 at an instance: the first sample 0.5 of the left channel. *)
Lemma second_stage_never_divides_witness :
  let c := locals_of fresh_double in
  let s1 := fst (first_stage c fresh_double ch0 0.5) in
  let y := snd (first_stage c fresh_double ch0 0.5) in
  let s2 := fst (second_stage c s1 ch0 y) in
  (fabs y >? aget (avg_A s2) ch0 * k1_1)%num = false /\
  second_stage c s1 ch0 y = (s2, y) /\
  process_channel RAND_MAX_glibc rand_zero c fresh_double ch0 0.5 0
  = mix_stage RAND_MAX_glibc rand_zero c s2 0.5 (limit_stage c y) 0.
Proof.
  apply (second_stage_never_divides RAND_MAX_glibc rand_zero
           (locals_of fresh_double) fresh_double ch0 0.5 0%nat).
  reflexivity.
Defined.

(** C5 at an instance: 48000 Hz, compress 0.75, segments of 2 and 1
    samples. *)
Lemma process_split_witness :
  let s := fresh_double in
  exists s1 lo1 ro1 k1 s2 lo2 ro2 k2,
    buttercomp2_process_stereo RAND_MAX_glibc rand_zero (Some s)
      (Some [0.5; -0.25]) (Some [0.125; 0.75]) 2 0
    = Some (Some s1, Some lo1, Some ro1, k1) /\
    buttercomp2_process_stereo RAND_MAX_glibc rand_zero (Some s1)
      (Some [0.375]) (Some [-0.5]) 1 k1
    = Some (Some s2, Some lo2, Some ro2, k2) /\
    buttercomp2_process_stereo RAND_MAX_glibc rand_zero (Some s)
      (Some [0.5; -0.25; 0.375]) (Some [0.125; 0.75; -0.5]) 3 0
    = Some (Some s2, Some (lo1 ++ lo2), Some (ro1 ++ ro2), k2).
Proof.
  exact (process_split RAND_MAX_glibc rand_zero _ [0.5; -0.25] [0.125; 0.75]
           [0.375] [-0.5] 0%nat eq_refl eq_refl).
Defined.

(** C6 at an instance: 48000 Hz, dry_wet 0, the first sample 0.5 of the
    left channel. *)
Definition dry_double : ButterComp2State float :=
  mkState 48000 0.75 0.5 0 (0, 0) (0, 0) (0, 0) (0, 0) (0, 0)
    (0, 0) (0, 0) (0, 0) (0, 0) (0, 0) 1%Z.

Lemma dry_bypass_up_to_dither_witness :
  exists x', same_number x' 0.5 /\
    snd (fst (process_channel RAND_MAX_glibc rand_zero (locals_of dry_double)
                dry_double ch0 0.5 0))
    = if (lnot (fpflip dry_double) =? 0)%Z then to_float x'
      else to_float
             (x' + (of_int (rand_zero 0) / of_int RAND_MAX_glibc - k0_5)
                   * k1em10)%num.
Proof.
  exact (dry_bypass_up_to_dither RAND_MAX_glibc rand_zero dry_double
           dry_double ch0 0.5 0%nat eq_refl eq_refl).
Defined.

End Runs.

(** * The calls as a host makes them *)

Section Buffers.

Context {num : Type} {AR : Arith num}.
Variable RAND_MAX : Z.
Variable rand : nat -> Z.

Local Open Scope num_scope.

Local Abbreviation State := (ButterComp2State num).

(** ** The samples a call reads and writes *)

Lemma store_length (buf : list num) : forall i v,
  length (store buf i v) = length buf.
Proof.
  induction buf as [|h t IH]; intros [|i] v; cbn; auto.
Qed.

(** A call reads [left_channel[i]] and [right_channel[i]] for every
    [i < num_samples]: past the end of a buffer it has no defined
    behaviour. *)
Lemma sample_loop_past_end (c : Locals) (count : nat) :
  forall i s l r k,
    (i <= length l)%nat -> (i <= length r)%nat ->
    (length l < i + count \/ length r < i + count)%nat ->
    sample_loop RAND_MAX rand c count i s l r k = None.
Proof.
  induction count as [|count IH]; intros i s l r k Hl Hr Hlt; [lia|].
  cbn [sample_loop].
  destruct (nth_error l i) as [x|] eqn:El; [|reflexivity].
  assert (i < length l)%nat by (apply nth_error_Some; congruence).
  destruct (process_channel RAND_MAX rand c s ch0 x k) as [[s1 l'] k1].
  destruct (nth_error r i) as [y|] eqn:Er; [|reflexivity].
  assert (i < length r)%nat by (apply nth_error_Some; congruence).
  destruct (process_channel RAND_MAX rand c s1 ch1 y k1) as [[s2 r'] k2].
  apply IH; rewrite ?store_length; lia.
Qed.

Lemma process_stereo_prefix (s : State) (ls rs : list num) (n : nat)
  (k : nat) :
  (n <= length ls)%nat -> (n <= length rs)%nat ->
  buttercomp2_process_stereo RAND_MAX rand (Some s) (Some ls) (Some rs)
    (Z.of_nat n) k
  = let '(s', lo, ro, k') :=
      process_frames RAND_MAX rand (locals_of s) s (firstn n ls)
        (firstn n rs) k in
    Some (Some s', Some (lo ++ skipn n ls), Some (ro ++ skipn n rs), k').
Proof.
  intros Hl Hr. unfold buttercomp2_process_stereo. rewrite Nat2Z.id.
  pose proof (sample_loop_frames RAND_MAX rand (locals_of s) (firstn n ls)
                (firstn n rs) [] [] (skipn n ls) (skipn n rs) s k eq_refl)
    as H.
  rewrite !length_firstn in H.
  rewrite !Nat.min_l in H by assumption. specialize (H eq_refl).
  cbn [app length] in H. rewrite !firstn_skipn in H. rewrite H.
  now destruct (process_frames _ _ _ _ _ _ _) as [[[s' lo] ro] k'].
Qed.

(** X1.  A call with [num_samples = n] on buffers of at least [n] samples
    returns; it stores in the first [n] places what a call on the buffers
    cut to [n] samples stores, leaves the same state and consumes the
    same random numbers, and leaves every sample from place [n] on as it
    was. *)
Theorem process_leaves_tail (s : State) (ls rs : list num) (n : nat)
  (k : nat) :
  (n <= length ls)%nat -> (n <= length rs)%nat ->
  exists s' lo ro k',
    buttercomp2_process_stereo RAND_MAX rand (Some s)
      (Some (firstn n ls)) (Some (firstn n rs)) (Z.of_nat n) k
    = Some (Some s', Some lo, Some ro, k') /\
    buttercomp2_process_stereo RAND_MAX rand (Some s) (Some ls) (Some rs)
      (Z.of_nat n) k
    = Some (Some s', Some (lo ++ skipn n ls), Some (ro ++ skipn n rs), k') /\
    length lo = n /\ length ro = n.
Proof.
  intros Hl Hr.
  assert (Hfl : length (firstn n ls) = n)
    by (rewrite length_firstn; now apply Nat.min_l).
  assert (Hfr : length (firstn n rs) = n)
    by (rewrite length_firstn; now apply Nat.min_l).
  pose proof (process_stereo_prefix s ls rs n k Hl Hr) as E.
  pose proof (process_stereo_frames RAND_MAX rand s (firstn n ls)
                (firstn n rs) k ltac:(congruence)) as E'.
  rewrite Hfl in E'.
  pose proof (process_frames_length RAND_MAX rand (locals_of s)
                (firstn n ls) (firstn n rs) s k ltac:(congruence)) as [L1 L2].
  destruct (process_frames RAND_MAX rand (locals_of s) s (firstn n ls)
              (firstn n rs) k) as [[[s' lo] ro] k'].
  cbn [fst snd] in L1, L2.
  exists s', lo, ro, k'. repeat split; try assumption; congruence.
Qed.

(** X2.  A call has a defined result exactly when [num_samples] is at most
    the length of each buffer: with more, it reads past the end of a
    buffer. *)
Theorem process_defined_iff_in_bounds (s : State) (ls rs : list num)
  (n : nat) (k : nat) :
  buttercomp2_process_stereo RAND_MAX rand (Some s) (Some ls) (Some rs)
    (Z.of_nat n) k = None
  <-> (length ls < n \/ length rs < n)%nat.
Proof.
  split.
  - intros E.
    destruct (Nat.le_gt_cases n (length ls)) as [Hl|Hl]; [|now left].
    destruct (Nat.le_gt_cases n (length rs)) as [Hr|Hr]; [|now right].
    rewrite (process_stereo_prefix s ls rs n k Hl Hr) in E.
    now destruct (process_frames _ _ _ _ _ _ _) as [[[s' lo] ro] k'].
  - intros H. unfold buttercomp2_process_stereo. rewrite Nat2Z.id.
    rewrite sample_loop_past_end; [reflexivity| | |exact H]; cbn; lia.
Qed.

End Buffers.

(** ** What a call writes in the state *)

(** The five arrays of the state that the processing never uses. *)
Definition idle_arrays {num : Type} (s : ButterComp2State num)
  : arr2 num * arr2 num * arr2 num * arr2 num * arr2 num :=
  (control_B_pos s, control_B_neg s, avg_B s, dyn_A s, dyn_B s).

Section Phase.

Context {num : Type} {AR : Arith num}.
Variable RAND_MAX : Z.
Variable rand : nat -> Z.

Local Open Scope num_scope.

Local Abbreviation State := (ButterComp2State num).

(** The wet sample of a step: the sample after the two stages and the
    limiter (lines 125-171). *)
Definition wet_sample (c : Locals) (s : State) (ch : chan) (x : num) : num :=
  let '(s1, y) := first_stage c s ch x in
  let '(_, z) := second_stage c s1 ch y in
  limit_stage c z.

(** The mix of line 174. *)
Definition mixed (c : Locals) (s : State) (ch : chan) (x : num) : num :=
  x * dry c + wet_sample c s ch x * wet c.

(** The dither of line 179, from the [j]-th value of [rand()]. *)
Definition dither (j : nat) : num :=
  (of_int (rand j) / of_int RAND_MAX - k0_5) * k1em10.

Lemma first_stage_idle c (s : State) ch x :
  idle_arrays (fst (first_stage c s ch x)) = idle_arrays s /\
  fpflip (fst (first_stage c s ch x)) = fpflip s.
Proof. unfold first_stage. now destruct (ltb _ _). Qed.

Lemma second_stage_idle c (s : State) ch x :
  idle_arrays (fst (second_stage c s ch x)) = idle_arrays s /\
  fpflip (fst (second_stage c s ch x)) = fpflip s.
Proof.
  unfold second_stage.
  destruct (ltb (aget (avg_A s) ch) _); now destruct (ltb _ _).
Qed.

(** The step of one sample: the value stored, the dither phase and the
    count of the calls of [rand()], and the arrays left alone. *)
Lemma process_channel_phase c (s : State) ch x k :
  let r := process_channel RAND_MAX rand c s ch x k in
  fpflip (fst (fst r)) = lnot (fpflip s) /\
  idle_arrays (fst (fst r)) = idle_arrays s /\
  snd r = (if (lnot (fpflip s) =? 0)%Z then k else S k) /\
  snd (fst r)
  = (if (lnot (fpflip s) =? 0)%Z then to_float (mixed c s ch x)
     else to_float (mixed c s ch x + dither k)).
Proof.
  cbv zeta. unfold mixed, wet_sample, process_channel.
  destruct (first_stage_idle c s ch x) as [I1 F1].
  destruct (first_stage c s ch x) as [s1 y]. cbn [fst snd] in *.
  destruct (second_stage_idle c s1 ch y) as [I2 F2].
  destruct (second_stage c s1 ch y) as [s2 z]. cbn [fst snd] in *.
  unfold mix_stage. cbn [fpflip with_fpflip]. rewrite F2, F1.
  assert (I3 : forall v, idle_arrays (with_fpflip s2 v) = idle_arrays s)
    by (intros v; change (idle_arrays (with_fpflip s2 v))
                    with (idle_arrays s2); congruence).
  destruct (lnot (fpflip s) =? 0)%Z; cbn [fst snd fpflip with_fpflip];
    (split; [reflexivity|]); (split; [apply I3|]); split; reflexivity.
Qed.

(** The frames of a call that starts in the dither phase 1. *)
Lemma process_frames_phase (c : Locals) (ls : list num) :
  forall (rs : list num) (s : State) (k : nat),
    fpflip s = 1%Z -> length ls = length rs ->
    let r := process_frames RAND_MAX rand c s ls rs k in
    fpflip (fst (fst (fst r))) = 1%Z /\
    idle_arrays (fst (fst (fst r))) = idle_arrays s /\
    snd r = (k + length ls)%nat /\
    (forall i x, nth_error ls i = Some x ->
       exists t, nth_error (snd (fst (fst r))) i
                 = Some (to_float (mixed c t ch0 x))) /\
    (forall i x, nth_error rs i = Some x ->
       exists t, nth_error (snd (fst r)) i
                 = Some (to_float (mixed c t ch1 x + dither (k + i)))).
Proof.
  induction ls as [|l ls IH]; intros rs s k Hf Hlen; cbv zeta.
  - destruct rs; [|discriminate]. cbn.
    repeat split; try assumption; try lia; intros [|i] x E; discriminate.
  - destruct rs as [|r rs]; [discriminate|]. cbn [process_frames].
    destruct (process_channel_phase c s ch0 l k) as (F1 & I1 & K1 & O1).
    destruct (process_channel RAND_MAX rand c s ch0 l k) as [[s1 l'] k1].
    cbn [fst snd] in *. rewrite Hf in *. cbn in F1, K1, O1.
    destruct (process_channel_phase c s1 ch1 r k1) as (F2 & I2 & K2 & O2).
    destruct (process_channel RAND_MAX rand c s1 ch1 r k1) as [[s2 r'] k2].
    cbn [fst snd] in *. rewrite F1 in *. cbn in F2, K2, O2.
    specialize (IH rs s2 k2 F2 ltac:(cbn in Hlen; lia)).
    destruct (process_frames RAND_MAX rand c s2 ls rs k2)
      as [[[s3 lo] ro] k3].
    cbn [fst snd] in *. destruct IH as (F3 & I3 & K3 & L3 & R3).
    subst k1 k2 k3. cbn [length].
    split; [exact F3|]. split; [congruence|]. split; [lia|]. split.
    + intros [|i] x E; cbn in E |- *.
      * injection E as <-. exists s. now rewrite O1.
      * now apply L3.
    + intros [|i] x E; cbn in E |- *.
      * injection E as <-. exists s1. rewrite O2.
        now replace (k + 0)%nat with k by lia.
      * destruct (R3 i x E) as [t Et]. exists t. rewrite Et.
        now replace (k + S i)%nat with (S k + i)%nat by lia.
Qed.

(** X3.  A call writes the running values of the two channels and the
    dither phase only: it returns with the sample rate, the three
    parameters and the five arrays [control_B_pos], [control_B_neg],
    [avg_B], [dyn_A] and [dyn_B] as they were, from any state. *)
Theorem process_keeps_parameters (s : State) (ls rs : list num) (k : nat) :
  length ls = length rs ->
  exists s' lo ro k',
    buttercomp2_process_stereo RAND_MAX rand (Some s) (Some ls) (Some rs)
      (Z.of_nat (length ls)) k = Some (Some s', Some lo, Some ro, k') /\
    sample_rate s' = sample_rate s /\ compress s' = compress s /\
    output s' = output s /\ dry_wet s' = dry_wet s /\
    idle_arrays s' = idle_arrays s.
Proof.
  intros Hlen. rewrite process_stereo_frames by exact Hlen.
  pose proof (process_frames_params RAND_MAX rand (locals_of s) ls s rs k)
    as (P1 & P2 & P3 & P4).
  pose proof (process_frames_invariant RAND_MAX rand (locals_of s)
                (fun t => idle_arrays t = idle_arrays s) (fun _ => True))
    as Hinv.
  specialize (Hinv ltac:(
    intros t ch x j Ht _;
    destruct (process_channel_phase (locals_of s) t ch x j) as (_ & I & _);
    congruence)).
  specialize (Hinv ls rs s k eq_refl).
  assert (Hall : forall xs : list num, Forall (fun _ => True) xs)
    by (intros xs; induction xs; constructor; auto).
  specialize (Hinv (Hall ls) (Hall rs)).
  destruct (process_frames RAND_MAX rand (locals_of s) s ls rs k)
    as [[[s' lo] ro] k'].
  exists s', lo, ro, k'. cbn [fst] in *. repeat split; assumption.
Qed.

(** X4.  In every state an instance goes through, whatever the parameters
    and the samples, the five arrays [control_B_pos], [control_B_neg],
    [avg_B], [dyn_A] and [dyn_B] hold 0: nothing but the zero fill of
    [buttercomp2_create] and the zeros of [buttercomp2_reset] is ever
    written to them. *)
Theorem idle_arrays_stay_zero (P : num -> Prop) (s : State) :
  reachable RAND_MAX rand P s ->
  idle_arrays s = ((k0, k0), (k0, k0), (k0, k0), (k0, k0), (k0, k0)).
Proof.
  apply (reachable_invariant RAND_MAX rand P
           (fun t => idle_arrays t
                     = ((k0, k0), (k0, k0), (k0, k0), (k0, k0), (k0, k0)))).
  - intros rate t E. cbn in E. now injection E as <-.
  - intros t v H. exact H.
  - intros t v H. exact H.
  - intros t v H. exact H.
  - intros t _. reflexivity.
  - intros t ch x k H _.
    destruct (process_channel_phase (locals_of t) t ch x k) as (_ & I & _).
    congruence.
Qed.

(** X5.  A call that starts in the dither phase 1, which is the phase
    [buttercomp2_create] sets, ends in the phase 1 and calls [rand()] once
    for each of its [num_samples] frames: the sample [i] of the right
    channel is stored with the dither of the [i]-th of these values added
    to its mix, and no sample of the left channel is dithered. *)
Theorem dither_on_right_channel_only (s : State) (ls rs : list num)
  (k : nat) :
  fpflip s = 1%Z -> length ls = length rs ->
  exists s' lo ro k',
    buttercomp2_process_stereo RAND_MAX rand (Some s) (Some ls) (Some rs)
      (Z.of_nat (length ls)) k = Some (Some s', Some lo, Some ro, k') /\
    fpflip s' = 1%Z /\ k' = (k + length ls)%nat /\
    (forall i x, nth_error ls i = Some x ->
       exists t, nth_error lo i
                 = Some (to_float (mixed (locals_of s) t ch0 x))) /\
    (forall i x, nth_error rs i = Some x ->
       exists t, nth_error ro i
                 = Some (to_float (mixed (locals_of s) t ch1 x
                                   + dither (k + i)))).
Proof.
  intros Hf Hlen. rewrite process_stereo_frames by exact Hlen.
  pose proof (process_frames_phase (locals_of s) ls rs s k Hf Hlen)
    as (F & _ & K & L & R).
  destruct (process_frames RAND_MAX rand (locals_of s) s ls rs k)
    as [[[s' lo] ro] k'].
  exists s', lo, ro, k'. cbn [fst snd] in *. repeat split; assumption.
Qed.

(** The states an instance is in between the calls of its host: after
    [buttercomp2_create], and after each setter, [buttercomp2_reset] and
    [buttercomp2_process_stereo] on buffers of [num_samples] samples. *)
Inductive between_calls : State -> Prop :=
| calls_create (rate : num) (s : State) :
    buttercomp2_create true rate = Some s -> between_calls s
| calls_set_compress (s s' : State) (v : num) :
    between_calls s ->
    buttercomp2_set_compress (Some s) v = Some s' -> between_calls s'
| calls_set_output (s s' : State) (v : num) :
    between_calls s ->
    buttercomp2_set_output (Some s) v = Some s' -> between_calls s'
| calls_set_dry_wet (s s' : State) (v : num) :
    between_calls s ->
    buttercomp2_set_dry_wet (Some s) v = Some s' -> between_calls s'
| calls_reset (s s' : State) :
    between_calls s -> buttercomp2_reset (Some s) = Some s' ->
    between_calls s'
| calls_process (s s' : State) (ls rs : list num) (k : nat)
    (lo ro : option (list num)) (k' : nat) :
    between_calls s -> length ls = length rs ->
    buttercomp2_process_stereo RAND_MAX rand (Some s) (Some ls) (Some rs)
      (Z.of_nat (length ls)) k = Some (Some s', lo, ro, k') ->
    between_calls s'.

Lemma between_calls_phase (s : State) : between_calls s -> fpflip s = 1%Z.
Proof.
  intros H. induction H as
    [rate s E | s s' v _ IH E | s s' v _ IH E | s s' v _ IH E
    | s s' _ IH E | s s' ls rs k lo ro k' _ IH Hlen E].
  - cbn in E. now injection E as <-.
  - cbn in E. now injection E as <-.
  - cbn in E. now injection E as <-.
  - cbn in E. now injection E as <-.
  - cbn in E. now injection E as <-.
  - rewrite process_stereo_frames in E by exact Hlen.
    pose proof (process_frames_phase (locals_of s) ls rs s k IH Hlen)
      as (F & _).
    destruct (process_frames RAND_MAX rand (locals_of s) s ls rs k)
      as [[[s3 lo3] ro3] k3].
    injection E as <- _ _ _. exact F.
Qed.

(** X6.  Between the calls of its host an instance is in the dither phase
    1, so [buttercomp2_reset] returns it to the state of a new instance
    of its sample rate with its three parameters: what it stores from
    then on does not depend on what it processed before. *)
Theorem reset_restores_created_state (s : State) :
  between_calls s ->
  fpflip s = 1%Z /\
  buttercomp2_reset (Some s)
  = option_map
      (fun t => with_dry_wet (with_output (with_compress t (compress s))
                                (output s)) (dry_wet s))
      (buttercomp2_create true (sample_rate s)).
Proof.
  intros H. pose proof (between_calls_phase s H) as F.
  split; [exact F|]. destruct s. cbn in F |- *. now rewrite F.
Qed.

End Phase.

(** ** The two channels *)

(** The running values of the channel [ch]. *)
Definition chan_state {num : Type} (s : ButterComp2State num) (ch : chan)
  : num * num * num * num * num :=
  (aget (control_A_pos s) ch, aget (control_A_neg s) ch,
   aget (target_pos s) ch, aget (target_neg s) ch, aget (avg_A s) ch).

Section Channels.

Context {num : Type} {AR : Arith num}.
Variable RAND_MAX : Z.
Variable rand : nat -> Z.

Local Open Scope num_scope.

Local Abbreviation State := (ButterComp2State num).

Ltac split_chan_state H :=
  unfold chan_state in H; cbn in H; injection H as ? ? ? ? ?; subst.

Lemma first_stage_own c (s t : State) ch x :
  chan_state s ch = chan_state t ch ->
  snd (first_stage c s ch x) = snd (first_stage c t ch x) /\
  chan_state (fst (first_stage c s ch x)) ch
  = chan_state (fst (first_stage c t ch x)) ch.
Proof.
  intros H. destruct s, t, ch; split_chan_state H;
    unfold first_stage, chan_state; cbn;
    destruct (ltb _ _); cbn; split; congruence.
Qed.

Lemma first_stage_other c (s : State) ch ch' x :
  ch <> ch' -> chan_state (fst (first_stage c s ch' x)) ch = chan_state s ch.
Proof.
  intros Hne. unfold first_stage, chan_state.
  destruct ch, ch'; try (now elim Hne); destruct (ltb _ _); reflexivity.
Qed.

Lemma second_stage_own c (s t : State) ch x :
  chan_state s ch = chan_state t ch ->
  snd (second_stage c s ch x) = snd (second_stage c t ch x) /\
  chan_state (fst (second_stage c s ch x)) ch
  = chan_state (fst (second_stage c t ch x)) ch.
Proof.
  intros H. rewrite !second_stage_unfold. cbn [fst snd].
  assert (E : aget (avg_A s) ch = aget (avg_A t) ch)
    by (unfold chan_state in H; congruence).
  rewrite E. split; [reflexivity|].
  destruct s, t, ch; split_chan_state H; unfold chan_state; cbn;
    congruence.
Qed.

Lemma second_stage_other c (s : State) ch ch' x :
  ch <> ch' ->
  chan_state (fst (second_stage c s ch' x)) ch = chan_state s ch.
Proof.
  intros Hne. rewrite second_stage_unfold. cbn [fst]. unfold chan_state.
  destruct ch, ch'; try (now elim Hne); reflexivity.
Qed.

Lemma mix_stage_chan_state c (s : State) d w k ch :
  chan_state (fst (fst (mix_stage RAND_MAX rand c s d w k))) ch
  = chan_state s ch.
Proof.
  unfold mix_stage. cbn [fpflip with_fpflip].
  now destruct (lnot (fpflip s) =? 0)%Z.
Qed.

(** The step of a sample of [ch] reads and writes, of the running values,
    those of [ch] only. *)
Lemma process_channel_own c (s t : State) ch x k :
  chan_state s ch = chan_state t ch -> fpflip s = fpflip t ->
  snd (fst (process_channel RAND_MAX rand c s ch x k))
  = snd (fst (process_channel RAND_MAX rand c t ch x k)) /\
  chan_state (fst (fst (process_channel RAND_MAX rand c s ch x k))) ch
  = chan_state (fst (fst (process_channel RAND_MAX rand c t ch x k))) ch.
Proof.
  intros H F.
  destruct (process_channel_phase RAND_MAX rand c s ch x k)
    as (_ & _ & _ & Os).
  destruct (process_channel_phase RAND_MAX rand c t ch x k)
    as (_ & _ & _ & Ot).
  cbv zeta in Os, Ot. rewrite Os, Ot, F. clear Os Ot.
  unfold mixed, wet_sample, process_channel.
  destruct (first_stage_own c s t ch x H) as [Y1 C1].
  destruct (first_stage c s ch x) as [s1 y].
  destruct (first_stage c t ch x) as [t1 y'].
  cbn [fst snd] in *. subst y'.
  destruct (second_stage_own c s1 t1 ch y C1) as [Y2 C2].
  destruct (second_stage c s1 ch y) as [s2 z].
  destruct (second_stage c t1 ch y) as [t2 z'].
  cbn [fst snd] in *. subst z'.
  rewrite !mix_stage_chan_state. split; [reflexivity | exact C2].
Qed.

Lemma process_channel_other c (s : State) ch ch' x k :
  ch <> ch' ->
  chan_state (fst (fst (process_channel RAND_MAX rand c s ch' x k))) ch
  = chan_state s ch.
Proof.
  intros Hne. unfold process_channel.
  pose proof (first_stage_other c s ch ch' x Hne) as C1.
  destruct (first_stage c s ch' x) as [s1 y]. cbn [fst] in C1.
  pose proof (second_stage_other c s1 ch ch' y Hne) as C2.
  destruct (second_stage c s1 ch' y) as [s2 z]. cbn [fst] in C2.
  rewrite mix_stage_chan_state. congruence.
Qed.

(** Two runs over the same samples of [ch], from states that agree on the
    running values of [ch] and the dither phase, with any samples on the
    other channel. *)
Lemma process_frames_left (c : Locals) (ls : list num) :
  forall (rs rs' : list num) (s t : State) (k : nat),
    length ls = length rs -> length ls = length rs' ->
    chan_state s ch0 = chan_state t ch0 -> fpflip s = fpflip t ->
    snd (fst (fst (process_frames RAND_MAX rand c s ls rs k)))
    = snd (fst (fst (process_frames RAND_MAX rand c t ls rs' k))).
Proof.
  induction ls as [|l ls IH]; intros rs rs' s t k H1 H2 C F.
  - destruct rs, rs'; try discriminate. reflexivity.
  - destruct rs as [|r rs]; [discriminate|].
    destruct rs' as [|r' rs']; [discriminate|]. cbn [process_frames].
    destruct (process_channel_own c s t ch0 l k C F) as [O1 C1].
    destruct (process_channel_phase RAND_MAX rand c s ch0 l k)
      as (Fs & _ & Ks & _).
    destruct (process_channel_phase RAND_MAX rand c t ch0 l k)
      as (Ft & _ & Kt & _).
    destruct (process_channel RAND_MAX rand c s ch0 l k) as [[s1 l1] k1].
    destruct (process_channel RAND_MAX rand c t ch0 l k) as [[t1 l1'] k1'].
    cbn [fst snd] in *.
    assert (k1' = k1) by (rewrite Ks, Kt, F; reflexivity).
    clear Ks Kt. subst k1'.
    assert (F1 : fpflip s1 = fpflip t1) by congruence.
    pose proof (process_channel_other c s1 ch0 ch1 r k1 ltac:(discriminate))
      as Cs.
    pose proof (process_channel_other c t1 ch0 ch1 r' k1 ltac:(discriminate))
      as Ct.
    destruct (process_channel_phase RAND_MAX rand c s1 ch1 r k1)
      as (Fs2 & _ & Ks2 & _).
    destruct (process_channel_phase RAND_MAX rand c t1 ch1 r' k1)
      as (Ft2 & _ & Kt2 & _).
    destruct (process_channel RAND_MAX rand c s1 ch1 r k1) as [[s2 r2] k2].
    destruct (process_channel RAND_MAX rand c t1 ch1 r' k1)
      as [[t2 r2'] k2'].
    cbn [fst snd] in *.
    assert (k2' = k2) by (rewrite Ks2, Kt2, F1; reflexivity).
    clear Ks2 Kt2. subst k2'.
    specialize (IH rs rs' s2 t2 k2 ltac:(cbn in H1; lia)
                  ltac:(cbn in H2; lia) ltac:(congruence) ltac:(congruence)).
    destruct (process_frames RAND_MAX rand c s2 ls rs k2)
      as [[[s3 lo] ro] k3].
    destruct (process_frames RAND_MAX rand c t2 ls rs' k2)
      as [[[t3 lo'] ro'] k3'].
    cbn [fst snd] in *. congruence.
Qed.

Lemma process_frames_right (c : Locals) (rs : list num) :
  forall (ls ls' : list num) (s t : State) (k : nat),
    length ls = length rs -> length ls' = length rs ->
    chan_state s ch1 = chan_state t ch1 -> fpflip s = fpflip t ->
    snd (fst (process_frames RAND_MAX rand c s ls rs k))
    = snd (fst (process_frames RAND_MAX rand c t ls' rs k)).
Proof.
  induction rs as [|r rs IH]; intros ls ls' s t k H1 H2 C F.
  - destruct ls, ls'; try discriminate. reflexivity.
  - destruct ls as [|l ls]; [discriminate|].
    destruct ls' as [|l' ls']; [discriminate|]. cbn [process_frames].
    pose proof (process_channel_other c s ch1 ch0 l k ltac:(discriminate))
      as Cs.
    pose proof (process_channel_other c t ch1 ch0 l' k ltac:(discriminate))
      as Ct.
    destruct (process_channel_phase RAND_MAX rand c s ch0 l k)
      as (Fs & _ & Ks & _).
    destruct (process_channel_phase RAND_MAX rand c t ch0 l' k)
      as (Ft & _ & Kt & _).
    destruct (process_channel RAND_MAX rand c s ch0 l k) as [[s1 l1] k1].
    destruct (process_channel RAND_MAX rand c t ch0 l' k) as [[t1 l1'] k1'].
    cbn [fst snd] in *.
    assert (k1' = k1) by (rewrite Ks, Kt, F; reflexivity).
    clear Ks Kt. subst k1'.
    assert (F1 : fpflip s1 = fpflip t1) by congruence.
    destruct (process_channel_own c s1 t1 ch1 r k1 ltac:(congruence) F1)
      as [O1 C1].
    destruct (process_channel_phase RAND_MAX rand c s1 ch1 r k1)
      as (Fs2 & _ & Ks2 & _).
    destruct (process_channel_phase RAND_MAX rand c t1 ch1 r k1)
      as (Ft2 & _ & Kt2 & _).
    destruct (process_channel RAND_MAX rand c s1 ch1 r k1) as [[s2 r2] k2].
    destruct (process_channel RAND_MAX rand c t1 ch1 r k1)
      as [[t2 r2'] k2'].
    cbn [fst snd] in *.
    assert (k2' = k2) by (rewrite Ks2, Kt2, F1; reflexivity).
    clear Ks2 Kt2. subst k2'.
    specialize (IH ls ls' s2 t2 k2 ltac:(cbn in H1; lia)
                  ltac:(cbn in H2; lia) C1 ltac:(congruence)).
    destruct (process_frames RAND_MAX rand c s2 ls rs k2)
      as [[[s3 lo] ro] k3].
    destruct (process_frames RAND_MAX rand c t2 ls' rs k2)
      as [[[t3 lo'] ro'] k3'].
    cbn [fst snd] in *. congruence.
Qed.

(** X7.  The two channels are processed independently of each other: from
    the same state and the same place in the random sequence, the values
    a call stores in the left buffer are the same whatever the samples of
    the right buffer, and the values it stores in the right buffer are
    the same whatever the samples of the left buffer. *)
Theorem channels_are_independent (s : State) (ls rs ls' rs' : list num)
  (k : nat) :
  length ls = length rs -> length ls' = length ls ->
  length rs' = length rs ->
  exists lo ro lo' ro',
    buffers_of (buttercomp2_process_stereo RAND_MAX rand (Some s)
                  (Some ls) (Some rs) (Z.of_nat (length ls)) k)
    = Some (lo, ro) /\
    buffers_of (buttercomp2_process_stereo RAND_MAX rand (Some s)
                  (Some ls) (Some rs') (Z.of_nat (length ls)) k)
    = Some (lo, ro') /\
    buffers_of (buttercomp2_process_stereo RAND_MAX rand (Some s)
                  (Some ls') (Some rs) (Z.of_nat (length ls)) k)
    = Some (lo', ro).
Proof.
  intros H1 H2 H3.
  rewrite (process_stereo_frames RAND_MAX rand s ls rs k H1).
  rewrite (process_stereo_frames RAND_MAX rand s ls rs' k) by congruence.
  rewrite <- H2.
  rewrite (process_stereo_frames RAND_MAX rand s ls' rs k) by congruence.
  pose proof (process_frames_left (locals_of s) ls rs rs' s s k H1
                ltac:(congruence) eq_refl eq_refl) as L.
  pose proof (process_frames_right (locals_of s) rs ls ls' s s k H1
                ltac:(congruence) eq_refl eq_refl) as R.
  destruct (process_frames RAND_MAX rand (locals_of s) s ls rs k)
    as [[[s1 lo] ro] k1].
  destruct (process_frames RAND_MAX rand (locals_of s) s ls rs' k)
    as [[[s2 lo2] ro2] k2].
  destruct (process_frames RAND_MAX rand (locals_of s) s ls' rs k)
    as [[[s3 lo3] ro3] k3].
  cbn [fst snd] in *. subst lo2 ro3.
  exists lo, ro, lo3, ro2. repeat split.
Qed.

End Channels.

(** ** Invariants and relations, frame by frame *)

Section Frames.

Context {num : Type} {AR : Arith num}.
Variable RAND_MAX : Z.
Variable rand : nat -> Z.

Local Abbreviation State := (ButterComp2State num).

(** An invariant of the state between the frames, and relations between
    the samples of a frame and the values stored for them. *)
Lemma process_frames_related (c : Locals) (I : State -> Prop)
  (P : num -> Prop) (Rl Rr : num -> num -> Prop)
  (Hframe : forall s l r k, I s -> P l -> P r ->
     let a := process_channel RAND_MAX rand c s ch0 l k in
     let b := process_channel RAND_MAX rand c (fst (fst a)) ch1 r (snd a) in
     I (fst (fst b)) /\ Rl l (snd (fst a)) /\ Rr r (snd (fst b))) :
  forall ls rs s k, I s -> length ls = length rs ->
    Forall P ls -> Forall P rs ->
    let r := process_frames RAND_MAX rand c s ls rs k in
    I (fst (fst (fst r))) /\
    Forall2 Rl ls (snd (fst (fst r))) /\ Forall2 Rr rs (snd (fst r)).
Proof.
  induction ls as [|l ls IH]; intros rs s k Hs Hlen Hl Hr; cbv zeta.
  - destruct rs; [|discriminate]. cbn. repeat split; auto.
  - destruct rs as [|r rs]; [discriminate|]. cbn [process_frames].
    inversion Hl as [|? ? Pl Hl']; subst.
    inversion Hr as [|? ? Pr Hr']; subst.
    pose proof (Hframe s l r k Hs Pl Pr) as H. cbv zeta in H.
    destruct (process_channel RAND_MAX rand c s ch0 l k) as [[s1 l'] k1].
    cbn [fst snd] in H.
    destruct (process_channel RAND_MAX rand c s1 ch1 r k1) as [[s2 r'] k2].
    cbn [fst snd] in H. destruct H as (I2 & Hl1 & Hr1).
    specialize (IH rs s2 k2 I2 ltac:(cbn in Hlen; lia) Hl' Hr').
    cbv zeta in IH.
    destruct (process_frames RAND_MAX rand c s2 ls rs k2)
      as [[[s3 lo] ro] k3].
    cbn [fst snd] in *. destruct IH as (I3 & L3 & R3).
    repeat split; try assumption; constructor; assumption.
Qed.

End Frames.

(** * The parameters in binary64 *)

(** The value a setter is meant to store for [v]: [v] clamped to
    [[0, 1]], with NaN taken to 1 and the negative zero to 0. *)
Definition clamp_unit (v : float) : float :=
  if is_nan v then 1%float
  else if (v <=? 0)%float then 0%float
  else if (1 <=? v)%float then 1%float
  else v.

Section Binary64Parameters.

Variable RAND_MAX : Z.
Variable rand : nat -> Z.

Local Open Scope float_scope.

Lemma SFcompare_finite_antisym (m1 m2 : positive) (e1 e2 : Z) :
  SFcompare (S754_finite false m1 e1) (S754_finite false m2 e2)
  = option_map CompOpp
      (SFcompare (S754_finite false m2 e2) (S754_finite false m1 e1)).
Proof.
  cbn [SFcompare]. rewrite (Z.compare_antisym e2 e1).
  destruct (e2 ?= e1)%Z; cbn [CompOpp option_map]; try reflexivity.
  change (Pos.compare_cont Eq m1 m2) with (Pos.compare m1 m2).
  change (Pos.compare_cont Eq m2 m1) with (Pos.compare m2 m1).
  rewrite (Pos.compare_antisym m2 m1).
  now destruct (m2 ?= m1)%positive.
Qed.

Lemma SFcompare_finite_refl (s : bool) (m : positive) (e : Z) :
  SFcompare (S754_finite s m e) (S754_finite s m e) = Some Eq.
Proof.
  cbn [SFcompare]. rewrite Z.compare_refl.
  change (Pos.compare_cont Eq m m) with (Pos.compare m m).
  rewrite Pos.compare_refl. now destruct s.
Qed.

(** [std::max(0.0, std::min(1.0, v))] is the clamp. *)
Lemma clamp_is_clamp_unit (v : float) :
  std_max k0 (std_min k1 v) = clamp_unit v.
Proof.
  unfold std_max, std_min, clamp_unit. cbn [ltb k0 k1 Arith_double].
  assert (Hn : is_nan v = negb (SFeqb (Prim2SF v) (Prim2SF v)))
    by (unfold is_nan; now rewrite eqb_spec).
  pose proof (ltb_spec v 1) as H1. pose proof (ltb_spec 0 v) as H2.
  pose proof (leb_spec v 0) as H3. pose proof (leb_spec 1 v) as H4.
  change (Prim2SF 1) with (S754_finite false 4503599627370496 (-52)) in *.
  change (Prim2SF 0) with (S754_zero false) in *.
  rewrite Hn, H3, H4. clear Hn H3 H4.
  destruct (v <? 1) eqn:E1.
  - rewrite H2. clear H2. unfold SFltb, SFleb, SFeqb in *.
    destruct (Prim2SF v) as [s|s| |s m e];
      try (destruct s; try discriminate; reflexivity); try discriminate.
    rewrite SFcompare_finite_refl. destruct s; [reflexivity|].
    rewrite SFcompare_finite_antisym.
    destruct (SFcompare (S754_finite false m e) _) as [[]|] eqn:E;
      try discriminate.
    reflexivity.
  - change (0 <? 1) with true. cbv iota. clear H2.
    unfold SFltb, SFleb, SFeqb in *.
    destruct (Prim2SF v) as [s|s| |s m e];
      try (destruct s; try discriminate; reflexivity); try reflexivity.
    rewrite SFcompare_finite_refl. destruct s; [discriminate|].
    rewrite SFcompare_finite_antisym.
    destruct (SFcompare (S754_finite false m e) _) as [[]|] eqn:E;
      try discriminate; reflexivity.
Qed.

Lemma clamp_unit_idempotent (v : float) :
  clamp_unit (clamp_unit v) = clamp_unit v.
Proof.
  assert (H : clamp_unit v = 1 \/ clamp_unit v = 0 \/
              (clamp_unit v = v /\ is_nan v = false /\
               (v <=? 0) = false /\ (1 <=? v) = false)).
  { unfold clamp_unit.
    destruct (is_nan v); [now left|].
    destruct (v <=? 0); [now right; left|].
    destruct (1 <=? v); [now left|]. right; right. repeat split. }
  destruct H as [-> | [-> | (-> & En & E0 & E1)]]; try reflexivity.
  unfold clamp_unit. now rewrite En, E0, E1.
Qed.

(** X8.  In binary64 each setter stores the clamp of its argument to
    [[0, 1]]: 0 for an argument that is at most 0, the negative zero
    included, 1 for one that is at least 1 and for NaN, the argument
    itself otherwise; storing the stored value again changes nothing. *)
Theorem setters_store_clamp (s : ButterComp2State float) (v : float) :
  buttercomp2_set_compress (Some s) v
  = Some (with_compress s (clamp_unit v)) /\
  buttercomp2_set_output (Some s) v = Some (with_output s (clamp_unit v)) /\
  buttercomp2_set_dry_wet (Some s) v
  = Some (with_dry_wet s (clamp_unit v)) /\
  buttercomp2_set_compress (buttercomp2_set_compress (Some s) v)
    (clamp_unit v) = buttercomp2_set_compress (Some s) v /\
  buttercomp2_set_output (buttercomp2_set_output (Some s) v)
    (clamp_unit v) = buttercomp2_set_output (Some s) v /\
  buttercomp2_set_dry_wet (buttercomp2_set_dry_wet (Some s) v)
    (clamp_unit v) = buttercomp2_set_dry_wet (Some s) v.
Proof.
  unfold buttercomp2_set_compress, buttercomp2_set_output,
    buttercomp2_set_dry_wet.
  rewrite !clamp_is_clamp_unit, !clamp_unit_idempotent.
  repeat split.
Qed.

(** A parameter as a setter leaves it. *)
Definition stored_parameter (v : float) : Prop :=
  clamp_unit v = v /\ (0 <=? v) = true /\ (v <=? 1) = true.

Lemma clamp_unit_stored (v : float) : stored_parameter (clamp_unit v).
Proof.
  split; [apply clamp_unit_idempotent|].
  rewrite <- clamp_is_clamp_unit. apply clamp_in_unit_interval.
Qed.

(** X9.  In every state an instance goes through in binary64, each of
    compress, output and dry_wet is a number of [[0, 1]], never NaN, and
    is the value the setter would store for it; so each setter called with
    the value its parameter holds leaves the instance as it is. *)
Theorem parameters_stay_in_unit_interval (P : float -> Prop)
  (s : ButterComp2State float) :
  reachable RAND_MAX rand P s ->
  ((0 <=? compress s) = true /\ (compress s <=? 1) = true) /\
  ((0 <=? output s) = true /\ (output s <=? 1) = true) /\
  ((0 <=? dry_wet s) = true /\ (dry_wet s <=? 1) = true) /\
  buttercomp2_set_compress (Some s) (compress s) = Some s /\
  buttercomp2_set_output (Some s) (output s) = Some s /\
  buttercomp2_set_dry_wet (Some s) (dry_wet s) = Some s.
Proof.
  intros Hr.
  assert (Inv : stored_parameter (compress s) /\
                stored_parameter (output s) /\
                stored_parameter (dry_wet s)).
  { revert s Hr. apply (reachable_invariant RAND_MAX rand P
      (fun t => stored_parameter (compress t) /\
                stored_parameter (output t) /\
                stored_parameter (dry_wet t))).
    - intros rate t E. cbn in E. injection E as <-. cbn.
      repeat split; reflexivity.
    - intros t v (_ & H2 & H3). cbn [compress output dry_wet with_compress].
      rewrite clamp_is_clamp_unit.
      split; [apply clamp_unit_stored | split; assumption].
    - intros t v (H1 & _ & H3). cbn [compress output dry_wet with_output].
      rewrite clamp_is_clamp_unit.
      split; [assumption | split; [apply clamp_unit_stored | assumption]].
    - intros t v (H1 & H2 & _). cbn [compress output dry_wet with_dry_wet].
      rewrite clamp_is_clamp_unit.
      split; [assumption | split; [assumption | apply clamp_unit_stored]].
    - intros t H. exact H.
    - intros t ch x k H _.
      destruct (process_channel_params RAND_MAX rand (locals_of t) t ch x k)
        as (_ & E2 & E3 & E4).
      now rewrite E2, E3, E4. }
  destruct Inv as ((C1 & C2 & C3) & (O1 & O2 & O3) & (D1 & D2 & D3)).
  split; [split; assumption|]. split; [split; assumption|].
  split; [split; assumption|].
  unfold buttercomp2_set_compress, buttercomp2_set_output,
    buttercomp2_set_dry_wet.
  rewrite !clamp_is_clamp_unit, C1, O1, D1. destruct s. repeat split.
Qed.

End Binary64Parameters.

(** * NaN in binary64 *)

(** The targets of the channel [ch] are NaN. *)
Definition poisoned (s : ButterComp2State float) (ch : chan) : Prop :=
  aget (target_pos s) ch = nan /\ aget (target_neg s) ch = nan.

Section Binary64NaN.

Variable RAND_MAX : Z.
Variable rand : nat -> Z.

Local Open Scope float_scope.

Lemma nan_mul_l (y : float) : nan * y = nan.
Proof. apply Prim2SF_inj. rewrite mul_spec. reflexivity. Qed.

Lemma nan_mul_r (x : float) : x * nan = nan.
Proof.
  apply Prim2SF_inj. rewrite mul_spec. change (Prim2SF nan) with S754_nan.
  now destruct (Prim2SF x).
Qed.

Lemma nan_add_l (y : float) : nan + y = nan.
Proof. apply Prim2SF_inj. rewrite add_spec. reflexivity. Qed.

Lemma nan_add_r (x : float) : x + nan = nan.
Proof.
  apply Prim2SF_inj. rewrite add_spec. change (Prim2SF nan) with S754_nan.
  now destruct (Prim2SF x).
Qed.

Lemma nan_sub_l (y : float) : nan - y = nan.
Proof. apply Prim2SF_inj. rewrite sub_spec. reflexivity. Qed.

Lemma nan_div_l (y : float) : nan / y = nan.
Proof. apply Prim2SF_inj. rewrite div_spec. reflexivity. Qed.

Lemma nan_div_r (x : float) : x / nan = nan.
Proof.
  apply Prim2SF_inj. rewrite div_spec. change (Prim2SF nan) with S754_nan.
  now destruct (Prim2SF x).
Qed.

Lemma nan_ltb_l (y : float) : (nan <? y) = false.
Proof. rewrite ltb_spec. reflexivity. Qed.

Lemma nan_ltb_r (x : float) : (x <? nan) = false.
Proof.
  rewrite ltb_spec. change (Prim2SF nan) with S754_nan. unfold SFltb.
  now destruct (Prim2SF x).
Qed.

Ltac nan_simpl :=
  repeat first
    [ rewrite nan_mul_l | rewrite nan_mul_r | rewrite nan_add_l
    | rewrite nan_add_r | rewrite nan_sub_l | rewrite nan_div_l
    | rewrite nan_div_r | rewrite nan_ltb_l | rewrite nan_ltb_r
    | progress change (abs nan) with nan
    | progress change (- nan) with nan ].

Ltac double_ops :=
  cbn [ltb mul add sub div neg fabs k0 k1 k0_1 k0_01 k0_999 k0_001 k1_1
       to_float Arith_double].

(** The first stage on a NaN sample, or with NaN targets. *)
Lemma first_stage_nan (c : @Locals float) (s : ButterComp2State float)
  (ch : chan) (x : float) :
  x = nan \/ poisoned s ch ->
  snd (first_stage c s ch x) = nan /\ poisoned (fst (first_stage c s ch x)) ch.
Proof.
  intros H. unfold first_stage, poisoned. double_ops.
  cbn [target_pos target_neg with_target_pos with_target_neg].
  rewrite !aget_aset_same.
  assert (Etp : aget (target_pos s) ch * 0.999
                + abs (x * (1 + compress_amount c * 0.1)) * 0.001 = nan).
  { destruct H as [->|[-> _]]; now nan_simpl. }
  assert (Etn : aget (target_neg s) ch * 0.999
                + - abs (x * (1 + compress_amount c * 0.1)) * 0.001 = nan).
  { destruct H as [->|[_ ->]]; now nan_simpl. }
  rewrite Etp, Etn. nan_simpl.
  destruct (0 <? x * (1 + compress_amount c * 0.1));
    cbn [fst snd target_pos target_neg control_A_pos control_A_neg
         with_control_A_pos with_control_A_neg];
    rewrite !aget_aset_same; nan_simpl; repeat split;
    cbn [target_pos target_neg with_target_pos with_target_neg];
    apply aget_aset_same.
Qed.

Lemma second_stage_nan (c : @Locals float) (s : ButterComp2State float)
  (ch : chan) :
  snd (second_stage c s ch nan) = nan.
Proof.
  rewrite second_stage_unfold. cbn [snd].
  unfold spec_transient, spec_envelope. double_ops.
  change (abs nan) with nan. now nan_simpl.
Qed.

Lemma limit_stage_nan (c : @Locals float) : limit_stage c nan = nan.
Proof. unfold limit_stage. double_ops. now nan_simpl. Qed.

(** The step of a NaN sample, or of any sample when the targets are
    NaN. *)
Lemma process_channel_nan (c : @Locals float) (s : ButterComp2State float)
  (ch : chan) (x : float) (k : nat) :
  x = nan \/ poisoned s ch ->
  snd (fst (process_channel RAND_MAX rand c s ch x k)) = nan /\
  poisoned (fst (fst (process_channel RAND_MAX rand c s ch x k))) ch.
Proof.
  intros H.
  destruct (process_channel_phase RAND_MAX rand c s ch x k)
    as (_ & _ & _ & O).
  cbv zeta in O. rewrite O. clear O.
  assert (Em : mixed c s ch x = nan).
  { unfold mixed, wet_sample.
    destruct (first_stage_nan c s ch x H) as [Ey _].
    destruct (first_stage c s ch x) as [s1 y]. cbn [snd] in Ey. subst y.
    pose proof (second_stage_nan c s1 ch) as Ez.
    destruct (second_stage c s1 ch nan) as [s2 z]. cbn [snd] in Ez. subst z.
    rewrite limit_stage_nan. double_ops. now nan_simpl. }
  rewrite Em. split.
  - double_ops. nan_simpl. now destruct (lnot (fpflip s) =? 0)%Z.
  - unfold process_channel.
    destruct (first_stage_nan c s ch x H) as [_ P1].
    destruct (first_stage c s ch x) as [s1 y]. cbn [fst] in P1.
    assert (P2 : poisoned (fst (second_stage c s1 ch y)) ch).
    { rewrite second_stage_unfold. exact P1. }
    destruct (second_stage c s1 ch y) as [s2 z]. cbn [fst] in P2.
    unfold mix_stage. cbn [fpflip with_fpflip].
    now destruct (lnot (fpflip s2) =? 0)%Z.
Qed.

Lemma process_channel_other_poisoned (c : @Locals float)
  (s : ButterComp2State float) (ch ch' : chan) (x : float) (k : nat) :
  ch <> ch' -> poisoned s ch ->
  poisoned (fst (fst (process_channel RAND_MAX rand c s ch' x k))) ch.
Proof.
  intros Hne [H1 H2].
  pose proof (process_channel_other RAND_MAX rand c s ch ch' x k Hne) as E.
  unfold chan_state in E. injection E as _ _ E1 E2 _.
  unfold poisoned. now rewrite E1, E2.
Qed.

(** X10.  In binary64 a NaN sample is stored back as NaN, whatever the
    state and the parameters (dry_wet 0 included), and leaves the two
    targets of its channel NaN. *)
Theorem nan_sample_poisons_channel (c : @Locals float)
  (s : ButterComp2State float) (ch : chan) (k : nat) :
  snd (fst (process_channel RAND_MAX rand c s ch nan k)) = nan /\
  poisoned (fst (fst (process_channel RAND_MAX rand c s ch nan k))) ch.
Proof. apply process_channel_nan. now left. Qed.

(** X11.  In binary64, once the targets of a channel are NaN, every call
    stores NaN for every sample of that channel, whatever the samples and
    the parameters, and leaves the targets NaN; [buttercomp2_reset] puts
    them back to 0. *)
Theorem poisoned_channel_stores_nan (s : ButterComp2State float) (ch : chan)
  (ls rs : list float) (k : nat) :
  poisoned s ch -> length ls = length rs ->
  exists s' lo ro k',
    buttercomp2_process_stereo RAND_MAX rand (Some s) (Some ls) (Some rs)
      (Z.of_nat (length ls)) k = Some (Some s', Some lo, Some ro, k') /\
    Forall (fun y => y = nan) (aget (lo, ro) ch) /\
    poisoned s' ch /\
    option_map (fun t => (aget (target_pos t) ch, aget (target_neg t) ch))
      (buttercomp2_reset (Some s')) = Some (0, 0).
Proof.
  intros Hp Hlen. rewrite process_stereo_frames by exact Hlen.
  pose proof (process_frames_related RAND_MAX rand (locals_of s)
    (fun t => poisoned t ch) (fun _ => True)
    (fun _ y => ch = ch0 -> y = nan) (fun _ y => ch = ch1 -> y = nan)) as H.
  specialize (H ltac:(
    intros t l r j It _ _; cbv zeta;
    destruct ch;
    [ destruct (process_channel_nan (locals_of s) t ch0 l j (or_intror It))
        as [O1 P1];
      destruct (process_channel RAND_MAX rand (locals_of s) t ch0 l j)
        as [[t1 l'] j1]; cbn [fst snd] in *;
      split; [apply process_channel_other_poisoned;
              [discriminate | exact P1]|];
      split; [intros _; exact O1 | discriminate]
    | pose proof (process_channel_other_poisoned (locals_of s) t ch1 ch0 l j
                    ltac:(discriminate) It) as P1;
      destruct (process_channel RAND_MAX rand (locals_of s) t ch0 l j)
        as [[t1 l'] j1]; cbn [fst snd] in *;
      destruct (process_channel_nan (locals_of s) t1 ch1 r j1 (or_intror P1))
        as [O2 P2];
      split; [exact P2|]; split; [discriminate | intros _; exact O2] ])).
  assert (Hall : forall xs : list float, Forall (fun _ => True) xs)
    by (intros xs; induction xs; constructor; auto).
  specialize (H ls rs s k Hp Hlen (Hall ls) (Hall rs)). cbv zeta in H.
  destruct (process_frames RAND_MAX rand (locals_of s) s ls rs k)
    as [[[s' lo] ro] k'].
  cbn [fst snd] in H. destruct H as (P' & L & R).
  exists s', lo, ro, k'. split; [reflexivity|]. split; [|split].
  - destruct ch; cbn [aget fst snd].
    + clear R Hlen. induction L as [|x y xs ys Hy _ IH]; [constructor|].
      constructor; [apply Hy; reflexivity | exact IH].
    + clear L Hlen. induction R as [|x y xs ys Hy _ IH]; [constructor|].
      constructor; [apply Hy; reflexivity | exact IH].
  - exact P'.
  - destruct ch; reflexivity.
Qed.

End Binary64NaN.

(** * The sample rate 0 in binary64 *)

(** A zero of either sign, or NaN. *)
Definition zero_or_nan (v : float) : Prop :=
  (exists s, Prim2SF v = S754_zero s) \/ v = nan.

(** The controls of an instance that has reduced no gain yet, or has lost
    them to NaN. *)
Definition controls_idle (s : ButterComp2State float) : Prop :=
  forall ch, zero_or_nan (aget (control_A_pos s) ch) /\
             zero_or_nan (aget (control_A_neg s) ch).

Section Binary64ZeroRate.

Variable RAND_MAX : Z.
Variable rand : nat -> Z.

Local Open Scope float_scope.

Lemma zero_or_nan_mul_zero (x : float) : zero_or_nan (x * 0).
Proof.
  unfold zero_or_nan.
  destruct (Prim2SF x) as [s|s| |s m e] eqn:E.
  - left. rewrite mul_spec, E. eexists; reflexivity.
  - right. apply Prim2SF_inj. now rewrite mul_spec, E.
  - right. apply Prim2SF_inj. now rewrite mul_spec, E.
  - left. rewrite mul_spec, E. eexists; reflexivity.
Qed.

Lemma zero_or_nan_mul_tenth (x : float) :
  zero_or_nan x -> zero_or_nan (x * 0.1).
Proof.
  intros [[s E]| ->].
  - left. rewrite mul_spec, E. eexists; reflexivity.
  - right. apply nan_mul_l.
Qed.

Lemma zero_or_nan_sub (x y : float) :
  zero_or_nan x -> zero_or_nan y -> zero_or_nan (x - y).
Proof.
  intros [[s E]| ->] [[s' E']| ->].
  - left. rewrite sub_spec, E, E'. destruct s, s'; eexists; reflexivity.
  - right. apply Prim2SF_inj. rewrite sub_spec, E. reflexivity.
  - right. apply nan_sub_l.
  - right. apply nan_sub_l.
Qed.

Lemma zero_or_nan_mul_infinity (x : float) :
  zero_or_nan x -> x * infinity = nan.
Proof.
  intros [[s E]| ->]; [|apply nan_mul_l].
  apply Prim2SF_inj. rewrite mul_spec, E. reflexivity.
Qed.

(** The first stage at the sample rate 0 with compress 0: the update of
    the control is 0 times infinity. *)
Lemma first_stage_zero_rate (c : @Locals float) (s : ButterComp2State float)
  (ch : chan) (x : float) :
  compress_amount c = 0 -> release_speed c = infinity ->
  controls_idle s ->
  snd (first_stage c s ch x) = nan /\
  controls_idle (fst (first_stage c s ch x)).
Proof.
  intros Hca Hrs Hs. unfold first_stage.
  cbn [ltb mul add sub div neg fabs k0 k1 k0_1 k0_999 k0_001 Arith_double].
  cbn [target_pos target_neg with_target_pos with_target_neg].
  rewrite !aget_aset_same. rewrite Hca, Hrs.
  destruct (Hs ch) as [Hcp Hcn].
  set (tp' := aget (target_pos s) ch * 0.999 + abs (x * (1 + 0 * 0.1)) * 0.001).
  set (tn' := aget (target_neg s) ch * 0.999
              + - abs (x * (1 + 0 * 0.1)) * 0.001).
  destruct (0 <? x * (1 + 0 * 0.1));
    cbn [fst snd control_A_pos control_A_neg with_control_A_pos
         with_control_A_neg with_target_pos with_target_neg];
    rewrite !aget_aset_same.
  - assert (E : (tp' * 0 * 0.1 - aget (control_A_pos s) ch) * infinity = nan)
      by (apply zero_or_nan_mul_infinity, zero_or_nan_sub;
          [apply zero_or_nan_mul_tenth, zero_or_nan_mul_zero | exact Hcp]).
    rewrite E, nan_add_r, nan_add_r, nan_div_r. split; [reflexivity|].
    intros ch'. destruct (Hs ch') as [H1 H2].
    cbn [control_A_pos control_A_neg with_control_A_pos with_control_A_neg
         with_target_pos with_target_neg].
    destruct ch, ch'; cbn [aget aset fst snd] in *; split;
      try assumption; now right.
  - assert (E : (tn' * 0 * 0.1 - aget (control_A_neg s) ch) * infinity = nan)
      by (apply zero_or_nan_mul_infinity, zero_or_nan_sub;
          [apply zero_or_nan_mul_tenth, zero_or_nan_mul_zero | exact Hcn]).
    rewrite E, nan_add_r. change (abs nan) with nan.
    rewrite nan_add_r, nan_div_r. split; [reflexivity|].
    intros ch'. destruct (Hs ch') as [H1 H2].
    cbn [control_A_pos control_A_neg with_control_A_pos with_control_A_neg
         with_target_pos with_target_neg].
    destruct ch, ch'; cbn [aget aset fst snd] in *; split;
      try assumption; now right.
Qed.

Lemma process_channel_zero_rate (c : @Locals float)
  (s : ButterComp2State float) (ch : chan) (x : float) (k : nat) :
  compress_amount c = 0 -> release_speed c = infinity ->
  controls_idle s ->
  snd (fst (process_channel RAND_MAX rand c s ch x k)) = nan /\
  controls_idle (fst (fst (process_channel RAND_MAX rand c s ch x k))).
Proof.
  intros Hca Hrs Hs.
  destruct (process_channel_phase RAND_MAX rand c s ch x k)
    as (_ & _ & _ & O).
  cbv zeta in O. rewrite O. clear O.
  assert (Em : mixed c s ch x = nan).
  { unfold mixed, wet_sample.
    destruct (first_stage_zero_rate c s ch x Hca Hrs Hs) as [Ey _].
    destruct (first_stage c s ch x) as [s1 y]. cbn [snd] in Ey. subst y.
    pose proof (second_stage_nan c s1 ch) as Ez.
    destruct (second_stage c s1 ch nan) as [s2 z]. cbn [snd] in Ez. subst z.
    rewrite limit_stage_nan. cbn [add mul Arith_double].
    now rewrite nan_mul_l, nan_add_r. }
  rewrite Em. split.
  - cbn [add to_float Arith_double]. rewrite nan_add_l.
    now destruct (lnot (fpflip s) =? 0)%Z.
  - unfold process_channel.
    destruct (first_stage_zero_rate c s ch x Hca Hrs Hs) as [_ P1].
    destruct (first_stage c s ch x) as [s1 y]. cbn [fst] in P1.
    assert (P2 : controls_idle (fst (second_stage c s1 ch y))).
    { rewrite second_stage_unfold. exact P1. }
    destruct (second_stage c s1 ch y) as [s2 z]. cbn [fst] in P2.
    unfold mix_stage. cbn [fpflip with_fpflip].
    now destruct (lnot (fpflip s2) =? 0)%Z.
Qed.

(** X12.  In binary64 the sample rate 0, which [buttercomp2_create]
    accepts, makes the release speed infinite: with compress 0, the
    default, on an instance that has reduced no gain yet, every call
    stores NaN for every sample of both channels, whatever the samples,
    output and dry_wet, and goes on doing so. *)
Theorem zero_rate_stores_nan (s : ButterComp2State float)
  (ls rs : list float) (k : nat) :
  sample_rate s = 0 -> compress s = 0 -> controls_idle s ->
  length ls = length rs ->
  exists s' lo ro k',
    buttercomp2_process_stereo RAND_MAX rand (Some s) (Some ls) (Some rs)
      (Z.of_nat (length ls)) k = Some (Some s', Some lo, Some ro, k') /\
    Forall (fun y => y = nan) lo /\ Forall (fun y => y = nan) ro /\
    sample_rate s' = 0 /\ compress s' = 0 /\ controls_idle s'.
Proof.
  intros Hrate Hc Hs Hlen. rewrite process_stereo_frames by exact Hlen.
  assert (Hca : compress_amount (locals_of s) = 0)
    by (unfold locals_of; cbn [compress_amount]; rewrite Hc; reflexivity).
  assert (Hrs : release_speed (locals_of s) = infinity)
    by (unfold locals_of; cbn [release_speed]; rewrite Hrate; reflexivity).
  pose proof (process_frames_params RAND_MAX rand (locals_of s) ls s rs k)
    as (P1 & P2 & _).
  pose proof (process_frames_related RAND_MAX rand (locals_of s)
    controls_idle (fun _ => True)
    (fun _ y => y = nan) (fun _ y => y = nan)) as H.
  specialize (H ltac:(
    intros t l r j It _ _; cbv zeta;
    destruct (process_channel_zero_rate (locals_of s) t ch0 l j Hca Hrs It)
      as [O1 I1];
    destruct (process_channel RAND_MAX rand (locals_of s) t ch0 l j)
      as [[t1 l'] j1]; cbn [fst snd] in *;
    destruct (process_channel_zero_rate (locals_of s) t1 ch1 r j1 Hca Hrs I1)
      as [O2 I2];
    split; [exact I2 | split; [exact O1 | exact O2]])).
  assert (Hall : forall xs : list float, Forall (fun _ => True) xs)
    by (intros xs; induction xs; constructor; auto).
  specialize (H ls rs s k Hs Hlen (Hall ls) (Hall rs)). cbv zeta in H.
  destruct (process_frames RAND_MAX rand (locals_of s) s ls rs k)
    as [[[s' lo] ro] k'].
  cbn [fst snd] in *. destruct H as (I' & L & R).
  exists s', lo, ro, k'. split; [reflexivity|].
  split; [|split; [|repeat split; try congruence; apply I']].
  - clear R Hlen. induction L as [|x y xs ys Hy _ IH]; [constructor|].
    constructor; assumption.
  - clear L Hlen. induction R as [|x y xs ys Hy _ IH]; [constructor|].
    constructor; assumption.
Qed.

End Binary64ZeroRate.

(** * The wet signal in binary64 *)

Section Binary64Wet.

Variable RAND_MAX : Z.
Variable rand : nat -> Z.

Local Open Scope float_scope.

Lemma SFcompare_antisym (X Y : spec_float) :
  SFcompare Y X = option_map CompOpp (SFcompare X Y).
Proof.
  destruct X as [s1|s1| |s1 m1 e1], Y as [s2|s2| |s2 m2 e2];
    try reflexivity; try (destruct s1; reflexivity);
    try (destruct s2; reflexivity);
    try (destruct s1, s2; reflexivity).
  cbn [SFcompare option_map]. f_equal.
  rewrite (Z.compare_antisym e1 e2).
  change (Pos.compare_cont Eq m2 m1) with (Pos.compare m2 m1).
  change (Pos.compare_cont Eq m1 m2) with (Pos.compare m1 m2).
  rewrite (Pos.compare_antisym m1 m2).
  destruct s1, s2; try reflexivity;
    destruct (e1 ?= e2)%Z; cbn [CompOpp]; try reflexivity;
    now destruct (m1 ?= m2)%positive.
Qed.

(** The order of two numbers neither of which is NaN. *)
Lemma not_ltb_leb (a x : float) :
  Prim2SF a <> S754_nan -> Prim2SF x <> S754_nan ->
  (a <? x) = false -> (x <=? a) = true.
Proof.
  rewrite ltb_spec, leb_spec. unfold SFltb, SFleb.
  rewrite (SFcompare_antisym (Prim2SF a) (Prim2SF x)).
  intros Ha Hx.
  destruct (SFcompare (Prim2SF a) (Prim2SF x)) as [[]|] eqn:E;
    cbn; try congruence.
  destruct (Prim2SF a), (Prim2SF x); try discriminate;
    try (now elim Ha); now elim Hx.
Qed.

(** A limited sample is NaN or lies in [[-1, 1]]. *)
Lemma limit_stage_unit (c : @Locals float) (z : float) :
  is_nan (limit_stage c z) = false ->
  (-1 <=? limit_stage c z) = true /\ (limit_stage c z <=? 1) = true.
Proof.
  unfold limit_stage. cbn [ltb mul neg k1 Arith_double].
  set (z1 := z * output_gain c).
  destruct (1 <? z1) eqn:E1.
  - intros _. change ((1 <? - (1))) with false. cbv iota.
    split; reflexivity.
  - destruct (z1 <? - (1)) eqn:E2.
    + intros _. split; reflexivity.
    + intros Hn. apply is_nan_spec in Hn. split.
      * apply not_ltb_leb in E2; [exact E2 | exact Hn | discriminate].
      * apply not_ltb_leb in E1; [exact E1 | discriminate | exact Hn].
Qed.

(** The mix of a finite dry sample at weight 0 with a wet sample at
    weight 1. *)
Lemma mix_wet_only (x w : float) :
  SFfinite (Prim2SF x) -> same_number (x * 0 + w * 1) w.
Proof.
  intros Hx. rewrite Rounding.mul_one.
  assert (Hz : exists s, Prim2SF (x * 0) = S754_zero s).
  { rewrite mul_spec. change (Prim2SF 0) with (S754_zero false).
    destruct Hx as [[s ->]|(s & m & e & ->)]; eexists; reflexivity. }
  destruct Hz as [sz Hz].
  destruct (Prim2SF w) as [s|s| |s m e] eqn:Ew.
  - right. split; [|exists s; exact Ew].
    rewrite add_spec, Ew, Hz. destruct s, sz; eexists; reflexivity.
  - left. apply Prim2SF_inj. rewrite add_spec, Ew, Hz. reflexivity.
  - left. apply Prim2SF_inj. rewrite add_spec, Ew, Hz. reflexivity.
  - left. apply Prim2SF_inj. rewrite add_spec, Ew, Hz. reflexivity.
Qed.

(** X13.  In binary64, with dry_wet 1, in the step of a finite sample from
    any state, under any compress and output setting: the wet sample is
    NaN or a number [w] of [[-1, 1]], and in the second case the value
    stored is [(float)w] on a step without dither and [(float)(w + d)] on
    a step with dither, [d] being the dither of the step; [w] is taken up
    to the sign of a zero. *)
Theorem wet_only_up_to_dither (s0 s : ButterComp2State float) (ch : chan)
  (x : float) (k : nat) :
  dry_wet s0 = 1 -> SFfinite (Prim2SF x) ->
  let c := locals_of s0 in
  let w := wet_sample c s ch x in
  is_nan w = false ->
  (-1 <=? w) = true /\ (w <=? 1) = true /\
  exists w', same_number w' w /\
    snd (fst (process_channel RAND_MAX rand c s ch x k))
    = if (lnot (fpflip s) =? 0)%Z then to_float w'
      else to_float (w' + dither RAND_MAX rand k)%num.
Proof.
  intros Hdw Hx. cbv zeta. intros Hnan.
  assert (Hunit : (-1 <=? wet_sample (locals_of s0) s ch x) = true /\
                  (wet_sample (locals_of s0) s ch x <=? 1) = true).
  { revert Hnan. unfold wet_sample.
    destruct (first_stage (locals_of s0) s ch x) as [s1 y].
    destruct (second_stage (locals_of s0) s1 ch y) as [s2 z].
    apply limit_stage_unit. }
  split; [exact (proj1 Hunit)|]. split; [exact (proj2 Hunit)|].
  exists (mixed (locals_of s0) s ch x). split.
  - unfold mixed.
    assert (Ed : dry (locals_of s0) = 0)
      by (unfold locals_of; cbn [dry]; rewrite Hdw; reflexivity).
    assert (Ew : wet (locals_of s0) = 1)
      by (unfold locals_of; cbn [wet]; exact Hdw).
    rewrite Ed, Ew. cbn [add mul Arith_double].
    now apply mix_wet_only.
  - destruct (process_channel_phase RAND_MAX rand (locals_of s0) s ch x k)
      as (_ & _ & _ & O).
    exact O.
Qed.

End Binary64Wet.

(** * The output gain 0 in binary64 *)

Section Binary64Mute.

Variable RAND_MAX : Z.
Variable rand : nat -> Z.

Local Open Scope float_scope.

(** The limiter at the output gain 0. *)
Lemma limit_stage_mute (c : @Locals float) (z : float) :
  output_gain c = 0 -> zero_or_nan (limit_stage c z).
Proof.
  intros Hg. unfold limit_stage. cbn [ltb mul neg k1 Arith_double].
  rewrite Hg. destruct (zero_or_nan_mul_zero z) as [[s E]|E].
  - assert (H1 : (1 <? z * 0) = false) by (rewrite ltb_spec, E; reflexivity).
    rewrite H1. cbv iota.
    assert (H2 : (z * 0 <? - (1)) = false)
      by (rewrite ltb_spec, E; reflexivity).
    rewrite H2. left. now exists s.
  - rewrite E, nan_ltb_r. cbv iota. rewrite nan_ltb_l. now right.
Qed.

(** X19.  In binary64 the output 0 mutes the wet signal: in the step of
    any sample from any state the wet sample after the limiter is a zero
    or NaN; with dry_wet 1 and a finite input, the value stored is the
    [float] of a zero or NaN on a step without dither, and of the dither
    added to it on a step with dither. *)
Theorem output_zero_mutes_wet (s0 s : ButterComp2State float) (ch : chan)
  (x : float) (k : nat) :
  output s0 = 0 -> dry_wet s0 = 1 -> SFfinite (Prim2SF x) ->
  let c := locals_of s0 in
  zero_or_nan (wet_sample c s ch x) /\
  exists m, zero_or_nan m /\
    snd (fst (process_channel RAND_MAX rand c s ch x k))
    = if (lnot (fpflip s) =? 0)%Z then to_float m
      else to_float (m + dither RAND_MAX rand k)%num.
Proof.
  intros Ho Hdw Hx. cbv zeta.
  assert (Hg : output_gain (locals_of s0) = 0)
    by (unfold locals_of; cbn [output_gain]; rewrite Ho; reflexivity).
  assert (Hw : zero_or_nan (wet_sample (locals_of s0) s ch x)).
  { unfold wet_sample.
    destruct (first_stage (locals_of s0) s ch x) as [s1 y].
    destruct (second_stage (locals_of s0) s1 ch y) as [s2 z].
    now apply limit_stage_mute. }
  split; [exact Hw|].
  exists (mixed (locals_of s0) s ch x). split.
  - unfold mixed.
    assert (Ed : dry (locals_of s0) = 0)
      by (unfold locals_of; cbn [dry]; rewrite Hdw; reflexivity).
    assert (Ew : wet (locals_of s0) = 1)
      by (unfold locals_of; cbn [wet]; exact Hdw).
    rewrite Ed, Ew. cbn [add mul Arith_double].
    destruct (mix_wet_only x (wet_sample (locals_of s0) s ch x) Hx)
      as [E|[Hz _]].
    + now rewrite E.
    + now left.
  - destruct (process_channel_phase RAND_MAX rand (locals_of s0) s ch x k)
      as (_ & _ & _ & O).
    exact O.
Qed.

End Binary64Mute.

(** * The setters and the clip in binary64 *)

Section Binary64Setters.

Local Open Scope float_scope.

Lemma leb_true_ltb_false (a b : float) :
  (a <=? b) = true -> (b <? a) = false.
Proof.
  rewrite ltb_spec, leb_spec. unfold SFltb, SFleb.
  rewrite (SFcompare_antisym (Prim2SF a) (Prim2SF b)).
  destruct (SFcompare (Prim2SF a) (Prim2SF b)) as [[]|]; cbn; congruence.
Qed.

Lemma ltb_true_leb_false (a b : float) :
  (a <? b) = true -> (b <=? a) = false.
Proof.
  rewrite ltb_spec, leb_spec. unfold SFltb, SFleb.
  rewrite (SFcompare_antisym (Prim2SF a) (Prim2SF b)).
  destruct (SFcompare (Prim2SF a) (Prim2SF b)) as [[]|]; cbn; congruence.
Qed.

Lemma leb_true_not_nan (a b : float) : (a <=? b) = true -> is_nan a = false.
Proof.
  unfold is_nan. rewrite leb_spec, eqb_spec. unfold SFleb, SFeqb.
  destruct (Prim2SF a) as [s|s| |s m e]; try (destruct s; reflexivity).
  - discriminate.
  - intros _. now rewrite SFcompare_finite_refl.
Qed.

Lemma is_nan_true (v : float) : is_nan v = true -> v = nan.
Proof.
  unfold is_nan. rewrite eqb_spec. unfold SFeqb. intros H.
  apply Prim2SF_inj. change (Prim2SF nan) with S754_nan.
  destruct (Prim2SF v) as [s|s| |s m e]; try (destruct s; discriminate).
  - reflexivity.
  - now rewrite SFcompare_finite_refl in H.
Qed.

(** C7.  Each of [buttercomp2_set_compress], [buttercomp2_set_output] and
    [buttercomp2_set_dry_wet], given an instance and any [double], returns
    normally and stores a value [c] of [[0, 1]]: the boundary 0 for an
    argument at most 0 (minus infinity and the negative zero included),
    the boundary 1 for an argument at least 1 (plus infinity included) and
    for NaN, and the argument itself when it lies strictly between 0 and
    1.  Given a null instance it returns normally too. *)
Theorem setters_clamp_to_boundary (s : ButterComp2State float) (v : float) :
  let c := clamp_unit v in
  buttercomp2_set_compress (Some s) v = Some (with_compress s c) /\
  buttercomp2_set_output (Some s) v = Some (with_output s c) /\
  buttercomp2_set_dry_wet (Some s) v = Some (with_dry_wet s c) /\
  ((0 <=? c) = true /\ (c <=? 1) = true) /\
  ((v <=? 0) = true -> c = 0) /\
  ((1 <=? v) = true -> c = 1) /\
  (is_nan v = true -> c = 1) /\
  ((0 <? v) = true -> (v <? 1) = true -> c = v) /\
  clamp_unit neg_infinity = 0 /\ clamp_unit infinity = 1 /\
  buttercomp2_set_compress None v = None /\
  buttercomp2_set_output None v = None /\
  buttercomp2_set_dry_wet None v = None.
Proof.
  cbv zeta.
  unfold buttercomp2_set_compress, buttercomp2_set_output,
    buttercomp2_set_dry_wet.
  rewrite !clamp_is_clamp_unit.
  split; [reflexivity|]. split; [reflexivity|]. split; [reflexivity|].
  split; [rewrite <- clamp_is_clamp_unit; apply clamp_in_unit_interval|].
  split; [|split; [|split; [|split]]].
  - intros H. unfold clamp_unit.
    now rewrite (leb_true_not_nan v 0 H), H.
  - intros H. rewrite <- clamp_is_clamp_unit. unfold std_max, std_min.
    cbn [ltb k0 k1 Arith_double].
    now rewrite (leb_true_ltb_false 1 v H).
  - intros H. unfold clamp_unit. now rewrite H.
  - intros H0 H1. rewrite <- clamp_is_clamp_unit. unfold std_max, std_min.
    cbn [ltb k0 k1 Arith_double]. now rewrite H1, H0.
  - repeat split.
Qed.

End Binary64Setters.

Section Binary64Clip.

Variable RAND_MAX : Z.
Variable rand : nat -> Z.

Local Open Scope float_scope.


End Binary64Clip.

(** * Silence in binary64 *)

(** A zero of either sign. *)
Definition a_zero (v : float) : Prop := exists s, Prim2SF v = S754_zero s.

(** The values derived from the parameters are finite. *)
Definition locals_finite (c : @Locals float) : Prop :=
  SFfinite (Prim2SF (compress_amount c)) /\
  SFfinite (Prim2SF (1 + compress_amount c * 0.1)%float) /\
  SFfinite (Prim2SF (output_gain c)) /\
  SFfinite (Prim2SF (wet c)) /\ SFfinite (Prim2SF (dry c)) /\
  SFfinite (Prim2SF (release_speed c)).

(** The running values of both channels are the positive zero. *)
Definition quiet_double (s : ButterComp2State float) : Prop :=
  forall ch, chan_state s ch = (0, 0, 0, 0, 0)%float.

Section Binary64Silence.

Variable RAND_MAX : Z.
Variable rand : nat -> Z.

Local Open Scope float_scope.

Lemma zero_mul_finite (x y : float) :
  a_zero x -> SFfinite (Prim2SF y) -> a_zero (x * y).
Proof.
  intros [s E] [[s' E']|(s' & m & e & E')]; unfold a_zero;
    rewrite mul_spec, E, E'; eexists; reflexivity.
Qed.

Lemma zero_abs (x : float) : a_zero x -> abs x = 0.
Proof.
  intros [s E]. apply Prim2SF_inj. rewrite abs_spec, E. reflexivity.
Qed.

Lemma zero_add_zero (x : float) : a_zero x -> 0 + x = 0.
Proof.
  intros [s E]. apply Prim2SF_inj. rewrite add_spec, E.
  destruct s; reflexivity.
Qed.

Lemma zero_add (x y : float) : a_zero x -> a_zero y -> a_zero (x + y).
Proof.
  intros [s E] [s' E']. unfold a_zero. rewrite add_spec, E, E'.
  destruct s, s'; eexists; reflexivity.
Qed.

Lemma zero_sub_zero (x : float) : a_zero x -> a_zero (x - 0).
Proof.
  intros [s E]. unfold a_zero. rewrite sub_spec, E.
  destruct s; eexists; reflexivity.
Qed.

Lemma zero_div_one (x : float) : a_zero x -> a_zero (x / 1).
Proof.
  intros [s E]. unfold a_zero. rewrite div_spec, E. eexists; reflexivity.
Qed.

Lemma zero_not_above (x : float) : a_zero x -> (0 <? x) = false.
Proof. intros [s E]. rewrite ltb_spec, E. reflexivity. Qed.

Lemma zero_not_above_one (x : float) : a_zero x -> (1 <? x) = false.
Proof. intros [s E]. rewrite ltb_spec, E. reflexivity. Qed.

Lemma zero_not_below_minus_one (x : float) :
  a_zero x -> (x <? - (1)) = false.
Proof. intros [s E]. rewrite ltb_spec, E. reflexivity. Qed.

Lemma zero_to_float (x : float) : a_zero x -> a_zero (float_of_double x).
Proof. intros [s E]. unfold float_of_double. rewrite E. now exists s. Qed.

Lemma first_stage_quiet_double (c : @Locals float)
  (s : ButterComp2State float) (ch : chan) (x : float) :
  locals_finite c -> quiet_double s -> a_zero x ->
  a_zero (snd (first_stage c s ch x)) /\
  quiet_double (fst (first_stage c s ch x)).
Proof.
  intros (Fca & Fc1 & _ & _ & _ & Frs) Hs Hx.
  pose proof (Hs ch) as Hch. unfold chan_state in Hch.
  injection Hch as Hcp Hcn Htp Htn Hav.
  unfold first_stage.
  cbn [ltb mul add sub div neg fabs k0 k1 k0_1 k0_999 k0_001 Arith_double].
  cbn [target_pos target_neg with_target_pos with_target_neg].
  rewrite !aget_aset_same. rewrite Htp, Htn.
  set (cond := x * (1 + compress_amount c * 0.1)).
  assert (Hc : a_zero cond) by now apply zero_mul_finite.
  rewrite (zero_abs cond Hc), (zero_not_above cond Hc).
  change (0 * 0.999 + 0 * 0.001) with 0.
  change (0 * 0.999 + - 0 * 0.001) with 0.
  cbn [fst snd control_A_pos control_A_neg with_control_A_pos
       with_control_A_neg with_target_pos with_target_neg].
  rewrite !aget_aset_same. rewrite Hcn.
  assert (Hb : a_zero (0 * compress_amount c * 0.1)).
  { apply zero_mul_finite; [apply zero_mul_finite; [now exists false|]|].
    - exact Fca.
    - right. now exists false, 7205759403792794%positive, (-56)%Z. }
  assert (Hu : 0 + (0 * compress_amount c * 0.1 - 0) * release_speed c = 0).
  { apply zero_add_zero, zero_mul_finite; [|exact Frs].
    now apply zero_sub_zero. }
  rewrite Hu. change (1 + abs 0) with 1. split.
  - now apply zero_div_one.
  - intros ch'. pose proof (Hs ch') as Hch'. unfold chan_state in *.
    cbn [control_A_pos control_A_neg target_pos target_neg avg_A
         with_control_A_neg with_target_pos with_target_neg].
    destruct ch, ch'; cbn [aget aset fst snd] in *; congruence.
Qed.

Lemma second_stage_quiet_double (c : @Locals float)
  (s : ButterComp2State float) (ch : chan) (y : float) :
  quiet_double s -> a_zero y ->
  snd (second_stage c s ch y) = y /\
  quiet_double (fst (second_stage c s ch y)).
Proof.
  intros Hs Hy.
  pose proof (Hs ch) as Hch. unfold chan_state in Hch.
  injection Hch as Hcp Hcn Htp Htn Hav.
  rewrite second_stage_unfold. cbn [fst snd].
  unfold spec_transient, spec_envelope.
  cbn [ltb mul add fabs k0_999 k0_001 k1_1 Arith_double].
  rewrite Hav, (zero_abs y Hy).
  change (0 <? 0) with false. cbv iota.
  change (0 * 0.999 + 0 * 0.001) with 0.
  change (0 * 1.1 <? 0) with false. cbv iota.
  split; [reflexivity|].
  intros ch'. pose proof (Hs ch') as Hch'. unfold chan_state in *.
  cbn [control_A_pos control_A_neg target_pos target_neg avg_A with_avg_A].
  destruct ch, ch'; cbn [aget aset fst snd] in *; congruence.
Qed.

Lemma limit_stage_quiet_double (c : @Locals float) (z : float) :
  locals_finite c -> a_zero z -> a_zero (limit_stage c z).
Proof.
  intros (_ & _ & Fg & _) Hz. unfold limit_stage.
  cbn [ltb mul neg k1 Arith_double].
  assert (H : a_zero (z * output_gain c)) by now apply zero_mul_finite.
  rewrite (zero_not_above_one _ H). cbv iota.
  rewrite (zero_not_below_minus_one _ H). exact H.
Qed.

(** The step of a zero in a state whose running values are 0. *)
Lemma channel_quiet_double (c : @Locals float) (s : ButterComp2State float)
  (ch : chan) (x : float) (k : nat) :
  locals_finite c -> quiet_double s -> a_zero x ->
  a_zero (mixed c s ch x) /\
  quiet_double (fst (fst (process_channel RAND_MAX rand c s ch x k))).
Proof.
  intros Hc Hs Hx. unfold mixed, wet_sample, process_channel.
  destruct (first_stage_quiet_double c s ch x Hc Hs Hx) as [Hy H1].
  destruct (first_stage c s ch x) as [s1 y]. cbn [fst snd] in *.
  destruct (second_stage_quiet_double c s1 ch y H1 Hy) as [Ez H2].
  destruct (second_stage c s1 ch y) as [s2 z]. cbn [fst snd] in *.
  subst z. pose proof (limit_stage_quiet_double c y Hc Hy) as Hw.
  destruct Hc as (_ & _ & _ & Fw & Fd & _).
  split.
  - cbn [mul add Arith_double].
    apply zero_add; now apply zero_mul_finite.
  - intros ch'. rewrite mix_stage_chan_state. apply H2.
Qed.

(** X14.  In binary64 silence stays silence: on an instance whose running
    values are 0 (a new one, or one after [buttercomp2_reset]), in the
    dither phase 1, with finite derived values, a call on buffers of
    zeros stores a zero for every sample of the left channel and, for
    every sample of the right channel, the [float] of its dither added to
    a zero; it leaves the running values at 0. *)
Theorem silence_stays_silent_binary64 (s : ButterComp2State float)
  (ls rs : list float) (k : nat) :
  locals_finite (locals_of s) -> quiet_double s -> fpflip s = 1%Z ->
  length ls = length rs -> Forall a_zero ls -> Forall a_zero rs ->
  exists s' lo ro k',
    buttercomp2_process_stereo RAND_MAX rand (Some s) (Some ls) (Some rs)
      (Z.of_nat (length ls)) k = Some (Some s', Some lo, Some ro, k') /\
    Forall a_zero lo /\
    Forall (fun y => exists z j, a_zero z /\
              y = to_float (z + dither RAND_MAX rand j)%num) ro /\
    quiet_double s' /\ fpflip s' = 1%Z.
Proof.
  intros Hc Hs Hf Hlen Hl Hr.
  rewrite process_stereo_frames by exact Hlen.
  pose proof (process_frames_related RAND_MAX rand (locals_of s)
    (fun t => fpflip t = 1%Z /\ quiet_double t) a_zero
    (fun _ y => a_zero y)
    (fun _ y => exists z j, a_zero z /\
                  y = to_float (z + dither RAND_MAX rand j)%num)) as H.
  specialize (H ltac:(
    intros t l r j [Ft It] Pl Pr; cbv zeta;
    destruct (channel_quiet_double (locals_of s) t ch0 l j Hc It Pl)
      as [C1 I1];
    destruct (process_channel_phase RAND_MAX rand (locals_of s) t ch0 l j)
      as (F1 & _ & K1 & O1);
    rewrite Ft in F1, K1, O1; cbn [lnot Z.eqb] in F1, K1, O1;
    destruct (process_channel RAND_MAX rand (locals_of s) t ch0 l j)
      as [[t1 l'] j1]; cbn [fst snd] in *;
    destruct (channel_quiet_double (locals_of s) t1 ch1 r j1 Hc I1 Pr)
      as [C2 I2];
    destruct (process_channel_phase RAND_MAX rand (locals_of s) t1 ch1 r j1)
      as (F2 & _ & K2 & O2);
    rewrite F1 in F2, K2, O2; cbn [lnot Z.eqb] in F2, K2, O2;
    destruct (process_channel RAND_MAX rand (locals_of s) t1 ch1 r j1)
      as [[t2 r'] j2]; cbn [fst snd] in *;
    split; [split; assumption|]; split;
    [ rewrite O1; now apply zero_to_float
    | exists (mixed (locals_of s) t1 ch1 r), j1; split;
      [exact C2 | exact O2] ])).
  specialize (H ls rs s k (conj Hf Hs) Hlen Hl Hr). cbv zeta in H.
  destruct (process_frames RAND_MAX rand (locals_of s) s ls rs k)
    as [[[s' lo] ro] k'].
  cbn [fst snd] in *. destruct H as ((F' & I') & L & R).
  exists s', lo, ro, k'. split; [reflexivity|].
  split; [|split; [|split; assumption]].
  - clear R Hlen Hl. induction L as [|x y xs ys Hy _ IH]; [constructor|].
    constructor; assumption.
  - clear L Hlen Hr. induction R as [|x y xs ys Hy _ IH]; [constructor|].
    constructor; assumption.
Qed.

End Binary64Silence.

(** * More of the engine in exact arithmetic *)

Local Open Scope Q_scope.

(** A stored sample [y] on the side of zero of its input [x], up to the
    dither. *)
Definition same_side (x y : Q) : Prop :=
  (0 <= x -> - dither_eps <= y) /\ (x <= 0 -> y <= dither_eps).

(** [w] is [x] clipped to [[-1, 1]]. *)
Definition hard_clipped (x w : Q) : Prop :=
  (- (1) <= x <= 1 -> w == x) /\ (1 <= x -> w == 1) /\
  (x <= - (1) -> w == - (1)).

(** The instance as [buttercomp2_create] makes it, as far as the stored
    samples depend on it: compress 0, output 0.5, dry_wet 1, the dither
    phase 1, no gain reduction under way. *)
Definition at_defaults (s : ButterComp2State Q) : Prop :=
  compress s == 0 /\ output s == 1 # 2 /\ dry_wet s == 1 /\
  fpflip s = 1%Z /\
  forall ch,
    aget (control_A_pos s) ch == 0 /\ aget (control_A_neg s) ch == 0 /\
    0 <= aget (avg_A s) ch.

Section ExactTargets.

Variable RAND_MAX : Z.
Variable rand : nat -> Z.

Local Abbreviation State := (ButterComp2State Q).

Lemma mix_stage_frame (c : Locals) (s : State) (d w : Q) (k : nat) :
  let s' := fst (fst (mix_stage RAND_MAX rand c s d w k)) in
  target_pos s' = target_pos s /\ target_neg s' = target_neg s /\
  control_A_pos s' = control_A_pos s /\ control_A_neg s' = control_A_neg s /\
  avg_A s' = avg_A s /\ fpflip s' = lnot (fpflip s).
Proof.
  cbv zeta. unfold mix_stage. cbn [fpflip with_fpflip].
  destruct (lnot (fpflip s) =? 0)%Z; repeat split.
Qed.

(** ** The targets *)

Lemma first_stage_targets (c : Locals) (s : State) (ch : chan) (x : Q) :
  (forall ch', aget (target_neg s) ch' == - aget (target_pos s) ch') ->
  forall ch',
    aget (target_neg (fst (first_stage c s ch x))) ch'
    == - aget (target_pos (fst (first_stage c s ch x))) ch'.
Proof.
  intros H ch'. unfold first_stage.
  cbn [ltb mul add sub div neg fabs k0 k1 k0_1 k0_999 k0_001 Arith_Q].
  pose proof (H ch0) as H0. pose proof (H ch1) as H1.
  destruct (Qltb _ _); simpl_state;
    destruct ch, ch'; cbn [aget aset fst snd] in *; lra.
Qed.

(** X15.  In exact arithmetic, in every state an instance goes through,
    the negative target of each channel is the negation of its positive
    target: [target_neg[ch] = - target_pos[ch]]. *)
Theorem targets_are_mirrored (P : Q -> Prop) (s : State) (ch : chan) :
  reachable RAND_MAX rand P s ->
  aget (target_neg s) ch == - aget (target_pos s) ch.
Proof.
  intros Hr. revert ch. revert s Hr.
  apply (reachable_invariant RAND_MAX rand P
           (fun t => forall ch,
              aget (target_neg t) ch == - aget (target_pos t) ch)).
  - intros rate t E. cbn in E. injection E as <-. intros []; cbn; lra.
  - intros t v H. exact H.
  - intros t v H. exact H.
  - intros t v H. exact H.
  - intros t _ []; cbn; lra.
  - intros t ch x k H _. unfold process_channel.
    pose proof (first_stage_targets (locals_of t) t ch x H) as H1.
    destruct (first_stage (locals_of t) t ch x) as [s1 y]. cbn [fst] in H1.
    pose proof (second_stage_frame (locals_of t) s1 ch y ch) as F2.
    cbv zeta in F2. destruct F2 as (E1 & E2 & _).
    destruct (second_stage (locals_of t) s1 ch y) as [s2 z]. cbn [fst] in *.
    pose proof (mix_stage_frame (locals_of t) s2 x
                  (limit_stage (locals_of t) z) k) as F3.
    cbv zeta in F3. destruct F3 as (E3 & E4 & _).
    intros ch'. rewrite E3, E4, E1, E2. apply H1.
Qed.

End ExactTargets.

Section ExactConduct.

Variable RAND_MAX : Z.
Variable rand : nat -> Z.

Local Abbreviation State := (ButterComp2State Q).

(** ** The side of zero of a sample *)

Lemma reachable_parameters_exact (P : Q -> Prop) (s : State) :
  reachable RAND_MAX rand P s ->
  0 <= compress s <= 1 /\ 0 <= output s <= 1 /\ 0 <= dry_wet s <= 1.
Proof.
  apply (reachable_invariant RAND_MAX rand P
           (fun t => 0 <= compress t <= 1 /\ 0 <= output t <= 1 /\
                     0 <= dry_wet t <= 1)).
  - intros rate t E. cbn in E. injection E as <-. cbn. lra.
  - intros t v (_ & H2 & H3). simpl_state.
    split; [apply clamp_in_unit_interval_Q | split; assumption].
  - intros t v (H1 & _ & H3). simpl_state.
    split; [assumption | split; [apply clamp_in_unit_interval_Q | assumption]].
  - intros t v (H1 & H2 & _). simpl_state.
    split; [assumption | split; [assumption | apply clamp_in_unit_interval_Q]].
  - intros t H. exact H.
  - intros t ch x k H _.
    destruct (process_channel_params RAND_MAX rand (locals_of t) t ch x k)
      as (_ & E2 & E3 & E4).
    now rewrite E2, E3, E4.
Qed.

Lemma reachable_bounded (B : Q) (s : State) :
  0 <= B -> reachable RAND_MAX rand (fun x => Qabs x <= B) s ->
  (1 # 1000) <= sample_rate s -> state_bounded B s.
Proof.
  intros HB Hr Hrate.
  enough (Inv : (1 # 1000) <= sample_rate s ->
                0 <= compress s <= 1 /\ state_bounded B s)
    by exact (proj2 (Inv Hrate)).
  clear Hrate. revert s Hr.
  apply (reachable_invariant RAND_MAX rand _
           (fun t => (1 # 1000) <= sample_rate t ->
                     0 <= compress t <= 1 /\ state_bounded B t)).
  - intros rate t E. cbn in E. injection E as <-. intros _.
    split; [cbn; lra|]. intros []; unfold chan_bounded; cbn;
      repeat split; lra.
  - intros t v H Hrt. simpl_state. split.
    + apply clamp_in_unit_interval_Q.
    + exact (proj2 (H Hrt)).
  - intros t v H Hrt. exact (H Hrt).
  - intros t v H Hrt. exact (H Hrt).
  - intros t H Hrt. split; [exact (proj1 (H Hrt))|].
    intros []; unfold chan_bounded; cbn; repeat split; lra.
  - intros t ch x j H Px Hrt.
    destruct (process_channel_params RAND_MAX rand (locals_of t) t ch x j)
      as (E1 & E2 & _).
    rewrite E1 in Hrt. destruct (H Hrt) as [Hc Hb]. rewrite E2.
    split; [exact Hc|].
    apply process_channel_bounded; try assumption.
    now apply locals_of_ok.
Qed.

Lemma limit_stage_sign (c : Locals) (y : Q) :
  0 <= output_gain c ->
  (0 <= y -> 0 <= limit_stage c y) /\ (y <= 0 -> limit_stage c y <= 0).
Proof.
  intros Hg. unfold limit_stage. cbn [ltb mul k1 neg Arith_Q].
  assert (Hp : 0 <= y -> 0 <= y * output_gain c)
    by (intros; now apply Qmult_le_0_compat).
  assert (Hn : y <= 0 -> y * output_gain c <= 0).
  { intros Hy. assert (0 <= (- y) * output_gain c)
      by (apply Qmult_le_0_compat; lra). lra. }
  destruct (Qltb 1 (y * output_gain c)) eqn:E1;
    [apply Qltb_true in E1 | apply Qltb_false in E1];
    case_ltb; split; intros Hy;
    try specialize (Hp Hy); try specialize (Hn Hy); lra.
Qed.

(** The step of a sample in a bounded state. *)
Lemma channel_same_side (B : Q) (s0 s : State) (ch : chan) (x : Q)
  (k : nat) :
  (0 < RAND_MAX)%Z -> (forall j, 0 <= rand j <= RAND_MAX)%Z ->
  0 <= compress s0 <= 1 -> 0 <= output s0 <= 1 -> 0 <= dry_wet s0 <= 1 ->
  (1 # 1000) <= sample_rate s0 ->
  state_bounded B s -> Qabs x <= B ->
  same_side x
    (snd (fst (process_channel RAND_MAX rand (locals_of s0) s ch x k))).
Proof.
  intros HRM Hrand Hc Ho Ht Hrate Hs Hx.
  pose proof (locals_of_ok s0 Hc Hrate) as Hok.
  unfold process_channel.
  destruct (first_stage_bounded B (locals_of s0) s ch x Hok Hs Hx)
    as (H1 & _ & (d & Hd & Ey)).
  destruct (first_stage (locals_of s0) s ch x) as [s1 y].
  cbn [fst snd] in *.
  destruct (H1 ch) as (_ & _ & _ & _ & Hav & _).
  destruct (second_stage_no_division (locals_of s0) s1 ch y (proj1 Hav))
    as (_ & E2 & _).
  rewrite E2.
  pose proof (mix_stage_output RAND_MAX rand (locals_of s0)
                (fst (second_stage (locals_of s0) s1 ch y)) x
                (limit_stage (locals_of s0) y) k HRM Hrand) as Hout.
  set (out := snd _) in *.
  assert (Hg : 0 <= output_gain (locals_of s0))
    by (cbn [locals_of output_gain mul k2 Arith_Q]; lra).
  destruct (limit_stage_sign (locals_of s0) y Hg) as [Wp Wn].
  pose proof (limit_stage_range (locals_of s0) y) as Wr.
  set (w := limit_stage (locals_of s0) y) in *.
  change (dry (locals_of s0)) with (1 - dry_wet s0) in Hout.
  change (wet (locals_of s0)) with (dry_wet s0) in Hout.
  destruct Hok as [Hca _].
  set (ca := compress_amount (locals_of s0)) in *.
  assert (Yp : 0 <= x -> 0 <= y).
  { intros Hx0. rewrite Ey. apply Qle_shift_div_l; [lra | nra]. }
  assert (Yn : x <= 0 -> y <= 0).
  { intros Hx0. rewrite Ey. apply Qle_shift_div_r; [lra | nra]. }
  split; intros Hx0.
  - specialize (Wp (Yp Hx0)). nra.
  - specialize (Wn (Yn Hx0)). nra.
Qed.

(** ** The instance at its defaults *)

Lemma Qdiv_one (a d : Q) : d == 1 -> a / d == a.
Proof. intros ->. field. Qed.

Lemma first_stage_at_defaults (c : Locals) (s : State) (ch : chan) (x : Q) :
  compress_amount c == 0 ->
  (forall ch', aget (control_A_pos s) ch' == 0 /\
               aget (control_A_neg s) ch' == 0 /\
               0 <= aget (avg_A s) ch') ->
  snd (first_stage c s ch x) == x /\
  (forall ch', aget (control_A_pos (fst (first_stage c s ch x))) ch' == 0 /\
               aget (control_A_neg (fst (first_stage c s ch x))) ch' == 0 /\
               0 <= aget (avg_A (fst (first_stage c s ch x))) ch').
Proof.
  intros Hca Hs. unfold first_stage.
  cbn [ltb mul add sub div neg fabs k0 k1 k0_1 k0_999 k0_001 Arith_Q].
  cbn [target_pos target_neg with_target_pos with_target_neg].
  rewrite !aget_aset_same.
  set (cond := x * (1 + compress_amount c * (1 # 10))).
  assert (Econd : cond == x) by (unfold cond; rewrite Hca; ring).
  set (tp' := aget (target_pos s) ch * (999 # 1000) + Qabs cond * (1 # 1000)).
  set (tn' := aget (target_neg s) ch * (999 # 1000)
              + - Qabs cond * (1 # 1000)).
  destruct (Hs ch) as (Hcp & Hcn & _).
  destruct (Qltb 0 cond); simpl_state; rewrite !aget_aset_same.
  - set (cp' := aget (control_A_pos s) ch
                + (tp' * compress_amount c * (1 # 10)
                   - aget (control_A_pos s) ch) * release_speed c).
    assert (Ecp : cp' == 0) by (unfold cp'; rewrite Hca, Hcp; ring).
    split.
    + rewrite Qdiv_one by (rewrite Ecp; ring). exact Econd.
    + intros ch'. destruct (Hs ch') as (H1 & H2 & H3).
      destruct ch, ch'; cbn [aget aset fst snd] in *;
        repeat split; assumption.
  - set (cn' := aget (control_A_neg s) ch
                + (tn' * compress_amount c * (1 # 10)
                   - aget (control_A_neg s) ch) * release_speed c).
    assert (Ecn : cn' == 0) by (unfold cn'; rewrite Hca, Hcn; ring).
    split.
    + rewrite Qdiv_one by (rewrite Ecn; reflexivity). exact Econd.
    + intros ch'. destruct (Hs ch') as (H1 & H2 & H3).
      destruct ch, ch'; cbn [aget aset fst snd] in *;
        repeat split; assumption.
Qed.

Lemma limit_stage_clips (c : Locals) (x y : Q) :
  output_gain c == 1 -> y == x -> hard_clipped x (limit_stage c y).
Proof.
  intros Hg Hy. unfold limit_stage, hard_clipped.
  cbn [ltb mul k1 neg Arith_Q].
  assert (E : y * output_gain c == x) by (rewrite Hg, Hy; ring).
  destruct (Qltb 1 (y * output_gain c)) eqn:E1;
    [apply Qltb_true in E1 | apply Qltb_false in E1];
    case_ltb; repeat split; intros; lra.
Qed.

(** The step of a sample on an instance at its defaults. *)
Lemma channel_at_defaults (c : Locals) (s : State) (ch : chan) (x : Q)
  (k : nat) :
  compress_amount c == 0 -> output_gain c == 1 -> wet c == 1 ->
  dry c == 0 ->
  (forall ch', aget (control_A_pos s) ch' == 0 /\
               aget (control_A_neg s) ch' == 0 /\
               0 <= aget (avg_A s) ch') ->
  let s' := fst (fst (process_channel RAND_MAX rand c s ch x k)) in
  hard_clipped x (mixed c s ch x) /\
  (forall ch', aget (control_A_pos s') ch' == 0 /\
               aget (control_A_neg s') ch' == 0 /\
               0 <= aget (avg_A s') ch').
Proof.
  intros Hca Hg Hw Hd Hs. cbv zeta.
  unfold mixed, wet_sample, process_channel.
  destruct (first_stage_at_defaults c s ch x Hca Hs) as [Ey H1].
  destruct (first_stage c s ch x) as [s1 y]. cbn [fst snd] in *.
  destruct (H1 ch) as (_ & _ & Hav).
  destruct (second_stage_no_division c s1 ch y Hav) as (_ & E2 & Hav2).
  pose proof (second_stage_frame c s1 ch y) as F2. cbv zeta in F2.
  rewrite E2 in *. cbn [fst snd] in *.
  set (s2 := fst (second_stage c s1 ch y)) in *.
  pose proof (limit_stage_clips c x y Hg Ey) as Hclip.
  set (w := limit_stage c y) in *.
  split.
  - cbn [mul add Arith_Q].
    assert (E : x * dry c + w * wet c == w) by (rewrite Hd, Hw; ring).
    unfold hard_clipped in *. rewrite E. exact Hclip.
  - pose proof (mix_stage_frame RAND_MAX rand c s2 x w k) as F3.
    cbv zeta in F3. destruct F3 as (_ & _ & E3 & E4 & E5 & _).
    intros ch'. rewrite E3, E4, E5.
    destruct (F2 ch') as (_ & _ & E6 & E7 & _ & _ & _ & _ & _ & E8).
    rewrite E6, E7. destruct (H1 ch') as (C1 & C2 & C3).
    split; [exact C1|]. split; [exact C2|].
    destruct ch, ch'; try exact Hav2; rewrite E8 by discriminate; exact C3.
Qed.

End ExactConduct.

(** * Instances in memory *)

Section Heap.

Context {num : Type} {AR : Arith num}.

Local Abbreviation State := (ButterComp2State num).

(** A [ButterComp2State*]: the null pointer, or the address of a block. *)
Definition pointer : Type := option nat.

(** The blocks that [calloc] handed out and [free] has not taken back,
    each with the instance it holds. *)
Definition Heap : Type := nat -> option State.

Definition heap_set (h : Heap) (a : nat) (v : option State) : Heap :=
  fun b => if Nat.eqb b a then v else h b.

(** [*state] as the functions of the engine take it.  A pointer that is
    neither null nor the address of a live block has no pointee. *)
Definition load (h : Heap) (state : pointer) : option (option State) :=
  match state with
  | None => Some None
  | Some a => option_map Some (h a)
  end.

(** [buttercomp2_create] in memory: [block] is what [calloc] returns, null
    or the address of a block that was free. *)
Definition create_in (h : Heap) (block : pointer) (sample_rate : num)
  : Heap * pointer :=
  match block with
  | None => (h, None)
  | Some a =>
    match buttercomp2_create true sample_rate with
    | Some s => (heap_set h a (Some s), Some a)
    | None => (h, None)
    end
  end.

(** [buttercomp2_destroy]: nothing for the null pointer, [free(state)]
    otherwise.  [free] of an address that is not a live block has no
    defined behaviour: the result is [None]. *)
Definition buttercomp2_destroy (h : Heap) (state : pointer) : option Heap :=
  match state with
  | None => Some h
  | Some a =>
    match h a with
    | Some _ => Some (heap_set h a None)
    | None => None
    end
  end.

(** A setter or [buttercomp2_reset] called with the pointer [state]. *)
Definition call_in (f : option State -> option State) (h : Heap)
  (state : pointer) : option Heap :=
  match load h state with
  | None => None
  | Some st =>
    match state, f st with
    | Some a, Some s' => Some (heap_set h a (Some s'))
    | _, _ => Some h
    end
  end.

Lemma heap_set_same (h : Heap) (a : nat) (v : option State) :
  heap_set h a v a = v.
Proof. unfold heap_set. now rewrite Nat.eqb_refl. Qed.

Lemma heap_set_other (h : Heap) (a b : nat) (v : option State) :
  b <> a -> heap_set h a v b = h b.
Proof.
  intros Hne. unfold heap_set.
  now destruct (Nat.eqb_spec b a) as [E|_]; [elim Hne|].
Qed.

Lemma heap_set_released (h : Heap) (a b : nat) (v1 v2 v3 : option State) :
  h a = None ->
  heap_set (heap_set (heap_set (heap_set h a v1) a v2) a v3) a None b = h b.
Proof.
  intros Hfree. destruct (Nat.eq_dec b a) as [->|Hne].
  - now rewrite heap_set_same.
  - now rewrite !heap_set_other by exact Hne.
Qed.

(** X18.  [buttercomp2_destroy] does nothing for the null pointer.  For an
    instance that [buttercomp2_create] made at a free address and setters
    and [buttercomp2_reset] then changed, it releases the block and leaves
    the memory as it was before the creation, the other instances
    untouched; it cannot clear the pointer of its caller, so a second
    [buttercomp2_destroy], or any setter or reset through that pointer,
    has no defined behaviour. *)
Theorem destroy_releases_instance (h : Heap) (a : nat) (rate v : num) :
  h a = None ->
  buttercomp2_destroy h None = Some h /\
  exists h1 h2 h3 h4,
    create_in h (Some a) rate = (h1, Some a) /\
    call_in (fun st => buttercomp2_set_compress st v) h1 (Some a)
    = Some h2 /\
    call_in buttercomp2_reset h2 (Some a) = Some h3 /\
    buttercomp2_destroy h3 (Some a) = Some h4 /\
    (forall b, h4 b = h b) /\
    buttercomp2_destroy h4 (Some a) = None /\
    call_in buttercomp2_reset h4 (Some a) = None /\
    call_in (fun st => buttercomp2_set_compress st v) h4 (Some a) = None.
Proof.
  intros Hfree. split; [reflexivity|].
  unfold create_in, call_in, load, buttercomp2_destroy.
  cbn [buttercomp2_create negb].
  eexists _, _, _, _. split; [reflexivity|].
  rewrite heap_set_same. cbn [option_map buttercomp2_set_compress].
  split; [reflexivity|].
  rewrite heap_set_same. cbn [option_map buttercomp2_reset].
  split; [reflexivity|].
  rewrite heap_set_same. split; [reflexivity|].
  split; [intros b; now apply heap_set_released|].
  rewrite !heap_set_same. repeat split.
Qed.

End Heap.

(** * Further runs *)

Section FurtherRuns.

Local Open Scope float_scope.

(** X1 at an instance: two of three samples, at 48000 Hz. *)
Lemma process_leaves_tail_witness :
  exists s' lo ro k',
    buttercomp2_process_stereo RAND_MAX_glibc rand_zero (Some fresh_double)
      (Some (firstn 2 [0.5; -0.25; 0.375]))
      (Some (firstn 2 [0.125; 0.75; -0.5])) (Z.of_nat 2) 0
    = Some (Some s', Some lo, Some ro, k') /\
    buttercomp2_process_stereo RAND_MAX_glibc rand_zero (Some fresh_double)
      (Some [0.5; -0.25; 0.375]) (Some [0.125; 0.75; -0.5]) (Z.of_nat 2) 0
    = Some (Some s', Some (lo ++ skipn 2 [0.5; -0.25; 0.375]),
            Some (ro ++ skipn 2 [0.125; 0.75; -0.5]), k') /\
    length lo = 2%nat /\ length ro = 2%nat.
Proof.
  apply (process_leaves_tail RAND_MAX_glibc rand_zero fresh_double
           [0.5; -0.25; 0.375] [0.125; 0.75; -0.5] 2 0%nat); cbn; lia.
Defined.

(** X3 at an instance: two samples per channel. *)
Lemma process_keeps_parameters_witness :
  exists s' lo ro k',
    buttercomp2_process_stereo RAND_MAX_glibc rand_zero (Some fresh_double)
      (Some [0.5; -0.25]) (Some [0.125; 0.75]) 2 0
    = Some (Some s', Some lo, Some ro, k') /\
    sample_rate s' = sample_rate fresh_double /\
    compress s' = compress fresh_double /\
    output s' = output fresh_double /\
    dry_wet s' = dry_wet fresh_double /\
    idle_arrays s' = idle_arrays fresh_double.
Proof.
  exact (process_keeps_parameters RAND_MAX_glibc rand_zero fresh_double
           [0.5; -0.25] [0.125; 0.75] 0%nat eq_refl).
Defined.

(** The instance [buttercomp2_create] returns for 48000 Hz. *)
Definition created_double : ButterComp2State float :=
  mkState 48000 0 0.5 1 (0, 0) (0, 0) (0, 0) (0, 0) (0, 0)
    (0, 0) (0, 0) (0, 0) (0, 0) (0, 0) 1%Z.

(** The state after the first sample 0.5 of the left channel. *)
Definition after_sample : ButterComp2State float :=
  fst (fst (process_channel RAND_MAX_glibc rand_zero
              (locals_of fresh_double) fresh_double ch0 0.5 0)).

Lemma after_sample_reachable :
  reachable RAND_MAX_glibc rand_zero (fun _ => True) after_sample.
Proof.
  apply reach_sample; [|exact I].
  apply (reach_set_compress RAND_MAX_glibc rand_zero _ created_double _ 0.75);
    [|reflexivity].
  now apply (reach_create RAND_MAX_glibc rand_zero _ 48000).
Defined.

(** X4 at an instance. *)
Lemma idle_arrays_stay_zero_witness :
  idle_arrays after_sample = ((0, 0), (0, 0), (0, 0), (0, 0), (0, 0)).
Proof.
  exact (idle_arrays_stay_zero RAND_MAX_glibc rand_zero (fun _ => True)
           after_sample after_sample_reachable).
Defined.

(** X5 at an instance: two samples per channel. *)
Lemma dither_on_right_channel_only_witness :
  exists s' lo ro k',
    buttercomp2_process_stereo RAND_MAX_glibc rand_zero (Some fresh_double)
      (Some [0.5; -0.25]) (Some [0.125; 0.75]) 2 0
    = Some (Some s', Some lo, Some ro, k') /\
    fpflip s' = 1%Z /\ k' = (0 + 2)%nat /\
    (forall i x, nth_error [0.5; -0.25] i = Some x ->
       exists t, nth_error lo i
                 = Some (to_float (mixed (locals_of fresh_double) t ch0 x))) /\
    (forall i x, nth_error [0.125; 0.75] i = Some x ->
       exists t, nth_error ro i
                 = Some (to_float
                           (mixed (locals_of fresh_double) t ch1 x
                            + dither RAND_MAX_glibc rand_zero (0 + i))%num)).
Proof.
  exact (dither_on_right_channel_only RAND_MAX_glibc rand_zero fresh_double
           [0.5; -0.25] [0.125; 0.75] 0%nat eq_refl eq_refl).
Defined.

(** X6 at an instance: after [buttercomp2_set_compress] with 0.75. *)
Lemma reset_restores_created_state_witness :
  let s := fresh_double in
  fpflip s = 1%Z /\
  buttercomp2_reset (Some s)
  = option_map
      (fun t => with_dry_wet (with_output (with_compress t (compress s))
                                (output s)) (dry_wet s))
      (buttercomp2_create true (sample_rate s)).
Proof.
  apply (reset_restores_created_state RAND_MAX_glibc rand_zero).
  apply (calls_set_compress RAND_MAX_glibc rand_zero created_double _ 0.75).
  - now apply (calls_create RAND_MAX_glibc rand_zero 48000).
  - reflexivity.
Defined.

(** X7 at an instance: two samples per channel. *)
Lemma channels_are_independent_witness :
  exists lo ro lo' ro',
    buffers_of (buttercomp2_process_stereo RAND_MAX_glibc rand_zero
                  (Some fresh_double) (Some [0.5; -0.25])
                  (Some [0.125; 0.75]) 2 0)
    = Some (lo, ro) /\
    buffers_of (buttercomp2_process_stereo RAND_MAX_glibc rand_zero
                  (Some fresh_double) (Some [0.5; -0.25])
                  (Some [-1; 3]) 2 0)
    = Some (lo, ro') /\
    buffers_of (buttercomp2_process_stereo RAND_MAX_glibc rand_zero
                  (Some fresh_double) (Some [0.0625; 2])
                  (Some [0.125; 0.75]) 2 0)
    = Some (lo', ro).
Proof.
  exact (channels_are_independent RAND_MAX_glibc rand_zero fresh_double
           [0.5; -0.25] [0.125; 0.75] [0.0625; 2] [-1; 3] 0%nat
           eq_refl eq_refl eq_refl).
Defined.

(** X9 at an instance. *)
Lemma parameters_stay_in_unit_interval_witness :
  let s := after_sample in
  ((0 <=? compress s) = true /\ (compress s <=? 1) = true) /\
  ((0 <=? output s) = true /\ (output s <=? 1) = true) /\
  ((0 <=? dry_wet s) = true /\ (dry_wet s <=? 1) = true) /\
  buttercomp2_set_compress (Some s) (compress s) = Some s /\
  buttercomp2_set_output (Some s) (output s) = Some s /\
  buttercomp2_set_dry_wet (Some s) (dry_wet s) = Some s.
Proof.
  exact (parameters_stay_in_unit_interval RAND_MAX_glibc rand_zero
           (fun _ => True) after_sample after_sample_reachable).
Defined.

(** A state whose left targets are NaN. *)
Definition poisoned_double : ButterComp2State float :=
  mkState 48000 0.75 0.5 1 (0, 0) (0, 0) (0, 0) (0, 0) (nan, 0)
    (nan, 0) (0, 0) (0, 0) (0, 0) (0, 0) 1%Z.

(** X11 at an instance: two samples per channel. *)
Lemma poisoned_channel_stores_nan_witness :
  exists s' lo ro k',
    buttercomp2_process_stereo RAND_MAX_glibc rand_zero
      (Some poisoned_double) (Some [0.5; -0.25]) (Some [0.125; 0.75]) 2 0
    = Some (Some s', Some lo, Some ro, k') /\
    Forall (fun y => y = nan) (aget (lo, ro) ch0) /\
    poisoned s' ch0 /\
    option_map (fun t => (aget (target_pos t) ch0, aget (target_neg t) ch0))
      (buttercomp2_reset (Some s')) = Some (0, 0).
Proof.
  apply (poisoned_channel_stores_nan RAND_MAX_glibc rand_zero
           poisoned_double ch0 [0.5; -0.25] [0.125; 0.75] 0%nat).
  - split; reflexivity.
  - reflexivity.
Defined.

(** The instance [buttercomp2_create] returns for the sample rate 0. *)
Definition zero_rate_double : ButterComp2State float :=
  mkState 0 0 0.5 1 (0, 0) (0, 0) (0, 0) (0, 0) (0, 0)
    (0, 0) (0, 0) (0, 0) (0, 0) (0, 0) 1%Z.

(** X12 at an instance: the new instance of sample rate 0. *)
Lemma zero_rate_stores_nan_witness :
  buttercomp2_create true 0 = Some zero_rate_double /\
  exists s' lo ro k',
    buttercomp2_process_stereo RAND_MAX_glibc rand_zero
      (Some zero_rate_double) (Some [0.5; -0.25]) (Some [0.125; 0.75]) 2 0
    = Some (Some s', Some lo, Some ro, k') /\
    Forall (fun y => y = nan) lo /\ Forall (fun y => y = nan) ro /\
    sample_rate s' = 0 /\ compress s' = 0 /\ controls_idle s'.
Proof.
  split; [reflexivity|].
  apply (zero_rate_stores_nan RAND_MAX_glibc rand_zero zero_rate_double
           [0.5; -0.25] [0.125; 0.75] 0%nat); try reflexivity.
  intros []; split; left; exists false; reflexivity.
Defined.

(** X13 at an instance: the first sample 0.5 of the left channel. *)
Lemma wet_only_up_to_dither_witness :
  let c := locals_of fresh_double in
  let w := wet_sample c fresh_double ch0 0.5 in
  (-1 <=? w) = true /\ (w <=? 1) = true /\
  exists w', same_number w' w /\
    snd (fst (process_channel RAND_MAX_glibc rand_zero c fresh_double ch0
                0.5 0))
    = if (lnot (fpflip fresh_double) =? 0)%Z then to_float w'
      else to_float (w' + dither RAND_MAX_glibc rand_zero 0)%num.
Proof.
  apply (wet_only_up_to_dither RAND_MAX_glibc rand_zero fresh_double
           fresh_double ch0 0.5 0%nat).
  - reflexivity.
  - right. exists false, 4503599627370496%positive, (-53)%Z. reflexivity.
  - reflexivity.
Defined.

Lemma fresh_double_locals_finite : locals_finite (locals_of fresh_double).
Proof.
  unfold locals_finite.
  repeat split;
    first [ left; vm_compute; eexists; reflexivity
          | right; vm_compute; eexists _, _, _; reflexivity ].
Defined.

(** X14 at an instance: 48000 Hz, compress 0.75, two frames of zeros of
    both signs. *)
Lemma silence_stays_silent_binary64_witness :
  exists s' lo ro k',
    buttercomp2_process_stereo RAND_MAX_glibc rand_zero (Some fresh_double)
      (Some [0; -0]) (Some [-0; 0]) 2 0
    = Some (Some s', Some lo, Some ro, k') /\
    Forall a_zero lo /\
    Forall (fun y => exists z j, a_zero z /\
              y = to_float (z + dither RAND_MAX_glibc rand_zero j)%num) ro /\
    quiet_double s' /\ fpflip s' = 1%Z.
Proof.
  apply (silence_stays_silent_binary64 RAND_MAX_glibc rand_zero fresh_double
           [0; -0] [-0; 0] 0%nat).
  - exact fresh_double_locals_finite.
  - intros []; reflexivity.
  - reflexivity.
  - reflexivity.
  - repeat constructor; eexists; reflexivity.
  - repeat constructor; eexists; reflexivity.
Defined.

(** X19 at an instance: output 0, the first sample 0.5 of the left
    channel. *)
Lemma output_zero_mutes_wet_witness :
  let s := with_output fresh_double 0 in
  let c := locals_of s in
  zero_or_nan (wet_sample c s ch0 0.5) /\
  exists m, zero_or_nan m /\
    snd (fst (process_channel RAND_MAX_glibc rand_zero c s ch0 0.5 0))
    = if (lnot (fpflip s) =? 0)%Z then to_float m
      else to_float (m + dither RAND_MAX_glibc rand_zero 0)%num.
Proof.
  apply (output_zero_mutes_wet RAND_MAX_glibc rand_zero
           (with_output fresh_double 0) (with_output fresh_double 0) ch0
           0.5 0%nat).
  - reflexivity.
  - reflexivity.
  - right. exists false, 4503599627370496%positive, (-53)%Z. reflexivity.
Defined.

Local Close Scope float_scope.
Local Open Scope Q_scope.

(** The state after the first sample 3/4 of the left channel, in exact
    arithmetic. *)
Definition after_sample_Q : ButterComp2State Q :=
  fst (fst (process_channel RAND_MAX_glibc rand_zero
              (locals_of fresh_Q) fresh_Q ch0 (3 # 4) 0)).

Lemma after_sample_Q_reachable :
  reachable RAND_MAX_glibc rand_zero (fun x => Qabs x <= 1) after_sample_Q.
Proof.
  apply reach_sample.
  - now apply (reach_create RAND_MAX_glibc rand_zero _ 48000).
  - cbn. lra.
Defined.

(** X15 at an instance. *)
Lemma targets_are_mirrored_witness :
  aget (target_neg after_sample_Q) ch0
  == - aget (target_pos after_sample_Q) ch0.
Proof.
  exact (targets_are_mirrored RAND_MAX_glibc rand_zero _ after_sample_Q ch0
           after_sample_Q_reachable).
Defined.

Lemma fresh_Q_at_defaults : at_defaults fresh_Q.
Proof.
  unfold at_defaults. cbn.
  repeat split; try reflexivity; destruct ch; cbn; lra.
Defined.

(** X18 at an instance: the empty memory, the address 0. *)
Lemma destroy_releases_instance_witness :
  let h : @Heap Q := fun _ => None in
  buttercomp2_destroy h None = Some h /\
  exists h1 h2 h3 h4,
    create_in h (Some 0%nat) 48000 = (h1, Some 0%nat) /\
    call_in (fun st => buttercomp2_set_compress st (3 # 4)) h1 (Some 0%nat)
    = Some h2 /\
    call_in buttercomp2_reset h2 (Some 0%nat) = Some h3 /\
    buttercomp2_destroy h3 (Some 0%nat) = Some h4 /\
    (forall b, h4 b = h b) /\
    buttercomp2_destroy h4 (Some 0%nat) = None /\
    call_in buttercomp2_reset h4 (Some 0%nat) = None /\
    call_in (fun st => buttercomp2_set_compress st (3 # 4)) h4 (Some 0%nat)
    = None.
Proof.
  exact (destroy_releases_instance (fun _ => None) 0%nat 48000 (3 # 4)
           eq_refl).
Defined.

End FurtherRuns.

(** * Rounding keeps representable bounds *)

Module Bracket.

Import Rounding.

Local Open Scope Z_scope.

Section Core.

(** The format: [prec] bits of mantissa, exponents below [emax]. *)
Variables prec emax : Z.
Hypothesis Hprec : 0 < prec.
Hypothesis Hemax : 2 <= emax.

Local Abbreviation emin := (SpecFloat.emin prec emax).

Lemma emin_eq : emin = 3 - emax - prec.
Proof. reflexivity. Qed.

Lemma fexp_eq (x : Z) : fexp prec emax x = Z.max (x - prec) emin.
Proof. reflexivity. Qed.

(** The shift record [mrs] holds the quotient of [N] by [D]; its round
    bit says whether the remainder is at least half of [D], its sticky
    bit whether the remainder is neither zero nor that half. *)
Definition located (N D : Z) (mrs : shr_record) : Prop :=
  0 <= shr_m mrs /\
  D * shr_m mrs <= N < D * (shr_m mrs + 1) /\
  (shr_r mrs = true <-> D <= 2 * (N - D * shr_m mrs)) /\
  (shr_s mrs = false <->
   (N = D * shr_m mrs \/ 2 * (N - D * shr_m mrs) = D)).

Lemma located_step (N D : Z) (mrs : shr_record) :
  0 < D -> located N D mrs -> located N (D * 2) (shr_1 mrs).
Proof.
  intros HD (Hm & [Hlo Hhi] & Hr & Hs).
  destruct mrs as [m r s]. cbn [shr_m shr_r shr_s] in *.
  rewrite shr_1_spec by exact Hm. unfold located. cbn [shr_m shr_r shr_s].
  pose proof (Z.div_mod m 2 ltac:(lia)) as Hdm.
  pose proof (Z.mod_pos_bound m 2 ltac:(lia)) as Hmb.
  assert (Hodd : (if Z.odd m then 1 else 0) = m mod 2)
    by now rewrite Zmod_odd.
  set (q := m / 2) in *. set (b := m mod 2) in *.
  assert (Hq : 0 <= q) by (unfold q; apply Z.div_pos; lia).
  assert (Erho : N - D * 2 * q = (N - D * m) + D * b) by nia.
  set (rho := N - D * m) in *.
  assert (Hrho : 0 <= rho < D) by (unfold rho; nia).
  rewrite Erho.
  assert (Eq0 : N = D * 2 * q <-> rho + D * b = 0) by (split; nia).
  rewrite Eq0.
  assert (EN : N = D * m <-> rho = 0) by (unfold rho; split; lia).
  rewrite EN in Hs.
  split; [exact Hq|]. split; [split; nia|].
  assert (Hb : b = 0 \/ b = 1) by lia.
  split.
  - destruct (Z.odd m); destruct Hb as [-> | ->]; try lia;
      split; intros H; try reflexivity; try discriminate; nia.
  - assert (Hrs : orb r s = false <-> rho = 0).
    { split.
      - intros H. apply orb_false_iff in H as [-> Es].
        apply Hs in Es as [E|E]; [exact E|].
        assert (~ (D <= 2 * rho))
          by (intros X; apply Hr in X; discriminate).
        lia.
      - intros E. apply orb_false_iff. split.
        + destruct r; [|reflexivity].
          assert (D <= 2 * rho) by (apply Hr; reflexivity). lia.
        + apply Hs. now left. }
    rewrite Hrs. destruct Hb as [-> | ->]; split; intros H; nia.
Qed.

Lemma located_iter (N D : Z) (mrs : shr_record) (n : nat) :
  0 < D -> located N D mrs ->
  located N (D * 2 ^ Z.of_nat n) (Nat.iter n shr_1 mrs).
Proof.
  intros HD H. induction n as [|n IH].
  - cbn [Nat.iter]. change (2 ^ Z.of_nat 0) with 1. now rewrite Z.mul_1_r.
  - cbn [Nat.iter]. rewrite Nat2Z.inj_succ, Z.pow_succ_r by lia.
    replace (D * (2 * 2 ^ Z.of_nat n)) with (D * 2 ^ Z.of_nat n * 2) by ring.
    apply located_step; [|exact IH].
    pose proof (pow2_pos (Z.of_nat n) ltac:(lia)). nia.
Qed.

(** The first shift of [binary_round_aux]. *)
Lemma shr_fexp_located (N D mx ex : Z) (lx : location) :
  0 < D -> located N D (shr_record_of_loc mx lx) ->
  0 <= fexp prec emax (Zdigits2 mx + ex) - ex ->
  exists mrs,
    shr_fexp prec emax mx ex lx = (mrs, fexp prec emax (Zdigits2 mx + ex)) /\
    located N (D * 2 ^ (fexp prec emax (Zdigits2 mx + ex) - ex)) mrs.
Proof.
  intros HD Hl Hn. unfold shr_fexp, shr.
  destruct (fexp prec emax (Zdigits2 mx + ex) - ex) as [|p|p] eqn:En;
    [| |lia].
  - exists (shr_record_of_loc mx lx). split.
    + f_equal. lia.
    + change (2 ^ 0) with 1. now rewrite Z.mul_1_r.
  - exists (iter_pos shr_1 p (shr_record_of_loc mx lx)). split.
    + f_equal. lia.
    + rewrite iter_pos_nat. rewrite <- (positive_nat_Z p).
      now apply located_iter.
Qed.

Lemma Zdigits2_nonneg_bounds (m : Z) :
  0 <= m -> 0 <= Zdigits2 m /\ m < 2 ^ Zdigits2 m /\
  (0 < m -> 2 ^ (Zdigits2 m - 1) <= m).
Proof.
  intros Hm. destruct m as [|p|p]; [cbn; lia| |lia].
  cbn [Zdigits2]. pose proof (digits2_bounds p). lia.
Qed.

(** The mantissa after the first shift: below [2^prec], and at least
    [2^(prec-1)] above the smallest exponent. *)
Lemma first_shift_mantissa (N D mx ex M : Z) :
  0 < D -> 0 <= mx -> 0 <= M ->
  D * mx <= N < D * (mx + 1) ->
  let e' := fexp prec emax (Zdigits2 mx + ex) in
  0 <= e' - ex ->
  D * 2 ^ (e' - ex) * M <= N < D * 2 ^ (e' - ex) * (M + 1) ->
  M < 2 ^ prec /\ (emin < e' -> 2 ^ (prec - 1) <= M).
Proof.
  intros HD Hmx HM [Hlo Hhi] e' Hn [Hlo' Hhi'].
  pose proof (Zdigits2_nonneg_bounds mx Hmx) as (Hd0 & Hd1 & Hd2).
  set (dg := Zdigits2 mx) in *.
  set (n := e' - ex) in *.
  pose proof (pow2_pos n Hn) as Hpn.
  assert (H1 : 2 ^ n * M <= mx) by nia.
  assert (H2 : mx < 2 ^ n * (M + 1)) by nia.
  assert (He' : e' = Z.max (dg + ex - prec) emin) by reflexivity.
  split.
  - assert (2 ^ dg <= 2 ^ (n + prec)) by (apply Z.pow_le_mono_r; lia).
    rewrite Z.pow_add_r in H by lia.
    pose proof (pow2_pos prec ltac:(lia)). nia.
  - intros Hlt. assert (En : n = dg - prec) by lia.
    assert (0 < mx).
    { destruct (Z.eq_dec mx 0) as [E|]; [|lia].
      unfold dg in He'. rewrite E in He'. cbn [Zdigits2] in He'. lia. }
    specialize (Hd2 H).
    replace (dg - 1) with (n + (prec - 1)) in Hd2 by lia.
    rewrite Z.pow_add_r in Hd2 by lia.
    pose proof (pow2_pos (prec - 1) ltac:(lia)). nia.
Qed.

(** Round to nearest, ties to even: down when the remainder is at most
    half of [D], up when it is at least half. *)
Lemma round_nearest_even_located (N D : Z) (mrs : shr_record) :
  0 < D -> located N D mrs ->
  let M := shr_m mrs in
  let m1 := round_nearest_even M (loc_of_shr_record mrs) in
  (m1 = M /\ 2 * (N - D * M) <= D) \/
  (m1 = M + 1 /\ D <= 2 * (N - D * M)).
Proof.
  intros HD (Hm & [Hlo Hhi] & Hr & Hs). cbv zeta.
  destruct mrs as [m r s]. cbn [shr_m shr_r shr_s] in *.
  set (rho := N - D * m) in *.
  assert (Hrho : 0 <= rho < D) by (unfold rho; nia).
  destruct r, s; cbn [loc_of_shr_record round_nearest_even].
  - right. split; [reflexivity|]. apply Hr. reflexivity.
  - assert (D <= 2 * rho) by (apply Hr; reflexivity).
    destruct (proj1 Hs eq_refl) as [E|E]; [unfold rho in *; lia|].
    destruct (Z.even m); [left|right]; split; lia.
  - left. split; [reflexivity|].
    assert (~ (D <= 2 * rho)) by (intros X; apply Hr in X; discriminate).
    lia.
  - left. split; [reflexivity|].
    assert (~ (D <= 2 * rho)) by (intros X; apply Hr in X; discriminate).
    lia.
Qed.

(** What the second shift and the range test make of the rounded mantissa
    [m1] at exponent [e']: a zero, a number of the same value, or an
    infinity for a value of [2^emax] and more. *)
Definition finished (r : spec_float) (sx : bool) (m1 e' : Z) : Prop :=
  (m1 = 0 /\ r = S754_zero sx) \/
  (exists m e, r = S754_finite sx m e /\ e' <= e <= emax - prec /\
               Zpos m < 2 ^ prec /\ Zpos m * 2 ^ (e - e') = m1) \/
  (r = S754_infinity sx /\ 2 ^ (emax - emin) <= m1 * 2 ^ (e' - emin)).

Lemma second_shift (sx : bool) (m1 e' : Z) :
  0 <= m1 <= 2 ^ prec -> emin <= e' ->
  (emin < e' -> 2 ^ (prec - 1) <= m1) ->
  let '(mrs'', e'') := shr_fexp prec emax m1 e' loc_Exact in
  finished
    match shr_m mrs'' with
    | Z0 => S754_zero sx
    | Zpos m => if e'' <=? emax - prec then S754_finite sx m e''
                else S754_infinity sx
    | Zneg _ => S754_nan
    end sx m1 e'.
Proof.
  intros [H0 H1] He' Hnorm.
  pose proof (pow2_pos prec ltac:(lia)) as Hpp.
  pose proof (pow2_pos (prec - 1) ltac:(lia)) as Hpp1.
  assert (E2 : 2 ^ prec = 2 * 2 ^ (prec - 1)) by (apply pow2_succ; lia).
  assert (Hmin : emin <= emax - prec) by (rewrite emin_eq; lia).
  assert (Hinf : forall m e, e' <= e -> emax - prec < e ->
            2 ^ (prec - 1) <= m -> m * 2 ^ (e - e') = m1 ->
            2 ^ (emax - emin) <= m1 * 2 ^ (e' - emin)).
  { intros m e Le Lt Lm <-.
    rewrite <- Z.mul_assoc, <- Z.pow_add_r by lia.
    replace (e - e' + (e' - emin)) with (e - emin) by lia.
    assert (2 ^ (emax - emin) <= 2 ^ (prec - 1) * 2 ^ (e - emin)).
    { rewrite <- Z.pow_add_r by lia. apply Z.pow_le_mono_r; lia. }
    pose proof (pow2_pos (e - emin) ltac:(lia)). nia. }
  destruct (Z.eq_dec m1 (2 ^ prec)) as [Etop|Ntop].
  - (* the mantissa has one bit too many *)
    assert (Hd : Zdigits2 m1 = prec + 1).
    { apply Zdigits2_unique; [lia|]. replace (prec + 1 - 1) with prec by lia.
      rewrite (pow2_succ (prec + 1)) by lia.
      replace (prec + 1 - 1) with prec by lia. lia. }
    unfold shr_fexp, shr. rewrite Hd, fexp_eq.
    replace (Z.max (prec + 1 + e' - prec) emin - e') with 1 by lia.
    cbn [iter_pos shr_record_of_loc]. rewrite shr_1_spec by lia.
    cbn [shr_m].
    assert (Eq2 : m1 / 2 = 2 ^ (prec - 1)).
    { rewrite Etop, E2. rewrite Z.mul_comm. apply Z.div_mul. lia. }
    rewrite Eq2.
    destruct (2 ^ (prec - 1)) as [|p|p] eqn:Ep; try lia.
    destruct (e' + 1 <=? emax - prec) eqn:Ee.
    + right. left. exists p, (e' + 1). split; [reflexivity|].
      apply Z.leb_le in Ee. split; [lia|]. split; [lia|].
      replace (e' + 1 - e') with 1 by lia. change (2 ^ 1) with 2. lia.
    + right. right. split; [reflexivity|].
      apply Z.leb_gt in Ee.
      apply (Hinf (Zpos p) (e' + 1)); try lia.
      replace (e' + 1 - e') with 1 by lia. change (2 ^ 1) with 2. lia.
  - assert (Hlt : m1 < 2 ^ prec) by lia.
    assert (Hd : Zdigits2 m1 <= prec) by (apply Zdigits2_le; lia).
    unfold shr_fexp, shr. rewrite fexp_eq.
    destruct (Z.max (Zdigits2 m1 + e' - prec) emin - e') as [|p|p] eqn:En;
      try lia; cbn [shr_record_of_loc shr_m].
    + destruct m1 as [|p|p]; [left; split; reflexivity| |lia].
      destruct (e' <=? emax - prec) eqn:Ee.
      * right. left. exists p, e'. split; [reflexivity|].
        apply Z.leb_le in Ee. split; [lia|]. split; [lia|].
        replace (e' - e') with 0 by lia. change (2 ^ 0) with 1. lia.
      * right. right. split; [reflexivity|].
        apply Z.leb_gt in Ee.
        apply (Hinf (Zpos p) e'); try lia.
        replace (e' - e') with 0 by lia. change (2 ^ 0) with 1. lia.
    + destruct m1 as [|p0|p0]; [left; split; reflexivity| |lia].
      destruct (e' <=? emax - prec) eqn:Ee.
      * right. left. exists p0, e'. split; [reflexivity|].
        apply Z.leb_le in Ee. split; [lia|]. split; [lia|].
        replace (e' - e') with 0 by lia. change (2 ^ 0) with 1. lia.
      * right. right. split; [reflexivity|].
        apply Z.leb_gt in Ee.
        apply (Hinf (Zpos p0) e'); try lia.
        replace (e' - e') with 0 by lia. change (2 ^ 0) with 1. lia.
Qed.

(** A representable magnitude, in units of [2^emin]. *)
Definition rep_mag (z : Z) : Prop :=
  exists m e, 0 <= m < 2 ^ prec /\ 0 <= e <= emax - prec - emin /\
              z = m * 2 ^ e.

Lemma rep_mag_below_top (z : Z) : rep_mag z -> z < 2 ^ (emax - emin).
Proof.
  intros (m & e & Hm & He & ->).
  assert (2 ^ prec * 2 ^ e <= 2 ^ (emax - emin)).
  { rewrite <- Z.pow_add_r by lia. apply Z.pow_le_mono_r; lia. }
  pose proof (pow2_pos e ltac:(lia)). nia.
Qed.

(** Rounding the quotient of [N] by [D] at exponent [ex], when the first
    shift is not to the left: the result has a magnitude [W], in units of
    [2^emin], that no representable magnitude separates from the value,
    and that no representable magnitude is nearer to the value than. *)
Lemma round_aux_bracket (sx : bool) (N D mx ex : Z) (lx : location) :
  0 < D -> located N D (shr_record_of_loc mx lx) ->
  let e' := fexp prec emax (Zdigits2 mx + ex) in
  0 <= e' - ex ->
  exists m1,
    0 <= m1 /\
    finished (binary_round_aux prec emax sx mx ex lx) sx m1 e' /\
    forall z, rep_mag z ->
      (z * (D * 2 ^ (e' - ex)) <= N * 2 ^ (e' - emin) ->
       z <= m1 * 2 ^ (e' - emin)) /\
      (N * 2 ^ (e' - emin) <= z * (D * 2 ^ (e' - ex)) ->
       m1 * 2 ^ (e' - emin) <= z) /\
      Z.abs (m1 * 2 ^ (e' - emin) * (D * 2 ^ (e' - ex))
             - N * 2 ^ (e' - emin))
      <= Z.abs (z * (D * 2 ^ (e' - ex)) - N * 2 ^ (e' - emin)).
Proof.
  intros HD Hl e' Hn.
  assert (Hmx : 0 <= mx).
  { destruct Hl as [H _]. now destruct lx as [|[]]. }
  assert (Hq : D * mx <= N < D * (mx + 1)).
  { destruct Hl as (_ & H & _). now destruct lx as [|[]]. }
  destruct (shr_fexp_located N D mx ex lx HD Hl Hn) as (mrs & Es & Hl').
  fold e' in Es, Hl'.
  set (D2 := D * 2 ^ (e' - ex)) in *.
  pose proof (pow2_pos (e' - ex) Hn) as Hpn.
  assert (HD2 : 0 < D2) by (unfold D2; nia).
  pose proof (round_nearest_even_located N D2 mrs HD2 Hl') as Hc.
  cbv zeta in Hc.
  destruct Hl' as (HM & HqM & _).
  set (M := shr_m mrs) in *.
  destruct (first_shift_mantissa N D mx ex M HD Hmx HM Hq Hn HqM)
    as [Mhi Mlo].
  fold e' in Mlo.
  set (m1 := round_nearest_even M (loc_of_shr_record mrs)) in *.
  assert (He' : emin <= e') by (unfold e'; rewrite fexp_eq; lia).
  exists m1. split; [lia|]. split.
  - unfold binary_round_aux. rewrite Es. fold M m1.
    assert (Hnorm : emin < e' -> 2 ^ (prec - 1) <= m1)
      by (intros Hlt; specialize (Mlo Hlt); lia).
    pose proof (second_shift sx m1 e' ltac:(lia) He' Hnorm) as F.
    destruct (shr_fexp prec emax m1 e' loc_Exact) as [mrs'' e''].
    exact F.
  - intros z (m & e & Hm & He & ->).
    set (P := 2 ^ (e' - emin)).
    pose proof (pow2_pos (e' - emin) ltac:(lia)) as HP. fold P in HP.
    pose proof (pow2_pos e ltac:(lia)) as Hpe.
    pose proof (pow2_pos (prec - 1) ltac:(lia)) as Hpp1.
    assert (E2 : 2 ^ prec = 2 * 2 ^ (prec - 1)) by (apply pow2_succ; lia).
    set (rho := N - D2 * M) in *.
    assert (Hrho : 0 <= rho < D2) by (unfold rho; lia).
    assert (EN : N = D2 * M + rho) by (unfold rho; lia).
    (* no representable magnitude lies strictly between [M] and [M + 1] *)
    assert (Hsep : m * 2 ^ e <= M * P \/ (M + 1) * P <= m * 2 ^ e).
    { destruct (Z.le_gt_cases (e' - emin) e) as [Hge|Hlt].
      - assert (Ek : 2 ^ e = 2 ^ (e - (e' - emin)) * P).
        { unfold P. rewrite <- Z.pow_add_r by lia. f_equal. lia. }
        set (k := m * 2 ^ (e - (e' - emin))).
        assert (Hk : m * 2 ^ e = k * P) by (unfold k; rewrite Ek; ring).
        rewrite Hk.
        destruct (Z.le_gt_cases k M); [left|right]; nia.
      - left. assert (Hnorm : 2 ^ (prec - 1) <= M) by (apply Mlo; lia).
        assert (2 * 2 ^ e <= P).
        { unfold P. rewrite <- (Z.pow_succ_r 2 e) by lia.
          apply Z.pow_le_mono_r; lia. }
        nia. }
    set (z := m * 2 ^ e) in *.
    assert (Ez : z * D2 - N * P = (z - M * P) * D2 - rho * P)
      by (rewrite EN; ring).
    assert (Em : m1 * P * D2 - N * P = (m1 - M) * P * D2 - rho * P)
      by (rewrite EN; ring).
    rewrite Ez, Em.
    assert (HrP : 0 <= rho * P) by nia.
    assert (HDP : 0 <= (D2 - rho) * P) by nia.
    split; [|split].
    + intros H. destruct Hsep as [Hs|Hs]; [nia|].
      exfalso. rewrite EN in H.
      assert ((M + 1) * P * D2 <= z * D2) by nia. nia.
    + intros H. rewrite EN in H.
      destruct Hsep as [Hs|Hs].
      * assert (Hz : z * D2 <= M * P * D2)
          by (apply Z.mul_le_mono_nonneg_r; lia).
        assert (HrP0 : rho * P <= 0)
          by (clear - H Hz; clearbody rho z P D2 M; lia).
        assert (Hr0 : rho = 0).
        { destruct (Z.eq_dec rho 0) as [E0|Hne]; [exact E0|].
          assert (0 < rho * P) by (apply Z.mul_pos_pos; lia). lia. }
        destruct Hc as [[Em1 _]|[_ Hc]]; [|lia]. rewrite Em1.
        apply (Z.mul_le_mono_pos_r _ _ D2 HD2).
        clear - H HrP. clearbody rho z P D2 M. lia.
      * assert (m1 <= M + 1) by (destruct Hc as [[Em1 _]|[Em1 _]]; lia).
        assert (m1 * P <= (M + 1) * P)
          by (apply Z.mul_le_mono_nonneg_r; lia).
        lia.
    + destruct Hsep as [Hs|Hs].
      * assert (Hz : (z - M * P) * D2 <= 0) by nia.
        rewrite (Z.abs_neq ((z - M * P) * D2 - rho * P)) by lia.
        destruct Hc as [[-> Hc]|[-> Hc]].
        -- replace ((M - M) * P * D2) with 0 by ring. 
           rewrite Z.abs_neq by lia. lia.
        -- replace ((M + 1 - M) * P * D2 - rho * P) with ((D2 - rho) * P)
             by ring.
           rewrite Z.abs_eq by lia. nia.
      * assert (Hz : P * D2 <= (z - M * P) * D2) by nia.
        rewrite (Z.abs_eq ((z - M * P) * D2 - rho * P)) by nia.
        destruct Hc as [[-> Hc]|[-> Hc]].
        -- replace ((M - M) * P * D2) with 0 by ring.
           rewrite Z.abs_neq by lia. nia.
        -- replace ((M + 1 - M) * P * D2 - rho * P) with ((D2 - rho) * P)
             by ring.
           rewrite Z.abs_eq by lia. nia.
Qed.

(** ** Signed values

    The value of a number, in units of [2^emin]. *)
Definition mval (x : spec_float) : Z :=
  match x with
  | S754_finite s m e => cond_Zopp s (Zpos m * 2 ^ (e - emin))
  | _ => 0
  end.

(** A value some number of the format has. *)
Definition rep_sgn (z : Z) : Prop := rep_mag (Z.abs z).

(** What a rounding returns for the exact value [En / Ed]: a number [r]
    within the representable bounds [lo] and [hi], as near to the exact
    value as any number of the format. *)
Definition shaped (r : spec_float) : Prop :=
  match r with
  | S754_finite _ m e => Zpos m < 2 ^ prec /\ emin <= e <= emax - prec
  | _ => True
  end.

Definition rounds_to (r : spec_float) (lo hi En Ed : Z) : Prop :=
  SFfinite r /\ lo <= mval r <= hi /\ rep_sgn (mval r) /\
  (forall z, rep_sgn z ->
     Z.abs (mval r * Ed - En) <= Z.abs (z * Ed - En)) /\
  shaped r.

Lemma mul_le_cancel_r (a b c : Z) : 0 < c -> a * c <= b * c -> a <= b.
Proof. intros Hc H. now apply (Z.mul_le_mono_pos_r a b c Hc). Qed.

Lemma mul_eq_cancel_r (a b c : Z) : 0 < c -> a * c = b * c -> a = b.
Proof. intros Hc H. apply (Z.mul_cancel_r a b c); [lia|exact H]. Qed.

Lemma rep_mag_0 : rep_mag 0.
Proof.
  exists 0, 0. pose proof (pow2_pos prec ltac:(lia)).
  rewrite emin_eq. repeat split; lia.
Qed.

(** Rounding the quotient of [N] by [D] at exponent [ex], with the sign
    [sx], of a value [Vn / Vd] in units of [2^emin]. *)
Lemma round_aux_signed_gen (sx : bool) (N D mx ex : Z) (lx : location)
  (Vn Vd j lo hi : Z) :
  0 < D -> located N D (shr_record_of_loc mx lx) ->
  0 <= fexp prec emax (Zdigits2 mx + ex) - ex ->
  0 < Vd -> 0 <= j -> 0 <= j + ex - emin ->
  Vn * D * 2 ^ j = N * Vd * 2 ^ (j + ex - emin) ->
  rep_sgn lo -> rep_sgn hi ->
  lo * Vd <= cond_Zopp sx Vn <= hi * Vd ->
  rounds_to (binary_round_aux prec emax sx mx ex lx) lo hi
    (cond_Zopp sx Vn) Vd.
Proof.
  intros HD Hl Hn HVd Hj Hjx HV Rlo Rhi [Hlo Hhi].
  destruct (round_aux_bracket sx N D mx ex lx HD Hl Hn)
    as (m1 & Hm1 & Hfin & Hbr).
  set (e' := fexp prec emax (Zdigits2 mx + ex)) in *.
  assert (He' : emin <= e') by (unfold e'; rewrite fexp_eq; lia).
  set (P := 2 ^ (e' - emin)) in *.
  set (D2 := D * 2 ^ (e' - ex)) in *.
  pose proof (pow2_pos (e' - emin) ltac:(lia)) as HP. fold P in HP.
  pose proof (pow2_pos (e' - ex) Hn) as Hpn.
  pose proof (pow2_pos j Hj) as Hpj.
  assert (HD2 : 0 < D2) by (unfold D2; nia).
  assert (HN : 0 <= N).
  { destruct Hl as (H0 & [H1 _] & _).
    assert (0 <= shr_m (shr_record_of_loc mx lx)) by exact H0. nia. }
  assert (Key : Vn * D2 = N * Vd * P).
  { apply (mul_eq_cancel_r _ _ (2 ^ j) Hpj).
    unfold D2, P.
    replace (Vn * (D * 2 ^ (e' - ex)) * 2 ^ j)
      with (Vn * D * 2 ^ j * 2 ^ (e' - ex)) by ring.
    rewrite HV.
    replace (N * Vd * 2 ^ (j + ex - emin) * 2 ^ (e' - ex))
      with (N * Vd * (2 ^ (j + ex - emin) * 2 ^ (e' - ex))) by ring.
    replace (N * Vd * 2 ^ (e' - emin) * 2 ^ j)
      with (N * Vd * (2 ^ (e' - emin) * 2 ^ j)) by ring.
    rewrite <- (Z.pow_add_r 2 (j + ex - emin) (e' - ex)) by lia.
    rewrite <- (Z.pow_add_r 2 (e' - emin) j) by lia.
    do 2 f_equal. lia. }
  assert (HVn : 0 <= Vn).
  { assert (0 <= Vn * D2) by (rewrite Key; nia). nia. }
  set (W := m1 * P) in *.
  assert (HW : 0 <= W) by (unfold W; nia).
  assert (Scale : forall z, (z * D2 - N * P) * Vd = (z * Vd - Vn) * D2)
    by (intros z;
        replace ((z * Vd - Vn) * D2) with (z * Vd * D2 - Vn * D2) by ring;
        rewrite Key; ring).
  assert (Lower : forall z, rep_mag z -> z * Vd <= Vn -> z <= W).
  { intros z Rz H. apply (proj1 (Hbr z Rz)).
    assert (0 <= (N * P - z * D2) * Vd)
      by (replace ((N * P - z * D2) * Vd) with (- ((z * D2 - N * P) * Vd))
            by ring; rewrite Scale; nia).
    nia. }
  assert (Upper : forall z, rep_mag z -> Vn <= z * Vd -> W <= z).
  { intros z Rz H. apply (proj1 (proj2 (Hbr z Rz))).
    assert (0 <= (z * D2 - N * P) * Vd) by (rewrite Scale; nia).
    nia. }
  assert (Near : forall z, rep_mag z ->
            Z.abs (W * Vd - Vn) <= Z.abs (z * Vd - Vn)).
  { intros z Rz. pose proof (proj2 (proj2 (Hbr z Rz))) as H. fold W in H.
    assert (A1 : forall a c, 0 <= c -> Z.abs a * c = Z.abs (a * c)).
    { intros a c Hc. rewrite Z.abs_mul, (Z.abs_eq c) by exact Hc.
      reflexivity. }
    apply (mul_le_cancel_r _ _ D2 HD2).
    rewrite !A1 by lia. rewrite <- !Scale. rewrite <- !A1 by lia.
    apply Z.mul_le_mono_nonneg_r; [lia|exact H]. }
  assert (Bounds : lo <= cond_Zopp sx W <= hi /\ W < 2 ^ (emax - emin)).
  { unfold rep_sgn in Rlo, Rhi. destruct sx; cbn [cond_Zopp] in *.
    - assert (lo <= 0) by nia.
      rewrite (Z.abs_neq lo) in Rlo by lia.
      assert (W <= - lo) by (apply Upper; [exact Rlo|lia]).
      pose proof (rep_mag_below_top _ Rlo).
      split; [|lia]. split; [lia|].
      destruct (Z.le_gt_cases 0 hi) as [Hh|Hh]; [lia|].
      rewrite (Z.abs_neq hi) in Rhi by lia.
      assert (- hi <= W) by (apply Lower; [exact Rhi|lia]). lia.
    - assert (0 <= hi) by nia.
      rewrite (Z.abs_eq hi) in Rhi by lia.
      assert (W <= hi) by (apply Upper; [exact Rhi|lia]).
      pose proof (rep_mag_below_top _ Rhi).
      split; [|lia]. split; [|lia].
      destruct (Z.le_gt_cases lo 0) as [Hh|Hh]; [lia|].
      rewrite (Z.abs_eq lo) in Rlo by lia.
      assert (lo <= W) by (apply Lower; [exact Rlo|lia]). lia. }
  destruct Bounds as [HB Htop].
  assert (Hval : SFfinite (binary_round_aux prec emax sx mx ex lx) /\
                 mval (binary_round_aux prec emax sx mx ex lx)
                 = cond_Zopp sx W /\ rep_mag W /\
                 shaped (binary_round_aux prec emax sx mx ex lx)).
  { destruct Hfin as [[E0 ->]|[(m & e & -> & He & Hm & Em)|[-> Hinf]]].
    - split; [left; eexists; reflexivity|]. cbn [mval].
      unfold W. rewrite E0. split; [now destruct sx|].
      rewrite Z.mul_0_l. split; [apply rep_mag_0|exact I].
    - split; [right; do 3 eexists; reflexivity|]. cbn [mval].
      assert (EW : Zpos m * 2 ^ (e - emin) = W).
      { unfold W, P. rewrite <- Em.
        replace (e - emin) with ((e - e') + (e' - emin)) by lia.
        rewrite (Z.pow_add_r 2 (e - e') (e' - emin)) by lia. ring. }
      rewrite EW. split; [reflexivity|]. split.
      + rewrite <- EW. exists (Zpos m), (e - emin). repeat split; lia.
      + cbn [shaped]. lia.
    - fold P in Hinf. fold W in Hinf. lia. }
  destruct Hval as (Hf & Emv & RW & Hsh).
  unfold rounds_to. rewrite Emv.
  split; [exact Hf|]. split; [exact HB|]. split; [|split; [|exact Hsh]].
  - unfold rep_sgn. destruct sx; cbn [cond_Zopp];
      [rewrite Z.abs_opp|]; rewrite Z.abs_eq by lia; exact RW.
  - intros z Rz. unfold rep_sgn in Rz.
    pose proof (Near (Z.abs z) Rz) as H1.
    pose proof (Near 0 rep_mag_0) as H0.
    rewrite Z.mul_0_l in H0.
    assert (HzV : 0 <= Z.abs z * Vd) by nia.
    destruct sx; cbn [cond_Zopp] in *.
    + replace (- W * Vd - - Vn) with (- (W * Vd - Vn)) by ring.
      rewrite Z.abs_opp.
      destruct (Z.le_gt_cases z 0) as [Hz|Hz].
      * rewrite (Z.abs_neq z) in H1 by lia.
        replace (z * Vd - - Vn) with (- (- z * Vd - Vn)) by ring.
        rewrite Z.abs_opp. exact H1.
      * assert (Vn <= z * Vd - - Vn) by nia.
        rewrite (Z.abs_eq (z * Vd - - Vn)) by lia.
        rewrite (Z.abs_neq (0 - Vn)) in H0 by lia. lia.
    + destruct (Z.le_gt_cases 0 z) as [Hz|Hz].
      * rewrite (Z.abs_eq z) in H1 by lia. exact H1.
      * assert (z * Vd - Vn <= - Vn) by nia.
        rewrite (Z.abs_neq (z * Vd - Vn)) by lia.
        rewrite (Z.abs_neq (0 - Vn)) in H0 by lia. lia.
Qed.

Lemma located_exact (m : Z) :
  0 <= m -> located m 1 (shr_record_of_loc m loc_Exact).
Proof.
  intros Hm. unfold located. cbn [shr_record_of_loc shr_m shr_r shr_s].
  split; [exact Hm|]. split; [lia|]. split.
  - split; [discriminate|lia].
  - split; [intros _; left; lia|reflexivity].
Qed.

Lemma Zdigits2_shift (p : positive) (k : Z) :
  0 <= k -> Zdigits2 (Zpos p * 2 ^ k) = Zdigits2 (Zpos p) + k.
Proof.
  intros Hk. cbn [Zdigits2]. pose proof (digits2_bounds p) as [Dlo Dhi].
  set (d := Zpos (digits2_pos p)) in *.
  assert (1 <= d) by (unfold d; lia).
  pose proof (pow2_pos k Hk).
  apply Zdigits2_unique; [lia|].
  replace (d + k - 1) with ((d - 1) + k) by lia.
  rewrite (Z.pow_add_r 2 (d - 1) k), (Z.pow_add_r 2 d k) by lia.
  split; nia.
Qed.

(** [binary_round] of a value [Vn / Vd] in units of [2^emin]. *)
Lemma binary_round_gen (sx : bool) (p : positive) (ez : Z)
  (Vn Vd j lo hi : Z) :
  0 < Vd -> 0 <= j -> 0 <= j + ez - emin ->
  Vn * 2 ^ j = Zpos p * Vd * 2 ^ (j + ez - emin) ->
  rep_sgn lo -> rep_sgn hi ->
  lo * Vd <= cond_Zopp sx Vn <= hi * Vd ->
  rounds_to (binary_round prec emax sx p ez) lo hi (cond_Zopp sx Vn) Vd.
Proof.
  intros HVd Hj Hjz HV Rlo Rhi H. unfold binary_round.
  pose proof (shl_align_spec p ez (fexp prec emax (Zpos (digits2_pos p) + ez)))
    as A.
  destruct (shl_align p ez (fexp prec emax (Zpos (digits2_pos p) + ez)))
    as [mz ez'].
  destruct A as (A1 & A2 & A3 & A4).
  set (F := fexp prec emax (Zpos (digits2_pos p) + ez)) in *.
  assert (HF : emin <= F) by (unfold F; rewrite fexp_eq; lia).
  assert (Hd : Zdigits2 (Zpos mz) + ez' = Zpos (digits2_pos p) + ez).
  { rewrite A4, Zdigits2_shift by lia. cbn [Zdigits2]. lia. }
  apply (round_aux_signed_gen sx (Zpos mz) 1 (Zpos mz) ez' loc_Exact
           Vn Vd (j + (ez - ez')) lo hi); try assumption; try lia.
  - apply located_exact. lia.
  - rewrite Hd. fold F. destruct (Z.le_gt_cases F ez); [rewrite A3|]; lia.
  - rewrite A4.
    replace (j + (ez - ez') + ez' - emin) with (j + ez - emin) by lia.
    rewrite (Z.pow_add_r 2 j (ez - ez')) by lia.
    replace (Vn * 1 * (2 ^ j * 2 ^ (ez - ez')))
      with (Vn * 2 ^ j * 2 ^ (ez - ez')) by ring.
    rewrite HV. ring.
Qed.

End Core.

(** ** Binary64 *)

(** The value of a number, in units of [2^-1074]. *)
Definition sval (x : spec_float) : Z :=
  match x with
  | S754_finite s m e => cond_Zopp s (Zpos m * 2 ^ (e + 1074))
  | _ => 0
  end.

(** A value some binary64 number has. *)
Definition rep_val (z : Z) : Prop := rep_mag 53 1024 (Z.abs z).

Lemma emin64 : SpecFloat.emin 53 1024 = -1074.
Proof. reflexivity. Qed.

Lemma sval_mval (x : spec_float) : sval x = mval 53 1024 x.
Proof. destruct x; reflexivity. Qed.

(** A rounding to binary64. *)
Definition rounds64 (r : spec_float) (lo hi En Ed : Z) : Prop :=
  SFfinite r /\ lo <= sval r <= hi /\ rep_val (sval r) /\
  (forall z, rep_val z ->
     Z.abs (sval r * Ed - En) <= Z.abs (z * Ed - En)) /\
  shaped 53 1024 r.

Lemma rounds_to_64 (r : spec_float) (lo hi En Ed : Z) :
  rounds_to 53 1024 r lo hi En Ed -> rounds64 r lo hi En Ed.
Proof. intros H. exact H. Qed.

Lemma round_aux_signed (sx : bool) (N D mx ex : Z) (lx : location)
  (Vn Vd j lo hi : Z) :
  0 < D -> located N D (shr_record_of_loc mx lx) ->
  0 <= fexp 53 1024 (Zdigits2 mx + ex) - ex ->
  0 < Vd -> 0 <= j -> 0 <= j + ex + 1074 ->
  Vn * D * 2 ^ j = N * Vd * 2 ^ (j + ex + 1074) ->
  rep_val lo -> rep_val hi ->
  lo * Vd <= cond_Zopp sx Vn <= hi * Vd ->
  rounds64 (binary_round_aux 53 1024 sx mx ex lx) lo hi
    (cond_Zopp sx Vn) Vd.
Proof.
  intros HD Hl Hn HVd Hj Hjx HV Rlo Rhi H.
  apply rounds_to_64.
  apply (round_aux_signed_gen 53 1024 ltac:(lia) ltac:(lia) sx N D mx ex lx
           Vn Vd j lo hi); assumption.
Qed.

(** The numbers of binary64: a zero, or finite in canonical form. *)
Definition number (X : spec_float) : Prop :=
  SFfinite X /\ valid_binary X = true.

Lemma valid_finite_top (s : bool) (m : positive) (e : Z) :
  valid_binary (S754_finite s m e) = true -> e <= 971.
Proof.
  intros H. change (bounded 53 1024 m e = true) in H.
  unfold bounded in H. apply andb_true_iff in H as [_ H].
  apply Z.leb_le in H. exact H.
Qed.

Lemma rep_val_0 : rep_val 0.
Proof. exists 0, 0. cbn. repeat split; lia. Qed.

Lemma rep_val_opp (z : Z) : rep_val z -> rep_val (- z).
Proof. unfold rep_val. now rewrite Z.abs_opp. Qed.

Lemma sval_finite_abs (s : bool) (m : positive) (e : Z) :
  Z.abs (sval (S754_finite s m e)) = Zpos m * 2 ^ (e + 1074).
Proof.
  cbn [sval]. pose proof (Z.pow_nonneg 2 (e + 1074) ltac:(lia)).
  destruct s; cbn [cond_Zopp]; lia.
Qed.

Lemma sval_rep (X : spec_float) : number X -> rep_val (sval X).
Proof.
  intros [[[s ->]|(s & m & e & ->)] V]; [apply rep_val_0|].
  pose proof (valid_finite_top s m e V) as Htop.
  apply valid_finite in V as (He & Hm & _).
  unfold rep_val. rewrite sval_finite_abs.
  exists (Zpos m), (e + 1074). rewrite emin64. repeat split; lia.
Qed.

Lemma cond_Zopp_mul (sx sy : bool) (a b : Z) :
  cond_Zopp sx a * cond_Zopp sy b = cond_Zopp (xorb sx sy) (a * b).
Proof. destruct sx, sy; cbn; ring. Qed.

Lemma Zdigits2_ge (m k : Z) : 0 <= k -> 2 ^ k <= m -> k + 1 <= Zdigits2 m.
Proof.
  intros Hk H. pose proof (pow2_pos k Hk) as Hp.
  destruct (Zdigits2_nonneg_bounds m ltac:(lia)) as (H0 & H1 & _).
  destruct (Z.le_gt_cases (k + 1) (Zdigits2 m)) as [L|G]; [exact L|].
  assert (2 ^ Zdigits2 m <= 2 ^ k) by (apply Z.pow_le_mono_r; lia). lia.
Qed.

Lemma number_finite (s : bool) (m : positive) (e : Z) :
  valid_binary (S754_finite s m e) = true -> number (S754_finite s m e).
Proof. intros V. split; [right; now exists s, m, e|exact V]. Qed.

(** A number that is its own exact value. *)
Lemma rounds64_exact (X : spec_float) (lo hi : Z) :
  number X -> lo <= sval X <= hi -> rounds64 X lo hi (sval X) 1.
Proof.
  intros [F V] H. split; [exact F|]. split; [exact H|].
  split; [now apply sval_rep|]. split.
  - intros z _. rewrite Z.mul_1_r, Z.sub_diag. cbn. apply Z.abs_nonneg.
  - destruct X as [s|s| |s m e]; try exact I. cbn [shaped].
    pose proof (valid_finite_top s m e V).
    apply valid_finite in V as (He & Hm & _). rewrite emin64. lia.
Qed.

Lemma rounds64_zero (s : bool) (lo hi En Ed : Z) :
  lo <= 0 <= hi -> En = 0 ->
  rounds64 (S754_zero s) lo hi En Ed.
Proof.
  intros H ->. split; [left; now exists s|]. cbn [sval].
  split; [exact H|]. split; [apply rep_val_0|]. split; [|exact I].
  intros z _. cbn. apply Z.abs_nonneg.
Qed.

(** ** The product *)
Lemma SFmul_round (X Y : spec_float) (lo hi : Z) :
  number X -> number Y -> rep_val lo -> rep_val hi ->
  lo * 2 ^ 1074 <= sval X * sval Y <= hi * 2 ^ 1074 ->
  rounds64 (SFmul 53 1024 X Y) lo hi (sval X * sval Y) (2 ^ 1074).
Proof.
  intros [FX VX] [FY VY] Rlo Rhi H.
  pose proof (pow2_pos 1074 ltac:(lia)) as HS.
  destruct FX as [[sx ->]|(sx & mx & ex & ->)];
    destruct FY as [[sy ->]|(sy & my & ey & ->)];
    try (cbn [SFmul sval] in *;
         rewrite ?Z.mul_0_l, ?Z.mul_0_r in *;
         apply rounds64_zero; [lia|reflexivity]).
  cbn [SFmul].
  pose proof (valid_finite sx mx ex VX) as (Hex & Hmx & Nx).
  pose proof (valid_finite sy my ey VY) as (Hey & Hmy & Ny).
  cbn [sval] in *. rewrite cond_Zopp_mul in *.
  apply (round_aux_signed (xorb sx sy) (Zpos (mx * my)) 1 (Zpos (mx * my))
           (ex + ey) loc_Exact
           (Zpos mx * 2 ^ (ex + 1074) * (Zpos my * 2 ^ (ey + 1074)))
           (2 ^ 1074) 1074 lo hi).
  - lia.
  - apply located_exact. lia.
  - (* the first shift is not to the left *)
    rewrite fexp64_eq.
    destruct (Z.le_gt_cases (ex + ey) (-1074)) as [L|G]; [lia|].
    assert (Hprod : 2 ^ 52 <= Zpos (mx * my)).
    { rewrite Pos2Z.inj_mul.
      destruct (Z.eq_dec ex (-1074)) as [E|E].
      - specialize (Ny ltac:(lia)). nia.
      - specialize (Nx ltac:(lia)). nia. }
    pose proof (Zdigits2_ge (Zpos (mx * my)) 52 ltac:(lia) Hprod). lia.
  - exact HS.
  - lia.
  - lia.
  - rewrite Pos2Z.inj_mul.
    replace (1074 + (ex + ey) + 1074) with ((ex + 1074) + (ey + 1074)) by lia.
    rewrite (Z.pow_add_r 2 (ex + 1074) (ey + 1074)) by lia. ring.
  - exact Rlo.
  - exact Rhi.
  - exact H.
Qed.

Lemma SFmul_bracket (X Y : spec_float) (lo hi : Z) :
  number X -> number Y -> rep_val lo -> rep_val hi ->
  lo * 2 ^ 1074 <= sval X * sval Y <= hi * 2 ^ 1074 ->
  SFfinite (SFmul 53 1024 X Y) /\ lo <= sval (SFmul 53 1024 X Y) <= hi.
Proof.
  intros HX HY Rl Rh H.
  destruct (SFmul_round X Y lo hi HX HY Rl Rh H) as (F & B & _).
  now split.
Qed.

(** ** Sums and differences *)
Lemma binary_round_round (sx : bool) (p : positive) (ez lo hi : Z) :
  -1074 <= ez -> rep_val lo -> rep_val hi ->
  lo <= cond_Zopp sx (Zpos p * 2 ^ (ez + 1074)) <= hi ->
  rounds64 (binary_round 53 1024 sx p ez) lo hi
    (cond_Zopp sx (Zpos p * 2 ^ (ez + 1074))) 1.
Proof.
  intros Hez Rlo Rhi H. apply rounds_to_64.
  apply (binary_round_gen 53 1024 ltac:(lia) ltac:(lia) sx p ez
           (Zpos p * 2 ^ (ez + 1074)) 1 0 lo hi);
    try assumption; try lia.
  - rewrite emin64. lia.
  - rewrite emin64. change (2 ^ 0) with 1.
    replace (0 + ez - -1074) with (ez + 1074) by lia. ring.
Qed.

Lemma binary_round_bracket (sx : bool) (p : positive) (ez lo hi : Z) :
  -1074 <= ez -> rep_val lo -> rep_val hi ->
  lo <= cond_Zopp sx (Zpos p * 2 ^ (ez + 1074)) <= hi ->
  SFfinite (binary_round 53 1024 sx p ez) /\
  lo <= sval (binary_round 53 1024 sx p ez) <= hi.
Proof.
  intros Hez Rl Rh H.
  destruct (binary_round_round sx p ez lo hi Hez Rl Rh H) as (F & B & _).
  now split.
Qed.

Lemma binary_normalize_round (S ez lo hi : Z) :
  -1074 <= ez -> rep_val lo -> rep_val hi ->
  lo <= S * 2 ^ (ez + 1074) <= hi ->
  rounds64 (binary_normalize 53 1024 S ez false) lo hi
    (S * 2 ^ (ez + 1074)) 1.
Proof.
  intros Hez Rlo Rhi H. destruct S as [|p|p]; cbn [binary_normalize].
  - apply rounds64_zero; [lia|reflexivity].
  - apply (binary_round_round false); assumption.
  - replace (Zneg p * 2 ^ (ez + 1074))
      with (cond_Zopp true (Zpos p * 2 ^ (ez + 1074))) in *
      by (cbn [cond_Zopp]; lia).
    apply (binary_round_round true); assumption.
Qed.

Lemma shl_align_min (m : positive) (e ez : Z) :
  ez <= e -> Zpos (fst (shl_align m e ez)) = Zpos m * 2 ^ (e - ez).
Proof.
  intros H. pose proof (shl_align_spec m e ez) as A.
  destruct (shl_align m e ez) as [m' e'']. cbn [fst].
  destruct A as (_ & _ & A3 & A4). rewrite A4, (A3 H). reflexivity.
Qed.

Lemma aligned_value (s : bool) (m : positive) (e ez : Z) :
  -1074 <= ez -> ez <= e ->
  cond_Zopp s (Zpos (fst (shl_align m e ez))) * 2 ^ (ez + 1074)
  = sval (S754_finite s m e).
Proof.
  intros H1 H2. rewrite shl_align_min by exact H2. cbn [sval].
  replace (e + 1074) with ((e - ez) + (ez + 1074)) by lia.
  rewrite (Z.pow_add_r 2 (e - ez) (ez + 1074)) by lia.
  destruct s; cbn [cond_Zopp]; ring.
Qed.

Lemma SFadd_round (X Y : spec_float) (lo hi : Z) :
  number X -> number Y -> rep_val lo -> rep_val hi ->
  lo <= sval X + sval Y <= hi ->
  rounds64 (SFadd 53 1024 X Y) lo hi (sval X + sval Y) 1.
Proof.
  intros [FX VX] [FY VY] Rlo Rhi H.
  destruct FX as [[sx ->]|(sx & mx & ex & ->)];
    destruct FY as [[sy ->]|(sy & my & ey & ->)].
  - cbn [SFadd]. destruct sx, sy; apply rounds64_zero;
      cbn [sval] in *; lia.
  - cbn [SFadd]. change (sval (S754_zero sx)) with 0 in *.
    rewrite Z.add_0_l in *.
    apply rounds64_exact; [now apply number_finite|exact H].
  - cbn [SFadd]. change (sval (S754_zero sy)) with 0 in *.
    rewrite Z.add_0_r in *.
    apply rounds64_exact; [now apply number_finite|exact H].
  - cbn [SFadd].
    pose proof (valid_finite sx mx ex VX) as (Hex & _).
    pose proof (valid_finite sy my ey VY) as (Hey & _).
    rewrite <- (aligned_value sx mx ex (Z.min ex ey)) in * by lia.
    rewrite <- (aligned_value sy my ey (Z.min ex ey)) in * by lia.
    rewrite <- Z.mul_add_distr_r in *.
    apply binary_normalize_round; try assumption. lia.
Qed.

Lemma SFadd_bracket (X Y : spec_float) (lo hi : Z) :
  number X -> number Y -> rep_val lo -> rep_val hi ->
  lo <= sval X + sval Y <= hi ->
  SFfinite (SFadd 53 1024 X Y) /\ lo <= sval (SFadd 53 1024 X Y) <= hi.
Proof.
  intros HX HY Rl Rh H.
  destruct (SFadd_round X Y lo hi HX HY Rl Rh H) as (F & B & _).
  now split.
Qed.

Lemma SFsub_round (X Y : spec_float) (lo hi : Z) :
  number X -> number Y -> rep_val lo -> rep_val hi ->
  lo <= sval X - sval Y <= hi ->
  rounds64 (SFsub 53 1024 X Y) lo hi (sval X - sval Y) 1.
Proof.
  intros [FX VX] [FY VY] Rlo Rhi H.
  destruct FX as [[sx ->]|(sx & mx & ex & ->)];
    destruct FY as [[sy ->]|(sy & my & ey & ->)].
  - cbn [SFsub]. destruct sx, sy; apply rounds64_zero;
      cbn [sval] in *; lia.
  - cbn [SFsub]. change (sval (S754_zero sx)) with 0 in *.
    assert (E : 0 - sval (S754_finite sy my ey)
                = sval (S754_finite (negb sy) my ey))
      by (cbn [sval]; destruct sy; cbn [negb cond_Zopp]; lia).
    rewrite E in *. apply rounds64_exact; [|exact H].
    apply number_finite. exact VY.
  - cbn [SFsub]. change (sval (S754_zero sy)) with 0 in *.
    rewrite Z.sub_0_r in *.
    apply rounds64_exact; [now apply number_finite|exact H].
  - cbn [SFsub].
    pose proof (valid_finite sx mx ex VX) as (Hex & _).
    pose proof (valid_finite sy my ey VY) as (Hey & _).
    rewrite <- (aligned_value sx mx ex (Z.min ex ey)) in * by lia.
    rewrite <- (aligned_value sy my ey (Z.min ex ey)) in * by lia.
    rewrite <- Z.mul_sub_distr_r in *.
    apply binary_normalize_round; try assumption. lia.
Qed.

Lemma SFsub_bracket (X Y : spec_float) (lo hi : Z) :
  number X -> number Y -> rep_val lo -> rep_val hi ->
  lo <= sval X - sval Y <= hi ->
  SFfinite (SFsub 53 1024 X Y) /\ lo <= sval (SFsub 53 1024 X Y) <= hi.
Proof.
  intros HX HY Rl Rh H.
  destruct (SFsub_round X Y lo hi HX HY Rl Rh H) as (F & B & _).
  now split.
Qed.

(** ** The quotient *)
Lemma shr_m_of_loc (m : Z) (l : location) : shr_m (shr_record_of_loc m l) = m.
Proof. now destruct l as [|[]]. Qed.

Lemma new_location_located (q r D : Z) :
  0 < D -> 0 <= q -> 0 <= r < D ->
  located (D * q + r) D (shr_record_of_loc q (new_location D r)).
Proof.
  intros HD Hq Hr. unfold located. rewrite shr_m_of_loc.
  replace (D * q + r - D * q) with r by ring.
  assert (EN : D * q + r = D * q <-> r = 0) by lia.
  rewrite EN.
  split; [exact Hq|]. split; [nia|].
  assert (Hodd : Z.even D = false -> 2 * r <> D).
  { intros Ev E. rewrite <- E, Z.even_mul in Ev. discriminate. }
  unfold new_location, new_location_even, new_location_odd.
  destruct (Z.even D); [clear Hodd|specialize (Hodd eq_refl)];
    cbv beta; destruct (Z.eqb_spec r 0) as [E0|N0].
  - cbn [shr_record_of_loc shr_r shr_s].
    split; split; intros H;
      first [reflexivity | discriminate | lia | exfalso; lia].
  - destruct (Z.compare_spec (2 * r) D) as [E|L|G];
      cbn [shr_record_of_loc shr_r shr_s];
      (split; split; intros H;
       first [reflexivity | discriminate | lia | exfalso; lia]).
  - cbn [shr_record_of_loc shr_r shr_s].
    split; split; intros H;
      first [reflexivity | discriminate | lia | exfalso; lia].
  - destruct (Z.compare_spec (2 * r + 1) D) as [E|L|G];
      cbn [shr_record_of_loc shr_r shr_s];
      (split; split; intros H;
       first [reflexivity | discriminate | lia | exfalso; lia]).
Qed.

Lemma div_core_located (mx my : positive) (ex ey : Z) :
  -1074 <= ex -> ey <= 971 ->
  exists q e' l,
    SFdiv_core_binary 53 1024 (Zpos mx) ex (Zpos my) ey = (q, e', l) /\
    0 <= ex - ey - e' /\ -2045 <= e' /\
    located (Zpos mx * 2 ^ (ex - ey - e')) (Zpos my) (shr_record_of_loc q l) /\
    0 <= fexp 53 1024 (Zdigits2 q + e') - e'.
Proof.
  intros Hex Hey. unfold SFdiv_core_binary.
  set (d1 := Zdigits2 (Zpos mx)). set (d2 := Zdigits2 (Zpos my)).
  set (F := fexp 53 1024 (d1 + ex - (d2 + ey))).
  set (e' := Z.min F (ex - ey)).
  set (s := ex - ey - e').
  assert (HF : F = Z.max (d1 + ex - (d2 + ey) - 53) (-1074)) by reflexivity.
  assert (Hs : 0 <= s) by (unfold s, e'; lia).
  pose proof (pow2_pos s Hs) as Hps.
  set (m' := match s with
             | 0 => Zpos mx
             | Zpos _ => Z.shiftl (Zpos mx) s
             | Zneg _ => 0
             end).
  assert (Em : m' = Zpos mx * 2 ^ s).
  { unfold m'. destruct s as [|p|p] eqn:Es; [|apply Z.shiftl_mul_pow2|]; lia. }
  pose proof (Z_div_mod m' (Zpos my) ltac:(lia)) as DM.
  destruct (Z.div_eucl m' (Zpos my)) as [q r]. destruct DM as [Eq Hr].
  assert (Hq : 0 <= q) by nia.
  exists q, e', (new_location (Zpos my) r).
  split; [reflexivity|]. split; [exact Hs|]. split; [unfold e'; lia|].
  fold s. rewrite <- Em. split.
  - rewrite Eq. apply new_location_located; lia.
  - rewrite fexp64_eq.
    destruct (Z.le_gt_cases e' (-1074)) as [L|G]; [lia|].
    assert (He' : e' <= d1 + ex - (d2 + ey) - 53) by (unfold e' in *; lia).
    pose proof (digits2_bounds mx) as [Dlo1 Dhi1].
    pose proof (digits2_bounds my) as [Dlo2 Dhi2].
    change (Zpos (digits2_pos mx)) with d1 in *.
    change (Zpos (digits2_pos my)) with d2 in *.
    assert (1 <= d1) by (unfold d1; cbn; lia).
    assert (1 <= d2) by (unfold d2; cbn; lia).
    set (k := d1 - 1 + s - d2).
    assert (Hk : 52 <= k) by (unfold k, s; lia).
    assert (Hqk : 2 ^ k <= q).
    { assert (E1 : 2 ^ (d1 - 1) * 2 ^ s = 2 ^ k * 2 ^ d2).
      { rewrite <- !Z.pow_add_r by lia. f_equal. unfold k. lia. }
      pose proof (pow2_pos k ltac:(lia)) as Hpk.
      destruct (Z.le_gt_cases (2 ^ k) q) as [L|L]; [exact L|]. nia. }
    pose proof (Zdigits2_ge q k ltac:(lia) Hqk). unfold k, s in *. lia.
Qed.

Lemma SFdiv_bracket (X : spec_float) (my : positive) (ey : Z) (lo hi : Z) :
  number X -> valid_binary (S754_finite false my ey) = true ->
  rep_val lo -> rep_val hi ->
  lo * sval (S754_finite false my ey) <= sval X * 2 ^ 1074
    <= hi * sval (S754_finite false my ey) ->
  SFfinite (SFdiv 53 1024 X (S754_finite false my ey)) /\
  lo <= sval (SFdiv 53 1024 X (S754_finite false my ey)) <= hi.
Proof.
  intros [FX VX] VY Rlo Rhi H.
  pose proof (valid_finite false my ey VY) as (Hey & Hmy & _).
  pose proof (valid_finite_top false my ey VY) as Htop.
  pose proof (pow2_pos (ey + 1074) ltac:(lia)) as Hpy.
  cbn [sval cond_Zopp] in H.
  destruct FX as [[sx ->]|(sx & mx & ex & ->)].
  - cbn [SFdiv]. split; [left; eexists; reflexivity|].
    cbn [sval] in *. nia.
  - pose proof (valid_finite sx mx ex VX) as (Hex & Hmx & _).
    cbn [SFdiv].
    destruct (div_core_located mx my ex ey Hex Htop)
      as (q & e' & l & -> & Hs & He' & Hl & Hn).
    rewrite xorb_false_r.
    destruct (round_aux_signed sx (Zpos mx * 2 ^ (ex - ey - e')) (Zpos my)
                q e' l
                (Zpos mx * 2 ^ (ex + 1074) * 2 ^ 1074)
                (Zpos my * 2 ^ (ey + 1074)) 2045 lo hi) as (F & B & _);
      try assumption; try lia; [| |now split].
    + assert (E : 2 ^ (ex + 1074) * 2 ^ 1074 * 2 ^ 2045
                  = 2 ^ (ex - ey - e') * 2 ^ (ey + 1074)
                    * 2 ^ (2045 + e' + 1074)).
      { rewrite <- !Z.pow_add_r by lia. f_equal. lia. }
      replace (Zpos mx * 2 ^ (ex + 1074) * 2 ^ 1074 * Zpos my * 2 ^ 2045)
        with (Zpos mx * Zpos my * (2 ^ (ex + 1074) * 2 ^ 1074 * 2 ^ 2045))
        by ring.
      rewrite E. ring.
    + cbn [sval] in H.
      replace (cond_Zopp sx (Zpos mx * 2 ^ (ex + 1074) * 2 ^ 1074))
        with (cond_Zopp sx (Zpos mx * 2 ^ (ex + 1074)) * 2 ^ 1074)
        by (destruct sx; cbn [cond_Zopp]; ring).
      exact H.
Qed.

(** ** Comparisons *)
Lemma mag_lt_exp (s1 s2 : bool) (m1 m2 : positive) (e1 e2 : Z) :
  valid_binary (S754_finite s1 m1 e1) = true ->
  valid_binary (S754_finite s2 m2 e2) = true ->
  e1 < e2 -> Zpos m1 * 2 ^ (e1 + 1074) < Zpos m2 * 2 ^ (e2 + 1074).
Proof.
  intros V1 V2 H.
  apply valid_finite in V1 as (He1 & Hm1 & _).
  apply valid_finite in V2 as (He2 & _ & Hm2). specialize (Hm2 ltac:(lia)).
  replace (e2 + 1074) with ((e2 - e1 - 1) + 1 + (e1 + 1074)) by lia.
  rewrite (Z.pow_add_r 2 (e2 - e1 - 1 + 1)) by lia.
  rewrite (Z.pow_add_r 2 (e2 - e1 - 1)) by lia. change (2 ^ 1) with 2.
  pose proof (pow2_pos (e1 + 1074) ltac:(lia)) as HX.
  pose proof (pow2_pos (e2 - e1 - 1) ltac:(lia)) as HY.
  set (X := 2 ^ (e1 + 1074)) in *. set (Y := 2 ^ (e2 - e1 - 1)) in *.
  change (2 ^ 53) with 9007199254740992 in *.
  change (2 ^ 52) with 4503599627370496 in *.
  assert (H1 : Zpos m1 * X < 9007199254740992 * X)
    by (apply Z.mul_lt_mono_pos_r; lia).
  assert (H2 : 4503599627370496 * 1 <= Zpos m2 * Y)
    by (apply Z.mul_le_mono_nonneg; lia).
  assert (H3 : 4503599627370496 * (2 * X) <= Zpos m2 * Y * (2 * X))
    by (apply Z.mul_le_mono_nonneg_r; lia).
  replace (Zpos m2 * (Y * 2 * X)) with (Zpos m2 * Y * (2 * X)) by ring.
  lia.
Qed.

Lemma SFcompare_sval (X Y : spec_float) :
  number X -> number Y -> SFcompare X Y = Some (sval X ?= sval Y).
Proof.
  intros [FX VX] [FY VY].
  destruct FX as [[sx ->]|(sx & mx & ex & ->)];
    destruct FY as [[sy ->]|(sy & my & ey & ->)]; cbn [SFcompare sval].
  - reflexivity.
  - pose proof (valid_finite sy my ey VY) as (He & _).
    pose proof (pow2_pos (ey + 1074) ltac:(lia)).
    f_equal. symmetry. destruct sy; cbn [cond_Zopp].
    + apply Z.compare_gt_iff. nia.
    + apply Z.compare_lt_iff. nia.
  - pose proof (valid_finite sx mx ex VX) as (He & _).
    pose proof (pow2_pos (ex + 1074) ltac:(lia)).
    f_equal. symmetry. destruct sx; cbn [cond_Zopp].
    + apply Z.compare_lt_iff. nia.
    + apply Z.compare_gt_iff. nia.
  - pose proof (valid_finite sx mx ex VX) as (Hex & _).
    pose proof (valid_finite sy my ey VY) as (Hey & _).
    pose proof (pow2_pos (ex + 1074) ltac:(lia)) as Hpx.
    pose proof (pow2_pos (ey + 1074) ltac:(lia)) as Hpy.
    assert (Same : ex = ey ->
              (Zpos mx * 2 ^ (ex + 1074) ?= Zpos my * 2 ^ (ey + 1074))
              = (mx ?= my)%positive).
    { intros <-.
      rewrite <- Zmult_compare_compat_r by lia. reflexivity. }
    f_equal. symmetry.
    destruct sx, sy; cbn [cond_Zopp].
    + rewrite Z.compare_opp.
      destruct (ex ?= ey) eqn:E.
      * apply Z.compare_eq in E.
        rewrite Z.compare_antisym, (Same E).
        change (Pos.compare_cont Eq mx my) with (mx ?= my)%positive.
        reflexivity.
      * apply Z.compare_gt_iff. apply Z.compare_lt_iff in E.
        now apply (mag_lt_exp true true).
      * apply Z.compare_lt_iff. apply Z.compare_gt_iff in E.
        now apply (mag_lt_exp true true).
    + apply Z.compare_lt_iff. nia.
    + apply Z.compare_gt_iff. nia.
    + destruct (ex ?= ey) eqn:E.
      * apply Z.compare_eq in E. rewrite (Same E). reflexivity.
      * apply Z.compare_lt_iff. apply Z.compare_lt_iff in E.
        now apply (mag_lt_exp false false).
      * apply Z.compare_gt_iff. apply Z.compare_gt_iff in E.
        now apply (mag_lt_exp false false).
Qed.

Lemma sval_abs (X : spec_float) : sval (SFabs X) = Z.abs (sval X).
Proof.
  destruct X as [s|s| |s m e]; try reflexivity.
  cbn [SFabs]. rewrite sval_finite_abs. reflexivity.
Qed.

Lemma sval_opp (X : spec_float) : sval (SFopp X) = - sval X.
Proof.
  destruct X as [s|s| |s m e]; try reflexivity.
  cbn [SFopp sval]. destruct s; cbn [negb cond_Zopp]; lia.
Qed.

Lemma SFfinite_abs (X : spec_float) : SFfinite X -> SFfinite (SFabs X).
Proof.
  intros [[s ->]|(s & m & e & ->)]; cbn [SFabs];
    [left|right]; repeat eexists.
Qed.

Lemma SFfinite_opp (X : spec_float) : SFfinite X -> SFfinite (SFopp X).
Proof.
  intros [[s ->]|(s & m & e & ->)]; cbn [SFopp];
    [left|right]; repeat eexists.
Qed.

(** ** The values of [double]s as rationals *)

Local Open Scope Q_scope.

(** The denominator [2^1074] of every binary64 value. *)
Definition unit64 : positive := (2 ^ 1074)%positive.

Lemma unit64_eq : Zpos unit64 = (2 ^ 1074)%Z.
Proof. unfold unit64. now rewrite Pos2Z.inj_pow. Qed.

(** The value of a finite [double]. *)
Definition F2Q (f : float) : Q := Qred (sval (Prim2SF f) # unit64).

(** The [double]s that are numbers: zeros and finite ones. *)
Definition finb (f : float) : bool :=
  match Prim2SF f with
  | S754_zero _ | S754_finite _ _ _ => true
  | _ => false
  end.

Definition fin (f : float) : Prop := SFfinite (Prim2SF f).

(** The rationals that are the value of some [double]. *)
Definition rep (q : Q) : Prop := exists z, rep_val z /\ q == z # unit64.

Definition repb (q : Q) : bool :=
  let z := (Qnum q * 2 ^ 1074 / Zpos (Qden q))%Z in
  let e := Z.max 0 (Z.log2 (Z.abs z) - 52) in
  ((z * Zpos (Qden q) =? Qnum q * 2 ^ 1074)%Z
   && (Z.abs z mod 2 ^ e =? 0)%Z && (e <=? 2045)%Z)%bool.

Lemma finb_fin (f : float) : finb f = true -> fin f.
Proof.
  unfold finb, fin. destruct (Prim2SF f) as [s|s| |s m e]; try discriminate.
  - intros _. left. now exists s.
  - intros _. right. now exists s, m, e.
Qed.

Lemma fin_number (f : float) : fin f -> number (Prim2SF f).
Proof. intros H. split; [exact H|apply Prim2SF_valid]. Qed.

Lemma F2Q_eq (f : float) : F2Q f == sval (Prim2SF f) # unit64.
Proof. apply Qred_correct. Qed.

Lemma Qle_unit (a b : Z) : a # unit64 <= b # unit64 <-> (a <= b)%Z.
Proof.
  unfold Qle. cbn [Qnum Qden].
  symmetry. apply Z.mul_le_mono_pos_r. reflexivity.
Qed.

Lemma Qlt_unit (a b : Z) : a # unit64 < b # unit64 <-> (a < b)%Z.
Proof.
  unfold Qlt. cbn [Qnum Qden].
  symmetry. apply Z.mul_lt_mono_pos_r. reflexivity.
Qed.

Lemma Qeq_unit (a b : Z) : a # unit64 == b # unit64 <-> a = b.
Proof.
  unfold Qeq. cbn [Qnum Qden]. split; [|now intros ->].
  intros H. apply (Z.mul_cancel_r a b (Zpos unit64)); [discriminate|exact H].
Qed.

Lemma rep_eq (q q' : Q) : q == q' -> rep q -> rep q'.
Proof. intros E (z & R & H). exists z. split; [exact R|]. now rewrite <- E. Qed.

Lemma rep_0 : rep 0.
Proof. exists 0%Z. split; [apply rep_val_0|reflexivity]. Qed.

Lemma rep_opp (q : Q) : rep q -> rep (- q).
Proof.
  intros (z & R & H). exists (- z)%Z. split; [now apply rep_val_opp|].
  rewrite H. reflexivity.
Qed.

Lemma rep_F2Q (f : float) : fin f -> rep (F2Q f).
Proof.
  intros H. exists (sval (Prim2SF f)).
  split; [apply sval_rep, fin_number, H | apply F2Q_eq].
Qed.

Lemma repb_rep (q : Q) : repb q = true -> rep q.
Proof.
  unfold repb. set (z := (Qnum q * 2 ^ 1074 / Zpos (Qden q))%Z).
  set (e := Z.max 0 (Z.log2 (Z.abs z) - 52)).
  intros H. apply andb_true_iff in H as [H He].
  apply andb_true_iff in H as [Hz Hm].
  apply Z.eqb_eq in Hz, Hm. apply Z.leb_le in He.
  exists z. split.
  - unfold rep_val. exists (Z.abs z / 2 ^ e)%Z, e. rewrite emin64.
    assert (He0 : (0 <= e)%Z) by (unfold e; lia).
    pose proof (pow2_pos e He0) as Hpe.
    assert (Ez : Z.abs z = (Z.abs z / 2 ^ e * 2 ^ e)%Z).
    { rewrite (Z.div_mod (Z.abs z) (2 ^ e)) at 1 by lia. rewrite Hm. ring. }
    split; [|split; [lia|exact Ez]].
    split; [apply Z.div_pos; lia|].
    apply Z.div_lt_upper_bound; [lia|].
    destruct (Z.eq_dec (Z.abs z) 0) as [E0|N0].
    + rewrite E0. pose proof (pow2_pos 53 ltac:(lia)). nia.
    + pose proof (Z.log2_spec (Z.abs z) ltac:(lia)) as [_ Hl].
      assert ((2 ^ Z.succ (Z.log2 (Z.abs z)) <= 2 ^ (e + 53))%Z)
        by (apply Z.pow_le_mono_r; unfold e; lia).
      rewrite Z.pow_add_r in H by lia. lia.
  - unfold Qeq. cbn [Qnum Qden]. rewrite unit64_eq. lia.
Qed.

Lemma fin_sval_sign (f : float) :
  fin f -> (0 < sval (Prim2SF f))%Z ->
  exists m e, Prim2SF f = S754_finite false m e.
Proof.
  intros [[s E]|(s & m & e & E)] H; rewrite E in H; cbn [sval] in H; [lia|].
  pose proof (Prim2SF_valid f) as V. rewrite E in V.
  apply valid_finite in V as (He & _).
  pose proof (pow2_pos (e + 1074) ltac:(lia)).
  destruct s; cbn [cond_Zopp] in H; [nia|]. now exists m, e.
Qed.

(** The operations keep the representable bounds of their exact result. *)
Lemma mul_bracket (a b : float) (lo hi : Q) :
  fin a -> fin b -> rep lo -> rep hi ->
  lo <= F2Q a * F2Q b <= hi ->
  fin (a * b)%float /\ lo <= F2Q (a * b)%float <= hi.
Proof.
  intros Fa Fb (zl & Rl & El) (zh & Rh & Eh) H.
  rewrite El, Eh, (F2Q_eq a), (F2Q_eq b) in H.
  rewrite El, Eh, (F2Q_eq (a * b)).
  unfold fin. rewrite mul_spec.
  change (SF64mul (Prim2SF a) (Prim2SF b))
    with (SFmul 53 1024 (Prim2SF a) (Prim2SF b)).
  rewrite !Qle_unit.
  apply SFmul_bracket; try (apply fin_number; assumption); try assumption.
  destruct H as [H1 H2]. unfold Qle, Qmult in H1, H2.
  cbn [Qnum Qden] in H1, H2. rewrite Pos2Z.inj_mul in H1, H2.
  rewrite <- unit64_eq.
  assert (0 < Zpos unit64)%Z by reflexivity.
  set (U := Zpos unit64) in *.
  split; apply (mul_le_cancel_r _ _ U); try assumption; lia.
Qed.

Lemma add_bracket (a b : float) (lo hi : Q) :
  fin a -> fin b -> rep lo -> rep hi ->
  lo <= F2Q a + F2Q b <= hi ->
  fin (a + b)%float /\ lo <= F2Q (a + b)%float <= hi.
Proof.
  intros Fa Fb (zl & Rl & El) (zh & Rh & Eh) H.
  rewrite El, Eh, (F2Q_eq a), (F2Q_eq b) in H.
  rewrite El, Eh, (F2Q_eq (a + b)).
  unfold fin. rewrite add_spec.
  change (SF64add (Prim2SF a) (Prim2SF b))
    with (SFadd 53 1024 (Prim2SF a) (Prim2SF b)).
  rewrite !Qle_unit.
  apply SFadd_bracket; try (apply fin_number; assumption); try assumption.
  destruct H as [H1 H2]. unfold Qle, Qplus in H1, H2.
  cbn [Qnum Qden] in H1, H2. rewrite Pos2Z.inj_mul in H1, H2.
  assert (0 < Zpos unit64)%Z by reflexivity.
  set (U := Zpos unit64) in *.
  split; apply (mul_le_cancel_r _ _ (U * U)); try nia.
Qed.

Lemma sub_bracket (a b : float) (lo hi : Q) :
  fin a -> fin b -> rep lo -> rep hi ->
  lo <= F2Q a - F2Q b <= hi ->
  fin (a - b)%float /\ lo <= F2Q (a - b)%float <= hi.
Proof.
  intros Fa Fb (zl & Rl & El) (zh & Rh & Eh) H.
  rewrite El, Eh, (F2Q_eq a), (F2Q_eq b) in H.
  rewrite El, Eh, (F2Q_eq (a - b)).
  unfold fin. rewrite sub_spec.
  change (SF64sub (Prim2SF a) (Prim2SF b))
    with (SFsub 53 1024 (Prim2SF a) (Prim2SF b)).
  rewrite !Qle_unit.
  apply SFsub_bracket; try (apply fin_number; assumption); try assumption.
  destruct H as [H1 H2]. unfold Qle, Qminus, Qplus, Qopp in H1, H2.
  cbn [Qnum Qden] in H1, H2. rewrite Pos2Z.inj_mul in H1, H2.
  assert (0 < Zpos unit64)%Z by reflexivity.
  set (U := Zpos unit64) in *.
  split; apply (mul_le_cancel_r _ _ (U * U)); try nia.
Qed.

Lemma div_bracket (a b : float) (lo hi : Q) :
  fin a -> fin b -> 0 < F2Q b -> rep lo -> rep hi ->
  lo * F2Q b <= F2Q a <= hi * F2Q b ->
  fin (a / b)%float /\ lo <= F2Q (a / b)%float <= hi.
Proof.
  intros Fa Fb Hb (zl & Rl & El) (zh & Rh & Eh) H.
  rewrite El, Eh, (F2Q_eq a), (F2Q_eq b) in H.
  rewrite El, Eh, (F2Q_eq (a / b)). rewrite F2Q_eq in Hb.
  assert (E0 : 0 == 0 # unit64) by reflexivity.
  rewrite E0, Qlt_unit in Hb.
  destruct (fin_sval_sign b Fb Hb) as (my & ey & Eb).
  unfold fin. rewrite div_spec.
  change (SF64div (Prim2SF a) (Prim2SF b))
    with (SFdiv 53 1024 (Prim2SF a) (Prim2SF b)).
  rewrite !Qle_unit.
  pose proof (Prim2SF_valid b) as Vb. rewrite Eb in *.
  apply SFdiv_bracket; try (apply fin_number; assumption); try assumption.
  destruct H as [H1 H2]. unfold Qle, Qmult in H1, H2.
  cbn [Qnum Qden] in H1, H2. rewrite Pos2Z.inj_mul in H1, H2.
  rewrite <- unit64_eq.
  assert (0 < Zpos unit64)%Z by reflexivity.
  set (U := Zpos unit64) in *.
  split; apply (mul_le_cancel_r _ _ U); try assumption; lia.
Qed.

Lemma abs_Q (a : float) :
  fin a -> fin (abs a) /\ F2Q (abs a) == Qabs (F2Q a).
Proof.
  intros Fa. unfold fin. rewrite (F2Q_eq a), (F2Q_eq (abs a)), abs_spec.
  split; [now apply SFfinite_abs|]. rewrite sval_abs. reflexivity.
Qed.

Lemma opp_Q (a : float) :
  fin a -> fin (- a)%float /\ F2Q (- a)%float == - F2Q a.
Proof.
  intros Fa. unfold fin. rewrite (F2Q_eq a), (F2Q_eq (- a)), opp_spec.
  split; [now apply SFfinite_opp|]. rewrite sval_opp. reflexivity.
Qed.

Lemma ltb_Q (a b : float) :
  fin a -> fin b -> ((a <? b)%float = true <-> F2Q a < F2Q b).
Proof.
  intros Fa Fb. rewrite ltb_spec, (F2Q_eq a), (F2Q_eq b), Qlt_unit.
  unfold SFltb.
  rewrite (SFcompare_sval _ _ (fin_number a Fa) (fin_number b Fb)).
  rewrite <- Z.compare_lt_iff.
  destruct (sval (Prim2SF a) ?= sval (Prim2SF b))%Z; split; congruence.
Qed.

Lemma leb_Q (a b : float) :
  fin a -> fin b -> ((a <=? b)%float = true <-> F2Q a <= F2Q b).
Proof.
  intros Fa Fb. rewrite leb_spec, (F2Q_eq a), (F2Q_eq b), Qle_unit.
  unfold SFleb.
  rewrite (SFcompare_sval _ _ (fin_number a Fa) (fin_number b Fb)).
  rewrite <- Z.compare_le_iff.
  destruct (sval (Prim2SF a) ?= sval (Prim2SF b))%Z; split; congruence.
Qed.

Lemma ltb_false_Q (a b : float) :
  fin a -> fin b -> ((a <? b)%float = false <-> F2Q b <= F2Q a).
Proof.
  intros Fa Fb. pose proof (ltb_Q a b Fa Fb) as H.
  destruct (a <? b)%float; split; intros H1; try reflexivity.
  - discriminate.
  - pose proof (proj1 H eq_refl). lra.
  - apply Qnot_lt_le. intros H2. apply H in H2. discriminate.
Qed.

(** A [double] between two numbers is a number. *)
Lemma leb_fin (a x b : float) :
  fin a -> fin b -> (a <=? x)%float = true -> (x <=? b)%float = true ->
  fin x.
Proof.
  intros Fa Fb. rewrite !leb_spec. unfold SFleb, fin in *.
  destruct (Prim2SF x) as [s|s| |s m e].
  - intros _ _. left. now exists s.
  - destruct s.
    + destruct Fa as [[sa ->]|(sa & ma & ea & ->)]; cbn; discriminate.
    + intros _.
      destruct Fb as [[sb ->]|(sb & mb & eb & ->)]; cbn; discriminate.
  - destruct (Prim2SF a) as [sa|sa| |sa ma ea]; cbn; discriminate.
  - intros _ _. right. now exists s, m, e.
Qed.

End Bracket.

(** * Finite running values in binary64 *)

Import Bracket.

(** [lo <= v <= hi] as [double]s compare: [v] is not NaN. *)
Definition in_range (lo hi v : float) : Prop :=
  (lo <=? v)%float = true /\ (v <=? hi)%float = true.

(** A sample a [float] buffer can hold: every finite [float] lies within
    [2^128]. *)
Definition sample_ok (x : float) : Prop :=
  in_range (-0x1p128)%float 0x1p128%float x.

(** The ranges of the running values of a channel. *)
Definition chan_in_range (s : ButterComp2State float) (ch : chan) : Prop :=
  in_range 0%float 0x1p133%float (aget (control_A_pos s) ch) /\
  in_range (-0x1p133)%float 0%float (aget (control_A_neg s) ch) /\
  in_range 0%float 0x1p131%float (aget (target_pos s) ch) /\
  in_range (-0x1p131)%float 0%float (aget (target_neg s) ch) /\
  in_range 0%float 0x1p131%float (aget (avg_A s) ch).

Definition state_in_range (s : ButterComp2State float) : Prop :=
  forall ch, chan_in_range s ch.

(** The three parameters lie in [[0, 1]]. *)
Definition params_in_unit (s : ButterComp2State float) : Prop :=
  in_range 0%float 1%float (compress s) /\
  in_range 0%float 1%float (output s) /\
  in_range 0%float 1%float (dry_wet s).

(** The sample rate is at least 1 Hz, or, more generally, the release
    speed [0.001 * (1 / sample_rate)] lies in [[0, 1]]. *)
Definition rate_ok (s : ButterComp2State float) : Prop :=
  (1 <=? sample_rate s)%float = true \/
  in_range 0%float 1%float (release_speed (locals_of s)).

Local Open Scope Q_scope.

(** [f] is a number, of a value in [[lo, hi]]. *)
Definition within (lo hi : Q) (f : float) : Prop :=
  fin f /\ lo <= F2Q f <= hi.

(** [f] is a number of magnitude at most [B], on the side of zero that
    [v] is on. *)
Definition sided (B v : Q) (f : float) : Prop :=
  fin f /\ (0 <= v -> 0 <= F2Q f <= B) /\ (v <= 0 -> - B <= F2Q f <= 0).

(** The bounds: of a sample, of a conditioned sample, of the targets and
    the envelope, of the control targets, of the controls. *)
Definition bound_x : Q := Eval vm_compute in F2Q 0x1p128.
Definition bound_c : Q := Eval vm_compute in F2Q 0x1p130.
Definition bound_t : Q := Eval vm_compute in F2Q 0x1p131.
Definition bound_a : Q := Eval vm_compute in F2Q 0x1p132.
Definition bound_u : Q := Eval vm_compute in F2Q 0x1p133.

(** The literals of the source. *)
Definition q0_001 : Q := Eval vm_compute in F2Q 0.001.
Definition q0_1 : Q := Eval vm_compute in F2Q 0.1.
Definition q0_999 : Q := Eval vm_compute in F2Q 0.999.

Ltac rep_tac :=
  match goal with
  | |- rep _ =>
    first [ assumption
          | apply rep_opp; assumption
          | apply rep_F2Q; assumption
          | apply rep_opp, rep_F2Q; assumption
          | apply repb_rep; vm_compute; reflexivity ]
  end.

Ltac bounds :=
  unfold bound_x, bound_c, bound_t, bound_a, bound_u,
    q0_001, q0_1, q0_999 in *.

Section Binary64Ranges.

Lemma within_weaken (lo hi lo' hi' : Q) (f : float) :
  within lo hi f -> lo' <= lo -> hi <= hi' -> within lo' hi' f.
Proof. intros [F [H1 H2]] L H. split; [exact F|]. split; lra. Qed.

Lemma within_const (k : float) (q : Q) :
  finb k = true -> F2Q k = q -> within q q k.
Proof.
  intros F <-. split; [now apply finb_fin|]. split; apply Qle_refl.
Qed.

Lemma mul_within (a b : float) (la ha lb hb lo hi : Q) :
  within la ha a -> within lb hb b -> rep lo -> rep hi ->
  (forall u v, la <= u <= ha -> lb <= v <= hb -> lo <= u * v <= hi) ->
  within lo hi (a * b)%float.
Proof.
  intros [Fa Ha] [Fb Hb] Rl Rh H.
  apply mul_bracket; try assumption. now apply H.
Qed.

Lemma add_within (a b : float) (la ha lb hb lo hi : Q) :
  within la ha a -> within lb hb b -> rep lo -> rep hi ->
  (forall u v, la <= u <= ha -> lb <= v <= hb -> lo <= u + v <= hi) ->
  within lo hi (a + b)%float.
Proof.
  intros [Fa Ha] [Fb Hb] Rl Rh H.
  apply add_bracket; try assumption. now apply H.
Qed.

Lemma sub_within (a b : float) (la ha lb hb lo hi : Q) :
  within la ha a -> within lb hb b -> rep lo -> rep hi ->
  (forall u v, la <= u <= ha -> lb <= v <= hb -> lo <= u - v <= hi) ->
  within lo hi (a - b)%float.
Proof.
  intros [Fa Ha] [Fb Hb] Rl Rh H.
  apply sub_bracket; try assumption. now apply H.
Qed.

Lemma abs_within (a : float) (h : Q) :
  within (- h) h a -> within 0 h (abs a).
Proof.
  intros [Fa Ha]. destruct (abs_Q a Fa) as [F E].
  split; [exact F|]. rewrite E. split; [apply Qabs_nonneg|].
  apply Qabs_Qle_condition. exact Ha.
Qed.

Lemma opp_within (a : float) (lo hi : Q) :
  within lo hi a -> within (- hi) (- lo) (- a)%float.
Proof.
  intros [Fa Ha]. destruct (opp_Q a Fa) as [F E].
  split; [exact F|]. rewrite E. split; lra.
Qed.

(** Between the comparisons of [double]s and the values. *)
Lemma in_range_within (lo hi v : float) :
  finb lo = true -> finb hi = true ->
  in_range lo hi v -> within (F2Q lo) (F2Q hi) v.
Proof.
  intros Fl Fh [H1 H2]. apply finb_fin in Fl, Fh.
  pose proof (leb_fin lo v hi Fl Fh H1 H2) as Fv.
  split; [exact Fv|]. split; now apply leb_Q.
Qed.

Lemma within_in_range (lo hi v : float) :
  finb lo = true -> finb hi = true ->
  within (F2Q lo) (F2Q hi) v -> in_range lo hi v.
Proof.
  intros Fl Fh [Fv [H1 H2]]. apply finb_fin in Fl, Fh.
  split; now apply leb_Q.
Qed.

Lemma within_0_001 : within q0_001 q0_001 0.001.
Proof. apply within_const; vm_compute; reflexivity. Qed.

Lemma within_0_1 : within q0_1 q0_1 0.1.
Proof. apply within_const; vm_compute; reflexivity. Qed.

Lemma within_0_999 : within q0_999 q0_999 0.999.
Proof. apply within_const; vm_compute; reflexivity. Qed.

Lemma within_1 : within 1 1 1.
Proof. apply within_const; vm_compute; reflexivity. Qed.

Lemma within_2 : within 2 2 2.
Proof. apply within_const; vm_compute; reflexivity. Qed.

Lemma within_14 : within 14 14 14.
Proof. apply within_const; vm_compute; reflexivity. Qed.

(** ** The steps of the engine on values in range *)

(** [1 + compress_amount * 0.1], the gain of the conditioning and the
    ratio of the second stage. *)
Lemma factor_within (ca : float) :
  within 0 14 ca -> within 1 3 (1 + ca * 0.1)%float.
Proof.
  intros H.
  assert (H1 : within 0 2 (ca * 0.1)%float).
  { apply (mul_within ca 0.1 0 14 q0_1 q0_1); try rep_tac;
      [exact H|exact within_0_1|].
    intros u v Hu Hv. bounds. nra. }
  apply (add_within 1 (ca * 0.1) 1 1 0 2); try rep_tac;
    [exact within_1|exact H1|].
  intros u v Hu Hv. lra.
Qed.

(** The one-pole filter [t * 0.999 + p * 0.001]. *)
Lemma decay_within (t p : float) :
  within 0 bound_t t -> within 0 bound_c p ->
  within 0 bound_t (t * 0.999 + p * 0.001)%float.
Proof.
  intros Ht Hp.
  assert (H1 : within 0 (bound_t * q0_999) (t * 0.999)%float).
  { apply (mul_within t 0.999 0 bound_t q0_999 q0_999); try rep_tac;
      [exact Ht|exact within_0_999|].
    intros u v Hu Hv. bounds. nra. }
  assert (H2 : within 0 (bound_c * q0_001) (p * 0.001)%float).
  { apply (mul_within p 0.001 0 bound_c q0_001 q0_001); try rep_tac;
      [exact Hp|exact within_0_001|].
    intros u v Hu Hv. bounds. nra. }
  apply (add_within _ _ _ _ _ _ 0 bound_t H1 H2); try rep_tac.
  intros u v Hu Hv. bounds. lra.
Qed.

Lemma decay_neg_within (t p : float) :
  within (- bound_t) 0 t -> within (- bound_c) 0 p ->
  within (- bound_t) 0 (t * 0.999 + p * 0.001)%float.
Proof.
  intros Ht Hp.
  assert (H1 : within (- (bound_t * q0_999)) 0 (t * 0.999)%float).
  { apply (mul_within t 0.999 (- bound_t) 0 q0_999 q0_999); try rep_tac;
      [exact Ht|exact within_0_999|].
    intros u v Hu Hv. bounds. nra. }
  assert (H2 : within (- (bound_c * q0_001)) 0 (p * 0.001)%float).
  { apply (mul_within p 0.001 (- bound_c) 0 q0_001 q0_001); try rep_tac;
      [exact Hp|exact within_0_001|].
    intros u v Hu Hv. bounds. nra. }
  apply (add_within _ _ _ _ _ _ (- bound_t) 0 H1 H2); try rep_tac.
  intros u v Hu Hv. bounds. lra.
Qed.

(** The control targets [target * compress_amount * 0.1]. *)
Lemma control_within (t ca : float) :
  within 0 bound_t t -> within 0 14 ca ->
  within 0 bound_a (t * ca * 0.1)%float.
Proof.
  intros Ht Hc.
  assert (H1 : within 0 (14 * bound_t) (t * ca)%float).
  { apply (mul_within t ca 0 bound_t 0 14); try rep_tac;
      [exact Ht|exact Hc|].
    intros u v Hu Hv. bounds. nra. }
  apply (mul_within _ 0.1 _ _ q0_1 q0_1 0 bound_a H1 within_0_1);
    try rep_tac.
  intros u v Hu Hv. bounds. nra.
Qed.

Lemma control_neg_within (t ca : float) :
  within (- bound_t) 0 t -> within 0 14 ca ->
  within (- bound_a) 0 (t * ca * 0.1)%float.
Proof.
  intros Ht Hc.
  assert (H1 : within (- (14 * bound_t)) 0 (t * ca)%float).
  { apply (mul_within t ca (- bound_t) 0 0 14); try rep_tac;
      [exact Ht|exact Hc|].
    intros u v Hu Hv. bounds. nra. }
  apply (mul_within _ 0.1 _ _ q0_1 q0_1 (- bound_a) 0 H1 within_0_1);
    try rep_tac.
  intros u v Hu Hv. bounds. nra.
Qed.

(** The control [c + (a - c) * release_speed], for a release speed of at
    most 1: it stays on its side of zero and within twice the bound of
    its target. *)
Lemma release_within (a c rs : float) :
  within 0 bound_a a -> within 0 bound_u c -> within 0 1 rs ->
  within 0 bound_u (c + (a - c) * rs)%float.
Proof.
  intros [Fa Ha] [Fc Hc] [Fr Hr].
  destruct (Qlt_le_dec (F2Q c) (F2Q a)) as [Hlt|Hge].
  - (* the control rises *)
    destruct (sub_bracket a c 0 (F2Q a) Fa Fc) as [Fd Hd];
      try rep_tac; [lra|].
    destruct (mul_bracket (a - c) rs 0 (F2Q a) Fd Fr) as [Fe He];
      try rep_tac; [nra|].
    apply add_bracket; try assumption; try rep_tac. bounds. lra.
  - (* the control falls *)
    destruct (sub_bracket a c (- F2Q c) 0 Fa Fc) as [Fd Hd];
      try rep_tac; [lra|].
    destruct (mul_bracket (a - c) rs (- F2Q c) 0 Fd Fr) as [Fe He];
      try rep_tac; [nra|].
    destruct (add_bracket c ((a - c) * rs) 0 (F2Q c) Fc Fe) as [Ff Hf];
      try rep_tac; [lra|].
    split; [exact Ff|]. lra.
Qed.

Lemma release_neg_within (a c rs : float) :
  within (- bound_a) 0 a -> within (- bound_u) 0 c -> within 0 1 rs ->
  within (- bound_u) 0 (c + (a - c) * rs)%float.
Proof.
  intros [Fa Ha] [Fc Hc] [Fr Hr].
  destruct (Qlt_le_dec (F2Q a) (F2Q c)) as [Hlt|Hge].
  - (* the control falls *)
    destruct (sub_bracket a c (F2Q a) 0 Fa Fc) as [Fd Hd];
      try rep_tac; [lra|].
    destruct (mul_bracket (a - c) rs (F2Q a) 0 Fd Fr) as [Fe He];
      try rep_tac; [nra|].
    apply add_bracket; try assumption; try rep_tac. bounds. lra.
  - (* the control rises *)
    destruct (sub_bracket a c 0 (- F2Q c) Fa Fc) as [Fd Hd];
      try rep_tac; [lra|].
    destruct (mul_bracket (a - c) rs 0 (- F2Q c) Fd Fr) as [Fe He];
      try rep_tac; [nra|].
    destruct (add_bracket c ((a - c) * rs) (F2Q c) 0 Fc Fe) as [Ff Hf];
      try rep_tac; [lra|].
    split; [exact Ff|]. lra.
Qed.

(** The divisors [1 + control]. *)
Lemma divisor_within (v : float) :
  within 0 bound_u v -> within 1 (2 * bound_u) (1 + v)%float.
Proof.
  intros H.
  apply (add_within 1 v 1 1 0 bound_u); try rep_tac;
    [exact within_1|exact H|].
  intros u w Hu Hw. bounds. lra.
Qed.

(** A quotient by a divisor of at least 1 stays between zero and the
    dividend. *)
Lemma quotient_sided (B v D : Q) (x d : float) :
  sided B v x -> within 1 D d -> sided B v (x / d)%float.
Proof.
  intros (Fx & Hp & Hn) [Fd Hd].
  destruct (Qlt_le_dec (F2Q x) 0) as [Hlt|Hge].
  - destruct (div_bracket x d (F2Q x) 0 Fx Fd) as [Fq Hq];
      try rep_tac; [lra|nra|].
    split; [exact Fq|]. split; intros Hv.
    + specialize (Hp Hv). lra.
    + specialize (Hn Hv). lra.
  - destruct (div_bracket x d 0 (F2Q x) Fx Fd) as [Fq Hq];
      try rep_tac; [lra|nra|].
    split; [exact Fq|]. split; intros Hv.
    + specialize (Hp Hv). lra.
    + specialize (Hn Hv). lra.
Qed.

(** The conditioned sample [x * (1 + compress_amount * 0.1)]. *)
Lemma conditioned_sided (x f : float) :
  within (- bound_x) bound_x x -> within 1 3 f ->
  sided bound_c (F2Q x) (x * f)%float.
Proof.
  intros [Fx Hx] [Ff Hf].
  destruct (Q_dec (F2Q x) 0) as [[Hlt|Hgt]|Heq].
  - destruct (mul_bracket x f (- bound_c) 0 Fx Ff) as [Fq Hq];
      try rep_tac; [bounds; nra|].
    split; [exact Fq|]. split; intros Hv; lra.
  - destruct (mul_bracket x f 0 bound_c Fx Ff) as [Fq Hq];
      try rep_tac; [bounds; nra|].
    split; [exact Fq|]. split; intros Hv; lra.
  - destruct (mul_bracket x f 0 0 Fx Ff) as [Fq Hq];
      try rep_tac; [nra|].
    split; [exact Fq|]. bounds. split; intros Hv; lra.
Qed.

Lemma sided_within (B v : Q) (f : float) :
  0 <= B -> sided B v f -> within (- B) B f.
Proof.
  intros HB (F & Hp & Hn). split; [exact F|].
  destruct (Qlt_le_dec v 0) as [Hlt|Hge].
  - specialize (Hn ltac:(lra)). lra.
  - specialize (Hp Hge). lra.
Qed.

(** A product with a factor in [[0, k]] and a sum stay on the side. *)
Lemma sided_scale (B k B' v : Q) (z g : float) :
  sided B v z -> within 0 k g -> rep B' -> 0 <= B -> B * k <= B' ->
  sided B' v (z * g)%float.
Proof.
  intros (Fz & Hp & Hn) [Fg Hg] RB HB Hk.
  destruct (Q_dec (F2Q z) 0) as [[Hlt|Hgt]|Heq].
  - assert (Hv : v <= 0).
    { destruct (Qlt_le_dec 0 v) as [H|H]; [|exact H].
      specialize (Hp ltac:(lra)). lra. }
    specialize (Hn Hv).
    assert (H1 : - (B * F2Q g) <= F2Q z * F2Q g) by nra.
    assert (H2 : B * F2Q g <= B * k) by nra.
    destruct (mul_bracket z g (- B') 0 Fz Fg) as [Fq Hq];
      try rep_tac; [nra|].
    split; [exact Fq|]. split; intros Hv'; [|exact Hq].
    specialize (Hp Hv'). lra.
  - assert (Hv : 0 <= v).
    { destruct (Qlt_le_dec v 0) as [H|H]; [|exact H].
      specialize (Hn ltac:(lra)). lra. }
    specialize (Hp Hv).
    assert (H1 : F2Q z * F2Q g <= B * F2Q g) by nra.
    assert (H2 : B * F2Q g <= B * k) by nra.
    destruct (mul_bracket z g 0 B' Fz Fg) as [Fq Hq];
      try rep_tac; [nra|].
    split; [exact Fq|]. split; intros Hv'; [exact Hq|].
    specialize (Hn Hv'). lra.
  - destruct (mul_bracket z g 0 0 Fz Fg) as [Fq Hq];
      try rep_tac; [nra|].
    split; [exact Fq|]. split; intros Hv'; nra.
Qed.

Lemma sided_add (B1 B2 B v : Q) (a b : float) :
  sided B1 v a -> sided B2 v b -> rep B -> B1 + B2 <= B ->
  sided B v (a + b)%float.
Proof.
  intros (Fa & Hpa & Hna) (Fb & Hpb & Hnb) RB HB.
  destruct (Q_dec v 0) as [[Hlt|Hgt]|Heq].
  - specialize (Hna ltac:(lra)). specialize (Hnb ltac:(lra)).
    destruct (add_bracket a b (- B) 0 Fa Fb) as [Fq Hq];
      try rep_tac; [lra|].
    split; [exact Fq|]. split; intros Hv'; [lra|exact Hq].
  - specialize (Hpa ltac:(lra)). specialize (Hpb ltac:(lra)).
    destruct (add_bracket a b 0 B Fa Fb) as [Fq Hq];
      try rep_tac; [lra|].
    split; [exact Fq|]. split; intros Hv'; [exact Hq|lra].
  - specialize (Hna ltac:(lra)). specialize (Hnb ltac:(lra)).
    specialize (Hpa ltac:(lra)). specialize (Hpb ltac:(lra)).
    destruct (add_bracket a b 0 0 Fa Fb) as [Fq Hq];
      try rep_tac; [lra|].
    split; [exact Fq|]. split; intros Hv'; lra.
Qed.

Lemma sided_self (B : Q) (x : float) :
  within (- B) B x -> sided B (F2Q x) x.
Proof. intros [F H]. split; [exact F|]. split; intros Hv; lra. Qed.

(** ** The stages *)

Definition tuple_within (t : float * float * float * float * float) : Prop :=
  let '(cp, cn, tp, tn, av) := t in
  within 0 bound_u cp /\ within (- bound_u) 0 cn /\
  within 0 bound_t tp /\ within (- bound_t) 0 tn /\ within 0 bound_t av.

Definition chan_within (s : ButterComp2State float) (ch : chan) : Prop :=
  tuple_within (chan_state s ch).

Definition locals_within (c : @Locals float) : Prop :=
  within 0 14 (compress_amount c) /\ within 0 2 (output_gain c) /\
  within 0 1 (wet c) /\ within 0 1 (dry c) /\ within 0 1 (release_speed c).

Lemma first_stage_within (c : @Locals float) (s : ButterComp2State float)
  (ch : chan) (x : float) :
  locals_within c -> chan_within s ch -> within (- bound_x) bound_x x ->
  chan_within (fst (first_stage c s ch x)) ch /\
  sided bound_c (F2Q x) (snd (first_stage c s ch x)).
Proof.
  intros (Hca & _ & _ & _ & Hrs) (Hcp & Hcn & Htp & Htn & Hav) Hx.
  unfold first_stage.
  cbn [ltb mul add sub div neg fabs k0 k1 k0_1 k0_999 k0_001 Arith_double].
  cbn [target_pos target_neg with_target_pos with_target_neg].
  rewrite !aget_aset_same.
  pose proof (factor_within _ Hca) as Hf.
  pose proof (conditioned_sided x _ Hx Hf) as Hc.
  set (cond := (x * (1 + compress_amount c * 0.1))%float) in *.
  assert (Hcw : within (- bound_c) bound_c cond)
    by (apply (sided_within _ (F2Q x)); [unfold bound_c; lra|exact Hc]).
  pose proof (abs_within cond bound_c Hcw) as Hpt.
  pose proof (opp_within _ _ _ Hpt) as Hnt.
  pose proof (decay_within _ _ Htp Hpt) as Htp'.
  assert (Hnt' : within (- bound_c) 0 (- abs cond)%float)
    by (apply (within_weaken _ _ _ _ _ Hnt); lra).
  pose proof (decay_neg_within _ _ Htn Hnt') as Htn'.
  set (tp' := (aget (target_pos s) ch * 0.999 + abs cond * 0.001)%float) in *.
  set (tn' := (aget (target_neg s) ch * 0.999 + - abs cond * 0.001)%float)
    in *.
  pose proof (control_within _ _ Htp' Hca) as HcA.
  pose proof (control_neg_within _ _ Htn' Hca) as HcB.
  pose proof (release_within _ _ _ HcA Hcp Hrs) as Hcp'.
  pose proof (release_neg_within _ _ _ HcB Hcn Hrs) as Hcn'.
  destruct (0 <? cond)%float;
    cbn [fst snd control_A_pos control_A_neg with_control_A_pos
         with_control_A_neg with_target_pos with_target_neg];
    rewrite !aget_aset_same;
    (split;
     [ unfold chan_within, chan_state, tuple_within;
       cbn [control_A_pos control_A_neg target_pos target_neg avg_A
            with_control_A_pos with_control_A_neg with_target_pos
            with_target_neg];
       rewrite !aget_aset_same; tauto
     | ]).
  - apply (quotient_sided _ _ (2 * bound_u) _ _ Hc).
    now apply divisor_within.
  - apply (quotient_sided _ _ (2 * bound_u) _ _ Hc).
    apply divisor_within, abs_within.
    apply (within_weaken _ _ _ _ _ Hcn'); bounds; lra.
Qed.

Lemma second_stage_within (c : @Locals float) (s : ButterComp2State float)
  (ch : chan) (y : float) (v : Q) :
  locals_within c -> chan_within s ch -> sided bound_c v y ->
  chan_within (fst (second_stage c s ch y)) ch /\
  sided bound_c v (snd (second_stage c s ch y)).
Proof.
  intros (Hca & _) (Hcp & Hcn & Htp & Htn & Hav) Hy.
  rewrite second_stage_unfold. cbn [fst snd].
  unfold spec_transient, spec_envelope.
  cbn [ltb mul add div fabs k1 k0_1 k0_999 k0_001 k1_1 Arith_double].
  assert (Hyw : within (- bound_c) bound_c y)
    by (apply (sided_within _ v); [unfold bound_c; lra|exact Hy]).
  pose proof (abs_within y bound_c Hyw) as Hay.
  split.
  - unfold chan_within, chan_state, tuple_within.
    cbn [control_A_pos control_A_neg target_pos target_neg avg_A with_avg_A].
    rewrite aget_aset_same.
    split; [exact Hcp|]. split; [exact Hcn|]. split; [exact Htp|].
    split; [exact Htn|].
    destruct (aget (avg_A s) ch <? abs y)%float.
    + apply (within_weaken _ _ _ _ _ Hay); bounds; lra.
    + now apply decay_within.
  - match goal with |- sided _ _ (if ?b then _ else _) => destruct b end;
      [|exact Hy].
    apply (quotient_sided _ _ 3 _ _ Hy). now apply factor_within.
Qed.

Lemma limit_stage_sided (c : @Locals float) (z : float) (v : Q) :
  locals_within c -> sided bound_c v z -> sided 1 v (limit_stage c z).
Proof.
  intros (_ & Hog & _) Hz. unfold limit_stage.
  cbn [ltb mul neg k1 Arith_double].
  assert (Hp : sided (2 * bound_c) v (z * output_gain c)%float).
  { apply (sided_scale bound_c 2 _ v z _ Hz Hog); try rep_tac;
      bounds; lra. }
  set (p := (z * output_gain c)%float) in *.
  destruct Hp as (Fp & Hpp & Hpn).
  assert (F1 : fin 1%float) by (apply finb_fin; reflexivity).
  assert (Fm : fin (- (1))%float) by (apply finb_fin; reflexivity).
  assert (E1 : F2Q 1%float == 1) by reflexivity.
  assert (Em : F2Q (- (1))%float == - (1)) by reflexivity.
  destruct (1 <? p)%float eqn:T1.
  - change (1 <? - (1))%float with false. cbv iota.
    apply (ltb_Q 1 p F1 Fp) in T1. rewrite E1 in T1.
    split; [exact F1|]. rewrite E1. split; intros Hv; [lra|].
    specialize (Hpn Hv). lra.
  - apply (ltb_false_Q 1 p F1 Fp) in T1. rewrite E1 in T1.
    destruct (p <? - (1))%float eqn:T2.
    + apply (ltb_Q p _ Fp Fm) in T2. rewrite Em in T2.
      split; [exact Fm|]. rewrite Em. split; intros Hv; [|lra].
      specialize (Hpp Hv). lra.
    + apply (ltb_false_Q p _ Fp Fm) in T2. rewrite Em in T2.
      split; [exact Fp|]. split; intros Hv.
      * specialize (Hpp Hv). lra.
      * specialize (Hpn Hv). lra.
Qed.

Lemma mixed_sided (c : @Locals float) (s : ButterComp2State float)
  (ch : chan) (x w : float) :
  locals_within c -> within (- bound_x) bound_x x -> sided 1 (F2Q x) w ->
  sided (2 * bound_x) (F2Q x) (x * dry c + w * wet c)%float.
Proof.
  intros (_ & _ & Hwet & Hdry & _) Hx Hw.
  apply (sided_add bound_x 1).
  - apply (sided_scale bound_x 1 _ _ _ _ (sided_self _ _ Hx) Hdry);
      try rep_tac; bounds; lra.
  - apply (sided_scale 1 1 _ _ _ _ Hw Hwet); try rep_tac; lra.
  - rep_tac.
  - bounds. lra.
Qed.

(** The step of a sample. *)
Lemma process_channel_within (RAND_MAX : Z) (rand : nat -> Z)
  (c : @Locals float) (s : ButterComp2State float) (ch : chan) (x : float)
  (k : nat) :
  locals_within c -> chan_within s ch -> within (- bound_x) bound_x x ->
  chan_within (fst (fst (process_channel RAND_MAX rand c s ch x k))) ch /\
  sided bound_c (F2Q x) (snd (first_stage c s ch x)) /\
  sided 1 (F2Q x) (wet_sample c s ch x) /\
  sided (2 * bound_x) (F2Q x) (mixed c s ch x).
Proof.
  intros Hc Hs Hx. unfold mixed, wet_sample, process_channel.
  destruct (first_stage_within c s ch x Hc Hs Hx) as [H1 Y1].
  destruct (first_stage c s ch x) as [s1 y]. cbn [fst snd] in *.
  destruct (second_stage_within c s1 ch y (F2Q x) Hc H1 Y1) as [H2 Y2].
  destruct (second_stage c s1 ch y) as [s2 z]. cbn [fst snd] in *.
  pose proof (limit_stage_sided c z (F2Q x) Hc Y2) as Y3.
  split; [|split; [exact Y1|split; [exact Y3|]]].
  - unfold chan_within. rewrite mix_stage_chan_state. exact H2.
  - cbn [mul add Arith_double]. now apply mixed_sided.
Qed.

(** ** The values derived from the parameters *)

Lemma in_range_as_within (lo hi : float) (ql qh : Q) (v : float) :
  finb lo = true -> finb hi = true -> F2Q lo = ql -> F2Q hi = qh ->
  in_range lo hi v -> within ql qh v.
Proof. intros Fl Fh <- <-. now apply in_range_within. Qed.

Lemma within_as_in_range (lo hi : float) (ql qh : Q) (v : float) :
  finb lo = true -> finb hi = true -> F2Q lo = ql -> F2Q hi = qh ->
  within ql qh v -> in_range lo hi v.
Proof. intros Fl Fh <- <-. now apply within_in_range. Qed.

Lemma in_unit_within (v : float) : in_range 0 1 v -> within 0 1 v.
Proof. apply in_range_as_within; vm_compute; reflexivity. Qed.

(** A rate of at least 1 is a number or plus infinity. *)
Lemma leb_one_cases (r : float) :
  (1 <=? r)%float = true ->
  (fin r /\ 1 <= F2Q r) \/ Prim2SF r = S754_infinity false.
Proof.
  intros H. assert (F1 : fin 1%float) by (apply finb_fin; reflexivity).
  destruct (Prim2SF r) as [sr|sr| |sr mr er] eqn:E.
  - left. assert (Fr : fin r) by (left; now exists sr).
    split; [exact Fr|]. now apply (leb_Q 1 r F1 Fr) in H.
  - destruct sr; [|now right].
    rewrite leb_spec, E in H. discriminate.
  - rewrite leb_spec, E in H. discriminate.
  - left. assert (Fr : fin r) by (right; now exists sr, mr, er).
    split; [exact Fr|]. now apply (leb_Q 1 r F1 Fr) in H.
Qed.

Lemma release_speed_within (s : ButterComp2State float) :
  rate_ok s -> within 0 1 (release_speed (locals_of s)).
Proof.
  intros [H|H]; [|now apply in_unit_within].
  unfold locals_of. cbn [release_speed mul div k1 k0_001 Arith_double].
  destruct (leb_one_cases _ H) as [[Fr Hr]|E].
  - assert (Hq : within 0 1 (1 / sample_rate s)%float).
    { destruct within_1 as [F1 H1].
      apply div_bracket; try assumption; try rep_tac; lra. }
    apply (mul_within 0.001 _ q0_001 q0_001 0 1); try rep_tac;
      [exact within_0_001|exact Hq|].
    intros u v Hu Hv. bounds. nra.
  - assert (Ez : (1 / sample_rate s)%float = 0%float).
    { apply Prim2SF_inj. rewrite div_spec, E. reflexivity. }
    rewrite Ez. apply (within_weaken 0 0); [|lra|lra].
    apply within_const; vm_compute; reflexivity.
Qed.

Lemma locals_of_within (s : ButterComp2State float) :
  params_in_unit s -> rate_ok s -> locals_within (locals_of s).
Proof.
  intros (Hc & Ho & Hd) Hr.
  apply in_unit_within in Hc, Ho, Hd.
  unfold locals_within, locals_of.
  cbn [compress_amount output_gain wet dry release_speed].
  split; [|split; [|split; [|split]]].
  - cbn [mul k14 Arith_double].
    apply (mul_within _ 14 0 1 14 14); try rep_tac;
      [exact Hc|exact within_14|].
    intros u v Hu Hv. nra.
  - cbn [mul k2 Arith_double].
    apply (mul_within _ 2 0 1 2 2); try rep_tac;
      [exact Ho|exact within_2|].
    intros u v Hu Hv. nra.
  - exact Hd.
  - cbn [sub k1 Arith_double].
    apply (sub_within 1 _ 1 1 0 1); try rep_tac;
      [exact within_1|exact Hd|].
    intros u v Hu Hv. lra.
  - now apply release_speed_within.
Qed.

(** The ranges as [double]s compare. *)
Lemma chan_in_range_within (s : ButterComp2State float) (ch : chan) :
  chan_in_range s ch <-> chan_within s ch.
Proof.
  unfold chan_in_range, chan_within, chan_state, tuple_within. split.
  - intros (H1 & H2 & H3 & H4 & H5).
    split; [|split; [|split; [|split]]];
      [ revert H1 | revert H2 | revert H3 | revert H4 | revert H5 ];
      apply in_range_as_within; vm_compute; reflexivity.
  - intros (H1 & H2 & H3 & H4 & H5).
    split; [|split; [|split; [|split]]];
      [ revert H1 | revert H2 | revert H3 | revert H4 | revert H5 ];
      apply within_as_in_range; vm_compute; reflexivity.
Qed.

Lemma fin_finb (f : float) : fin f -> finb f = true.
Proof.
  unfold fin, finb. intros [[s ->]|(s & m & e & ->)]; reflexivity.
Qed.

Lemma rate_ok_same (s s' : ButterComp2State float) :
  sample_rate s' = sample_rate s -> rate_ok s' -> rate_ok s.
Proof.
  unfold rate_ok, locals_of. cbn [release_speed]. now intros ->.
Qed.

End Binary64Ranges.

Section Binary64Reachable.

Variable RAND_MAX : Z.
Variable rand : nat -> Z.

(** The invariant of an instance: parameters in [[0, 1]] and, when the
    rate is as [rate_ok] says, running values in their ranges. *)
Lemma reachable_in_range (s : ButterComp2State float) :
  reachable RAND_MAX rand sample_ok s ->
  params_in_unit s /\ (rate_ok s -> state_in_range s).
Proof.
  revert s. apply (reachable_invariant RAND_MAX rand sample_ok
    (fun t => params_in_unit t /\ (rate_ok t -> state_in_range t))).
  - intros rate t E. cbn in E. injection E as <-. split.
    + repeat split.
    + intros _ []; repeat split.
  - intros t v [(Hc & Ho & Hd) Hs]. split.
    + split; [apply clamp_in_unit_interval|]. split; assumption.
    + intros Hr ch. apply (Hs (rate_ok_same t _ eq_refl Hr) ch).
  - intros t v [(Hc & Ho & Hd) Hs]. split.
    + split; [exact Hc|]. split; [apply clamp_in_unit_interval|exact Hd].
    + intros Hr ch. apply (Hs (rate_ok_same t _ eq_refl Hr) ch).
  - intros t v [(Hc & Ho & Hd) Hs]. split.
    + split; [exact Hc|]. split; [exact Ho|apply clamp_in_unit_interval].
    + intros Hr ch. apply (Hs (rate_ok_same t _ eq_refl Hr) ch).
  - intros t [Hp Hs]. split; [exact Hp|].
    intros _ []; repeat split.
  - intros t ch x k [Hp Hs] Hx.
    destruct (process_channel_params RAND_MAX rand (locals_of t) t ch x k)
      as (E1 & E2 & E3 & E4).
    split.
    + unfold params_in_unit. rewrite E2, E3, E4. exact Hp.
    + intros Hr. pose proof (rate_ok_same t _ E1 Hr) as Hr'.
      specialize (Hs Hr'). intros ch'.
      destruct (process_channel_within RAND_MAX rand (locals_of t) t ch x k)
        as (Hw & _).
      * now apply locals_of_within.
      * apply chan_in_range_within, Hs.
      * revert Hx. apply in_range_as_within; vm_compute; reflexivity.
      * apply chan_in_range_within.
        destruct ch, ch'; try exact Hw; unfold chan_within;
          rewrite (process_channel_other RAND_MAX rand) by discriminate;
          apply chan_in_range_within, Hs.
Qed.

(** C10 (as amended), in binary64.  On an instance whose sample rate is
    at least 1 Hz (more generally, whose release speed
    [0.001 * (1 / sample_rate)] lies in [[0, 1]]), every state reached
    from create by the setters, reset and process on samples within
    [[-2^128, 2^128]] (every finite [float] is) has all its per-channel
    fields finite: the positive targets and the envelope in
    [[0, 2^131]], the negative targets in [[-2^131, 0]], the positive
    controls in [[0, 2^133]] and the negative ones in [[-2^133, 0]]; every
    divisor [1 + control_A_pos] and [1 + |control_A_neg|] lies in
    [[1, 2^134]], so that no division is by zero; and in the step of
    any such sample from such a state the output of the first stage is
    finite, the wet sample after the clip lies in [[-1, 1]] and the mix
    of dry and wet is finite. *)
Theorem reachable_state_finite (s : ButterComp2State float) :
  reachable RAND_MAX rand sample_ok s -> rate_ok s ->
  state_in_range s /\
  (forall ch,
     in_range 1 0x1p134 (1 + aget (control_A_pos s) ch)%float /\
     in_range 1 0x1p134 (1 + abs (aget (control_A_neg s) ch))%float) /\
  (forall ch x, sample_ok x ->
     finb (snd (first_stage (locals_of s) s ch x)) = true /\
     in_range (-1) 1 (wet_sample (locals_of s) s ch x) /\
     finb (mixed (locals_of s) s ch x) = true).
Proof.
  intros Hreach Hr.
  destruct (reachable_in_range s Hreach) as [Hp Hs]. specialize (Hs Hr).
  split; [exact Hs|]. split.
  - intros ch. destruct (proj1 (chan_in_range_within s ch) (Hs ch))
      as (Hcp & Hcn & _).
    split.
    + generalize (divisor_within _ Hcp).
      apply within_as_in_range; vm_compute; reflexivity.
    + assert (Ha : within 0 bound_u (abs (aget (control_A_neg s) ch))).
      { apply abs_within. apply (within_weaken _ _ _ _ _ Hcn); bounds; lra. }
      generalize (divisor_within _ Ha).
      apply within_as_in_range; vm_compute; reflexivity.
  - intros ch x Hx.
    destruct (process_channel_within RAND_MAX rand (locals_of s) s ch x 0)
      as (_ & (F1 & _) & W & (F3 & _)).
    + now apply locals_of_within.
    + apply chan_in_range_within, Hs.
    + revert Hx. apply in_range_as_within; vm_compute; reflexivity.
    + split; [now apply fin_finb|]. split; [|now apply fin_finb].
      assert (Hw : within (- (1)) 1 (wet_sample (locals_of s) s ch x))
        by (apply (sided_within 1 (F2Q x)); [lra|exact W]).
      revert Hw. apply within_as_in_range; vm_compute; reflexivity.
Qed.

End Binary64Reachable.

(** * Further runs in binary64 *)

Section FiniteRuns.

Local Open Scope float_scope.

(** The instance of 48000 Hz with compress 0.75 after the first sample
    0.5 of the left channel, as a state reached on finite samples. *)
Lemma after_sample_reachable_finite :
  reachable RAND_MAX_glibc rand_zero sample_ok after_sample.
Proof.
  apply reach_sample; [|split; reflexivity].
  apply (reach_set_compress RAND_MAX_glibc rand_zero _ created_double _ 0.75);
    [|reflexivity].
  now apply (reach_create RAND_MAX_glibc rand_zero _ 48000).
Defined.

(** C10 at an instance: 48000 Hz, compress 0.75, after a sample. *)
Lemma reachable_state_finite_witness :
  state_in_range after_sample /\
  (forall ch,
     in_range 1 0x1p134 (1 + aget (control_A_pos after_sample) ch) /\
     in_range 1 0x1p134 (1 + abs (aget (control_A_neg after_sample) ch))) /\
  (forall ch x, sample_ok x ->
     finb (snd (first_stage (locals_of after_sample) after_sample ch x))
     = true /\
     in_range (-1) 1 (wet_sample (locals_of after_sample) after_sample ch x) /\
     finb (mixed (locals_of after_sample) after_sample ch x) = true).
Proof.
  apply (reachable_state_finite RAND_MAX_glibc rand_zero after_sample).
  - exact after_sample_reachable_finite.
  - left. reflexivity.
Defined.

End FiniteRuns.
